(** * A first-fit allocator over a static buffer (functions.c)

    Shallow embedding of [my_malloc], [my_calloc], [my_free], [my_realloc],
    [print_memory_contents] and their helpers, and the properties of the
    design document checked against it.

    Modelling conventions.
    - [size_t] is a 64-bit unsigned integer: a [Z] reduced by [wrap] after
      every arithmetic operation the C code performs on it.
    - A pointer is an [option Z]: [None] is NULL, [Some a] is the byte
      offset [a] from [heap_base] (the start of [buffer]).  Pointer
      comparison and pointer arithmetic are integer operations on offsets.
    - The buffer is seen through its header cells: a finite map from
      offsets to [metadata] records.  Payload bytes are not modelled: the
      [memcpy] of [my_realloc] and the zero fill of [my_calloc] remove the
      header cells their bytes reach, since what such a cell holds
      afterwards depends on bytes the model does not have.  That is exact
      as long as the bytes stay inside the payload they are written to;
      the theorems about [my_realloc] and [my_calloc] are about such
      calls.  Reading a header at an offset that holds none is the error
      [WildRead]: the code itself goes on there, with whatever bytes it
      finds, and the model does not follow it.  Dereferencing NULL is
      [NullDeref].
    - Header cells at different offsets are independent of each other.
      That is exact as long as the headers written do not overlap, as on a
      well-formed chain in which every block that is split has room for
      the new header; the theorems about chains ask for that room, or
      speak only of the pointer returned, which does not depend on it.
    - The code never checks an offset against [BUFF_SIZE]; neither does the
      model.  Theorems that need blocks to stay inside the buffer say so.
    - Every [while] loop over the chain takes a fuel argument and returns
      [OutOfFuel] when it runs dry.
    - [functions.h] is not part of the sources: [sizeof(metadata)],
      [THRESHOLD] and [BUFF_SIZE] are parameters [HDR], [THRESHOLD],
      [BUFF_SIZE]; the fields of [metadata] are those the code uses. *)

From Stdlib Require Import ZArith Lia.
From stdpp Require Import gmap list.

Open Scope Z_scope.

(** ** Outcomes *)

Inductive result (A : Type) : Type :=
| Ok (a : A)
| NullDeref
| WildRead
| OutOfFuel.
Arguments Ok {A} a.
Arguments NullDeref {A}.
Arguments WildRead {A}.
Arguments OutOfFuel {A}.

Definition bind {A B : Type} (r : result A) (f : A -> result B) : result B :=
  match r with
  | Ok a => f a
  | NullDeref => NullDeref
  | WildRead => WildRead
  | OutOfFuel => OutOfFuel
  end.

Notation "x <- e ; k" := (bind e (fun x => k))
  (at level 20, e at level 100, k at level 200, only parsing).
Notation "' x <- e ; k" := (bind e (fun x => k))
  (at level 20, x pattern, e at level 100, k at level 200, only parsing).

(** ** Data *)

(** [size_t] arithmetic. *)
Definition SIZE_MOD : Z := 18446744073709551616.
Definition wrap (x : Z) : Z := x mod SIZE_MOD.

(** The block header.  [free] is an [int] in C that only ever holds 0 or 1. *)
Record metadata : Type := Metadata {
  size : Z;
  free : bool;
  next : option Z
}.

(** An all-zero header, as read from the zero-initialised buffer. *)
Definition zero_metadata : metadata := Metadata 0 false None.

(** The file-scope variables: the header cells of [buffer], [last],
    [freespace] and [first]. *)
Record heap : Type := Heap {
  buffer : gmap Z metadata;
  last : option Z;
  freespace : Z;
  first : bool
}.

(** What [my_free] prints. *)
Inductive free_report : Type :=
| Silent
| Freed (sz : Z)
| InvalidAddress.

(** What [my_realloc] hands back: a pointer, or nothing when control
    reaches the closing brace without a [return]. *)
Inductive retval : Type :=
| Ret (p : option Z)
| NoReturn.

(** [heap_base] is offset 0. *)
Definition heap_base : Z := 0.

(** ** Memory access *)

Definition deref (p : option Z) : result Z :=
  match p with
  | Some a => Ok a
  | None => NullDeref
  end.

Definition load (m : gmap Z metadata) (a : Z) : result metadata :=
  match m !! a with
  | Some h => Ok h
  | None => WildRead
  end.

(** A field assignment [a->field = v]. *)
Definition store (f : metadata -> metadata) (a : Z) (m : gmap Z metadata)
  : gmap Z metadata :=
  <[a := f (default zero_metadata (m !! a))]> m.

Definition set_size (v : Z) (h : metadata) : metadata :=
  Metadata v (free h) (next h).
Definition set_free (v : bool) (h : metadata) : metadata :=
  Metadata (size h) v (next h).
Definition set_next (v : option Z) (h : metadata) : metadata :=
  Metadata (size h) (free h) v.

Definition with_buffer (s : heap) (m : gmap Z metadata) : heap :=
  Heap m (last s) (freespace s) (first s).
Definition with_last (s : heap) (l : option Z) : heap :=
  Heap (buffer s) l (freespace s) (first s).
Definition with_freespace (s : heap) (v : Z) : heap :=
  Heap (buffer s) (last s) v (first s).

(** The constants of [functions.h]: [HDR] is [sizeof(metadata)]. *)
Record config : Type := Config {
  HDR : Z;
  THRESHOLD : Z;
  BUFF_SIZE : Z
}.

(** A block of the chain, seen from outside: payload size and free flag. *)
Abbreviation blk := (Z * bool)%type.

Section Allocator.

Variable c : config.

(** The state at program start: [buffer] is all zero, [last] is NULL,
    [freespace] is [BUFF_SIZE] and [first] is 1. *)
Definition initial : heap :=
  Heap {[ heap_base := zero_metadata ]} None (BUFF_SIZE c) true.

(** ** Helpers *)

(** [search_freespace]: the loop, started at [temp]. *)
Fixpoint search_loop (fuel : nat) (m : gmap Z metadata) (sz : Z)
    (temp : option Z) : result (option Z) :=
  match temp with
  | None => Ok None
  | Some t =>
      h <- load m t;
      if free h && (sz <=? size h) then Ok (Some t)
      else match fuel with
           | O => OutOfFuel
           | S fuel' => search_loop fuel' m sz (next h)
           end
  end.

Definition search_freespace (fuel : nat) (s : heap) (sz : Z)
  : result (option Z) :=
  search_loop fuel (buffer s) sz (Some heap_base).

(** [verifyBlockAddress]: returns the verdict and the final [*prev]. *)
Fixpoint verify_loop (fuel : nat) (m : gmap Z metadata) (to_free : Z)
    (temp prev : option Z) : result (bool * option Z) :=
  match temp with
  | None => Ok (false, prev)
  | Some t =>
      if to_free =? t then Ok (true, prev)
      else match fuel with
           | O => OutOfFuel
           | S fuel' =>
               h <- load m t;
               verify_loop fuel' m to_free (next h) (Some t)
           end
  end.

Definition verifyBlockAddress (fuel : nat) (s : heap) (to_free : Z)
    (prev : option Z) : result (bool * option Z) :=
  verify_loop fuel (buffer s) to_free (Some heap_base) prev.

(** [fuse]. *)
Fixpoint fuse (fuel : nat) (s : heap) (ptr : Z) : result heap :=
  h <- load (buffer s) ptr;
  match next h with
  | None => Ok (with_last s (Some ptr))
  | Some nx =>
      hn <- load (buffer s) nx;
      if free hn then
        match fuel with
        | O => OutOfFuel
        | S fuel' =>
            (* ptr->size += ptr->next->size + sizeof(metadata); *)
            let m1 := store (set_size (wrap (size h + wrap (size hn + HDR c))))
                            ptr (buffer s) in
            (* ptr->next = ptr->next->next; *)
            h1 <- load m1 ptr;
            nx1 <- deref (next h1);
            hn1 <- load m1 nx1;
            let m2 := store (set_next (next hn1)) ptr m1 in
            (* freespace += sizeof(metadata); *)
            fuse fuel' (Heap m2 (last s) (wrap (freespace s + HDR c)) (first s))
                 ptr
        end
      else Ok s
  end.

(** [split]. *)
Definition split (s : heap) (ptr : Z) (sz : Z) : result heap :=
  let chunk := ptr + wrap (HDR c + sz) in
  (* chunk->next = ptr->next; *)
  h <- load (buffer s) ptr;
  let m1 := store (set_next (next h)) chunk (buffer s) in
  (* ptr->next = chunk; *)
  let m2 := store (set_next (Some chunk)) ptr m1 in
  (* chunk->free = 1; *)
  let m3 := store (set_free true) chunk m2 in
  (* chunk->size = ptr->size - (size + sizeof(metadata)); *)
  h3 <- load m3 ptr;
  let m4 := store (set_size (wrap (size h3 - wrap (sz + HDR c)))) chunk m3 in
  (* ptr->size = size; *)
  let m5 := store (set_size sz) ptr m4 in
  hc <- load m5 chunk;
  match next hc with
  | None => Ok (Heap m5 (Some chunk) (freespace s) (first s))
  | Some _ => Ok (with_buffer s m5)
  end.

(** [deframent_my_heap]: the loop, started at [temp]. *)
Fixpoint defrag_loop (fuel_fuse fuel : nat) (s : heap) (temp : option Z)
  : result heap :=
  match temp with
  | None => Ok s
  | Some t =>
      match fuel with
      | O => OutOfFuel
      | S fuel' =>
          h <- load (buffer s) t;
          s1 <- match next h with
               | None => Ok s
               | Some nx =>
                   if free h then
                     hn <- load (buffer s) nx;
                     if free hn then fuse fuel_fuse s t else Ok s
                   else Ok s
               end;
          h1 <- load (buffer s1) t;
          defrag_loop fuel_fuse fuel' s1 (next h1)
      end
  end.

Definition deframent_my_heap (fuel : nat) (s : heap) : result heap :=
  defrag_loop fuel fuel s (Some heap_base).

(** ** Public operations *)

Definition free_space_in_my_heap (s : heap) : Z := freespace s.

Definition my_malloc (fuel : nat) (s : heap) (sz : Z)
  : result (heap * option Z) :=
  if sz =? 0 then Ok (s, None)
  else
    '(s1, block) <-
      (if negb (first s) then
         found <- search_freespace fuel s sz;
         match found with
         | None =>
             l <- deref (last s);
             hl <- load (buffer s) l;
             (* block = (metadata * )(last->size + (char* )(last+1)); *)
             let block := size hl + (l + HDR c) in
             (* last->next = block; last = block; *)
             let m1 := store (set_next (Some block)) l (buffer s) in
             (* block->next = NULL; block->size = size; *)
             let m2 := store (set_next None) block m1 in
             let m3 := store (set_size sz) block m2 in
             Ok (Heap m3 (Some block)
                      (wrap (freespace s - wrap (sz + HDR c))) (first s),
                 block)
         | Some block =>
             hb <- load (buffer s) block;
             if wrap (sz + THRESHOLD c) <=? size hb then
               let s1 := with_freespace s (wrap (freespace s - size hb)) in
               s2 <- split s1 block sz;
               hb2 <- load (buffer s2) block;
               nx <- deref (next hb2);
               hn <- load (buffer s2) nx;
               Ok (with_freespace s2 (wrap (freespace s2 + size hn)), block)
             else
               Ok (with_freespace s (wrap (freespace s - sz)), block)
         end
       else
         let block := heap_base in
         let m1 := store (set_size sz) block (buffer s) in
         let m2 := store (set_next None) block m1 in
         Ok (Heap m2 (Some block)
                  (wrap (freespace s - wrap (sz + HDR c))) false,
             block));
    (* block->free = 0; return block + 1; *)
    Ok (with_buffer s1 (store (set_free false) block (buffer s1)),
        Some (block + HDR c)).

(** [to_free <= last]: with [last == NULL] no address inside or past the
    buffer compares below it. *)
Definition le_last (to_free : Z) (l : option Z) : bool :=
  match l with
  | Some a => to_free <=? a
  | None => false
  end.

Definition my_free (fuel : nat) (s : heap) (ptr : option Z)
  : result (heap * free_report) :=
  match ptr with
  | None => Ok (s, Silent)
  | Some p =>
      let to_free := p - HDR c in
      '(s1, rep) <-
        (if (heap_base <=? to_free) && le_last to_free (last s) then
           '(valid, prev) <- verifyBlockAddress fuel s to_free None;
           if valid then
             h <- load (buffer s) to_free;
             (* to_free->free = 1; freespace += to_free->size; *)
             let m1 := store (set_free true) to_free (buffer s) in
             h1 <- load m1 to_free;
             let s1 := Heap m1 (last s) (wrap (freespace s + size h1))
                            (first s) in
             s2 <- fuse fuel s1 to_free;
             s3 <- match prev with
                  | None => Ok s2
                  | Some pv =>
                      hp <- load (buffer s2) pv;
                      if free hp then fuse fuel s2 pv else Ok s2
                  end;
             Ok (s3, Freed (size h))
           else Ok (s, InvalidAddress)
         else Ok (s, InvalidAddress));
      s2 <- deframent_my_heap fuel s1;
      Ok (s2, rep)
  end.

(** [memcpy(dst, src, n)] as the header cells see it: a cell that the [n]
    bytes written from [dst] on reach holds payload bytes afterwards, not a
    header any more.  [untouched dst n a]: the header at [a] is out of
    their reach. *)
Definition untouched (dst n a : Z) : Prop :=
  n <= 0 \/ a + HDR c <= dst \/ dst + n <= a.

#[local] Instance untouched_dec dst n a : Decision (untouched dst n a).
Proof. unfold untouched. apply _. Defined.

Definition memcpy (m : gmap Z metadata) (dst n : Z) : gmap Z metadata :=
  filter (fun kv => untouched dst n kv.1) m.

(** The fallback of [my_realloc]: allocate, copy [block->size] bytes, free
    the old block. *)
Definition move (fuel : nat) (s : heap) (block : Z) (sz : Z)
  : result (heap * retval) :=
  (* char * chunk = (char * )my_malloc(size); *)
  '(s1, chunk) <- my_malloc fuel s sz;
  (* memcpy(chunk, block + 1, block->size); *)
  hb <- load (buffer s1) block;
  dst <- deref chunk;
  let s2 := with_buffer s1 (memcpy (buffer s1) dst (size hb)) in
  (* my_free(block + 1); return chunk; *)
  '(s3, _) <- my_free fuel s2 (Some (block + HDR c));
  Ok (s3, Ret chunk).

Definition my_realloc (fuel : nat) (s : heap) (ptr : option Z) (sz : Z)
  : result (heap * retval) :=
  match ptr with
  | None =>
      '(s1, p) <- my_malloc fuel s sz;
      Ok (s1, Ret p)
  | Some p =>
      if sz =? 0 then
        '(s1, _) <- my_free fuel s ptr;
        Ok (s1, Ret None)
      else
        let block := p - HDR c in
        h <- load (buffer s) block;
        if size h <? sz then
          (* expand *)
          nx <- deref (next h);
          hn <- load (buffer s) nx;
          if free hn && (wrap (wrap (sz - size h) - HDR c) <=? size hn) then
            (* block->size += sizeof(metadata) + block->next->size; *)
            let m1 := store (set_size (wrap (size h + wrap (HDR c + size hn))))
                            block (buffer s) in
            (* freespace -= block->next->size; *)
            h1 <- load m1 block;
            nx1 <- deref (next h1);
            hn1 <- load m1 nx1;
            let fs1 := wrap (freespace s - size hn1) in
            (* if (block->next->next == NULL) last = block; *)
            let l1 := match next hn1 with
                      | None => Some block
                      | Some _ => last s
                      end in
            (* block->next = block->next->next; *)
            let m2 := store (set_next (next hn1)) block m1 in
            let s2 := Heap m2 l1 fs1 (first s) in
            h2 <- load m2 block;
            if wrap (sz + THRESHOLD c) <=? size h2 then
              s3 <- split s2 block sz;
              h3 <- load (buffer s3) block;
              nx3 <- deref (next h3);
              hn3 <- load (buffer s3) nx3;
              Ok (with_freespace s3 (wrap (freespace s3 + size hn3)),
                  Ret (Some (block + HDR c)))
            else Ok (s2, Ret (Some (block + HDR c)))
          else move fuel s block sz
        else if sz <? size h then
          (* shrink *)
          if wrap (sz + THRESHOLD c) <=? size h then
            s1 <- split s block sz;
            h1 <- load (buffer s1) block;
            nx1 <- deref (next h1);
            hn1 <- load (buffer s1) nx1;
            Ok (with_freespace s1 (wrap (freespace s1 + size hn1)),
                Ret (Some (block + HDR c)))
          else move fuel s block sz
        else
          (* neither branch: the function ends without a return *)
          Ok (s, NoReturn)
  end.

(** [my_calloc].  The product [n * size] is a [size_t] product.  The loop
    counter is an [int], 32 bits wide: it cannot count past [INT_MAX], and
    a fill longer than that ends in a signed overflow, [IntOverflow].
    The zero bytes reach header cells as the bytes of a copy do. *)
Definition INT_MAX : Z := 2147483647.

Inductive calloc_outcome : Type :=
| Returned (r : result (heap * option Z))
| IntOverflow.

Definition my_calloc (fuel : nat) (s : heap) (n sz : Z) : calloc_outcome :=
  (* size_t total = n * size; *)
  let total := wrap (n * sz) in
  (* char * temp = (char * )my_malloc(total); *)
  match my_malloc fuel s total with
  | Ok (s1, temp) =>
      (* for (int var = 0; var < total; ++var) temp[var] = 0; *)
      if total =? 0 then Returned (Ok (s1, temp))
      else
        match temp with
        | None => Returned NullDeref
        | Some dst =>
            if total <=? INT_MAX then
              Returned
                (Ok (with_buffer s1 (memcpy (buffer s1) dst total), temp))
            else IntOverflow
        end
  | NullDeref => Returned NullDeref
  | WildRead => Returned WildRead
  | OutOfFuel => Returned OutOfFuel
  end.

(** [print_memory_contents]: the lines printed, one [(size, free)] per
    block met from [heap_base] on, and the free space printed last. *)
Fixpoint print_loop (fuel : nat) (m : gmap Z metadata) (temp : option Z)
  : result (list (Z * bool)) :=
  match temp with
  | None => Ok []
  | Some t =>
      match fuel with
      | O => OutOfFuel
      | S fuel' =>
          h <- load m t;
          rest <- print_loop fuel' m (next h);
          Ok ((size h, free h) :: rest)
      end
  end.

Definition print_memory_contents (fuel : nat) (s : heap)
  : result (list (Z * bool) * Z) :=
  lines <- print_loop fuel (buffer s) (Some heap_base);
  Ok (lines, free_space_in_my_heap s).

(** ** The chain as a list of blocks

    A block is its payload size and its free flag.  [seg m a bs e] says
    that the header cells of [m] starting at offset [a] are the blocks
    [bs], each header followed by its payload and then by the next header,
    the last one linking to [e]. *)

Fixpoint span (bs : list blk) : Z :=
  match bs with
  | [] => 0
  | b :: bs' => HDR c + b.1 + span bs'
  end.

Definition link (a : Z) (bs : list blk) (e : option Z) : option Z :=
  match bs with
  | [] => e
  | _ :: _ => Some a
  end.

Fixpoint seg (m : gmap Z metadata) (a : Z) (bs : list blk) (e : option Z)
  : Prop :=
  match bs with
  | [] => True
  | b :: bs' =>
      m !! a = Some (Metadata b.1 b.2 (link (a + HDR c + b.1) bs' e))
      /\ 0 <= b.1 < SIZE_MOD
      /\ seg m (a + HDR c + b.1) bs' e
  end.

(** Offset of the last header of a chain that starts at [a]. *)
Fixpoint last_addr (a : Z) (bs : list blk) : Z :=
  match bs with
  | b :: (_ :: _) as bs' => last_addr (a + HDR c + b.1) bs'
  | _ => a
  end.

(** Offsets of the headers of a chain that starts at [a]. *)
Fixpoint addrs (a : Z) (bs : list blk) : list Z :=
  match bs with
  | [] => []
  | b :: bs' => a :: addrs (a + HDR c + b.1) bs'
  end.

(** The blocks of the chain of [s] are [bs]: the chain starts at
    [heap_base], ends with a NULL link, [last] is its final header and its
    extent fits a [size_t]. *)
Definition chain (s : heap) (bs : list blk) : Prop :=
  bs <> [] /\ seg (buffer s) heap_base bs None
  /\ last s = Some (last_addr heap_base bs)
  /\ span bs < SIZE_MOD.

(** What the loops compute, on the list. *)
Fixpoint find_fit (a : Z) (sz : Z) (bs : list blk) : option Z :=
  match bs with
  | [] => None
  | b :: bs' =>
      if b.2 && (sz <=? b.1) then Some a
      else find_fit (a + HDR c + b.1) sz bs'
  end.

Fixpoint find_addr (a : Z) (x : Z) (bs : list blk) (prev : option Z)
  : bool * option Z :=
  match bs with
  | [] => (false, prev)
  | b :: bs' =>
      if x =? a then (true, prev)
      else find_addr (a + HDR c + b.1) x bs' (Some a)
  end.

(** Bytes of payload in allocated blocks, and in free blocks. *)
Fixpoint alloc_sum (bs : list blk) : Z :=
  match bs with
  | [] => 0
  | b :: bs' => (if b.2 then 0 else b.1) + alloc_sum bs'
  end.

Fixpoint free_sum (bs : list blk) : Z :=
  match bs with
  | [] => 0
  | b :: bs' => (if b.2 then b.1 else 0) + free_sum bs'
  end.

(** The allocated blocks of a chain that starts at [a], in chain order:
    the header offset and the payload size of each. *)
Fixpoint allocs (a : Z) (bs : list blk) : list (Z * Z) :=
  match bs with
  | [] => []
  | b :: bs' =>
      if b.2 then allocs (a + HDR c + b.1) bs'
      else (a, b.1) :: allocs (a + HDR c + b.1) bs'
  end.

(** No two neighbours are both free. *)
Fixpoint no_adjacent_free (bs : list blk) : Prop :=
  match bs with
  | b :: (b' :: _) as bs' =>
      ~ (b.2 = true /\ b'.2 = true) /\ no_adjacent_free bs'
  | _ => True
  end.

(** The free blocks at the head of a list, and what follows them. *)
Fixpoint free_run (bs : list blk) : list blk :=
  match bs with
  | b :: bs' => if b.2 then b :: free_run bs' else []
  | [] => []
  end.

Fixpoint after_run (bs : list blk) : list blk :=
  match bs with
  | b :: bs' => if b.2 then after_run bs' else bs
  | [] => []
  end.

(** [freespace] after [k] rounds of [freespace += sizeof(metadata)]. *)
Fixpoint add_hdr (k : nat) (fs : Z) : Z :=
  match k with
  | O => fs
  | S k' => add_hdr k' (wrap (fs + HDR c))
  end.

(** The chain after the defragmentation sweep: [cur] is the block under
    [temp], [rest] what follows it. *)
Fixpoint coalesce_from (cur : blk) (rest : list blk) : list blk :=
  match rest with
  | [] => [cur]
  | r :: rest' =>
      if cur.2 && r.2 then coalesce_from (cur.1 + (HDR c + r.1), cur.2) rest'
      else cur :: coalesce_from r rest'
  end.

Definition coalesce (bs : list blk) : list blk :=
  match bs with
  | [] => []
  | b :: rest => coalesce_from b rest
  end.

(** A chain whose [last] may still be NULL (as before the first
    allocation). *)
Definition shape (s : heap) (bs : list blk) : Prop :=
  bs <> [] /\ seg (buffer s) heap_base bs None
  /\ (forall l, last s = Some l -> l = last_addr heap_base bs)
  /\ span bs < SIZE_MOD.

(** [fuse] on the head of a list. *)
Definition absorb (b : blk) (rest : list blk) : list blk :=
  (b.1 + span (free_run rest), b.2) :: after_run rest.

(** [fuse(prev)] when the block before [l] is free. *)
Fixpoint merge_prev (pre : list blk) (l : list blk) : list blk :=
  match pre with
  | [] => l
  | p :: pre' =>
      match pre' with
      | [] => if p.2 then absorb p l else p :: l
      | _ :: _ => p :: merge_prev pre' l
      end
  end.

(** The chain after [my_free] of the block [b] between [pre] and [post]. *)
Definition free_blocks (pre : list blk) (b : blk) (post : list blk)
  : list blk :=
  coalesce (merge_prev pre (absorb (b.1, true) post)).

(** [s'] with chain [bs'] comes from [s] with chain [bs] by fusing
    blocks: every block that disappears gives its header back to
    [freespace]. *)
Definition fused_into (s : heap) (bs : list blk) (s' : heap)
    (bs' : list blk) : Prop :=
  shape s' bs'
  /\ (is_Some (last s) -> is_Some (last s'))
  /\ freespace s' = add_hdr (length bs - length bs') (freespace s)
  /\ first s' = first s
  /\ (length bs' <= length bs)%nat.

(** ** States and their chains *)

(** [bs] is the chain of [s]: empty before the first allocation. *)
Definition models (s : heap) (bs : list blk) : Prop :=
  (s = initial /\ bs = []) \/ (first s = false /\ chain s bs).

(** The free-space counter accounts for every header and every allocated
    byte, and the chain ends inside the buffer. *)
Definition accounted (s : heap) (bs : list blk) : Prop :=
  freespace s = BUFF_SIZE c - HDR c * Z.of_nat (length bs) - alloc_sum bs
  /\ span bs <= BUFF_SIZE c.

(** A block fits a request. *)
Definition fits (sz : Z) (b : blk) : bool := b.2 && (sz <=? b.1).

(** Size of the block first fit selects. *)
Fixpoint first_fit_size (sz : Z) (bs : list blk) : option Z :=
  match bs with
  | [] => None
  | b :: bs' => if fits sz b then Some b.1 else first_fit_size sz bs'
  end.

(** The test [block->size >= size + THRESHOLD]. *)
Definition splits (sz : Z) (have : Z) : bool :=
  wrap (sz + THRESHOLD c) <=? have.

(** A request [my_malloc] serves without losing track of bytes: a block
    that is split leaves room for the new header, a block handed out whole
    has exactly the requested size, and a new block at the tail ends
    inside the buffer. *)
Definition fit_ok (sz : Z) (bs : list blk) : Prop :=
  match first_fit_size sz bs with
  | Some have => if splits sz have then sz + HDR c <= have else have = sz
  | None => span bs + HDR c + sz <= BUFF_SIZE c
  end.

(** How [my_malloc] changes the chain: a new block at the tail, the first
    fit handed out whole, or the first fit split.  [served sz bs P bs']:
    the chain [bs] becomes [bs'], in which the blocks [P] come before the
    block handed out. *)
Inductive served (sz : Z) : list blk -> list blk -> list blk -> Prop :=
| served_new bs :
    Forall (fun x => fits sz x = false) bs ->
    served sz bs bs (bs ++ [(sz, false)])
| served_whole pre b post :
    Forall (fun x => fits sz x = false) pre -> fits sz b = true ->
    splits sz b.1 = false ->
    served sz (pre ++ b :: post) pre (pre ++ (b.1, false) :: post)
| served_split pre b post :
    Forall (fun x => fits sz x = false) pre -> fits sz b = true ->
    splits sz b.1 = true ->
    served sz (pre ++ b :: post) pre
           (pre ++ (sz, false) :: (b.1 - sz - HDR c, true) :: post).

(** A pointer [my_free] may be given: NULL, or one whose header is not a
    free block of the chain. *)
Definition free_ok (p : option Z) (bs : list blk) : Prop :=
  match p with
  | None => True
  | Some a =>
      forall pre b post,
        bs = pre ++ b :: post -> a - HDR c = heap_base + span pre ->
        b.2 = false
  end.

(** The test of the in-place growth of [my_realloc]. *)
Definition grows_here (sz have : Z) (r : blk) : bool :=
  r.2 && (wrap (wrap (sz - have) - HDR c) <=? r.1).

(** A request [my_realloc] serves without losing track of bytes:
    [my_malloc] and [my_free] as above when it delegates to them;
    otherwise the pointer is an allocated block of the chain, a block that
    grows has a successor, every split leaves room for the new header, a
    block that grows by moving is a request [my_malloc] serves well, and a
    block that shrinks is split in place (moved, it would be copied with its
    old size into the smaller new block). *)
Definition resize_ok (p : option Z) (sz : Z) (bs : list blk) : Prop :=
  match p with
  | None => sz = 0 \/ fit_ok sz bs
  | Some a =>
      if sz =? 0 then free_ok p bs
      else
        exists pre have post,
          bs = pre ++ (have, false) :: post
          /\ a - HDR c = heap_base + span pre
          /\ (if have <? sz then
                match post with
                | [] => False
                | r :: _ =>
                    if grows_here sz have r then
                      splits sz (have + (HDR c + r.1)) = true ->
                      sz + HDR c <= have + (HDR c + r.1)
                    else fit_ok sz bs
                end
              else if sz <? have then
                splits sz have = true /\ sz + HDR c <= have
              else True)
  end.

(** ** Sequences of calls *)

Inductive request : Type :=
| Malloc (sz : Z)
| Free (p : option Z)
| Realloc (p : option Z) (sz : Z).

Definition serve (fuel : nat) (r : request) (s : heap) : result heap :=
  match r with
  | Malloc sz => '(s', _) <- my_malloc fuel s sz; Ok s'
  | Free p => '(s', _) <- my_free fuel s p; Ok s'
  | Realloc p sz => '(s', _) <- my_realloc fuel s p sz; Ok s'
  end.

Fixpoint serve_all (fuel : nat) (rs : list request) (s : heap)
  : result heap :=
  match rs with
  | [] => Ok s
  | r :: rs' => s' <- serve fuel r s; serve_all fuel rs' s'
  end.

(** A request the allocator serves well on the chain [bs]: sizes are
    [size_t] values and the operation meets its condition above. *)
Definition request_ok (r : request) (bs : list blk) : Prop :=
  match r with
  | Malloc sz => 0 <= sz < SIZE_MOD /\ (sz = 0 \/ fit_ok sz bs)
  | Free p => free_ok p bs
  | Realloc p sz => 0 <= sz < SIZE_MOD /\ resize_ok p sz bs
  end.

(** Every request of the sequence is served well in the state it meets,
    with fuel for the loops. *)
Fixpoint requests_ok (fuel : nat) (rs : list request) (s : heap) : Prop :=
  match rs with
  | [] => True
  | r :: rs' =>
      (forall bs, models s bs ->
                  request_ok r bs /\ (S (length bs) < fuel)%nat)
      /\ (forall s', serve fuel r s = Ok s' -> requests_ok fuel rs' s')
  end.

(** Whether the last block of the chain is free. *)
Fixpoint tail_free (bs : list blk) : bool :=
  match bs with
  | [] => false
  | b :: bs' =>
      match bs' with
      | [] => b.2
      | _ :: _ => tail_free bs'
      end
  end.

(** What an allocation that is freed at once costs: one header when the
    block was new at the tail and the block before it is not free. *)
Definition round_trip_cost (sz : Z) (bs : list blk) : Z :=
  match first_fit_size sz bs with
  | Some _ => 0
  | None => if tail_free bs then 0 else HDR c
  end.

End Allocator.

(** ** A concrete configuration

    [sizeof(metadata)] is 24 on an LP64 target ([size_t], [int], pointer);
    the threshold and the capacity are those of the design document's
    scenarios. *)
Definition sample : config := Config 24 8 100.

(** The chain of a state as a list of [(size, free)], read by following
    [next] from [heap_base] (at most 100 blocks, more than the examples
    below need); empty before the first allocation. *)
Fixpoint walk (fuel : nat) (m : gmap Z metadata) (p : option Z)
  : list (Z * bool) :=
  match fuel, p with
  | S fuel', Some a =>
      match m !! a with
      | Some h => (size h, free h) :: walk fuel' m (next h)
      | None => []
      end
  | _, _ => []
  end.

Definition blocks (s : heap) : list (Z * bool) :=
  if first s then [] else walk 100 (buffer s) (Some heap_base).

(** The state after [my_malloc(10)] on a fresh buffer. *)
Definition one_block : heap :=
  Heap {[ 0 := Metadata 10 false None ]} (Some 0) 66 false.

(** A free block of 50 bytes alone in the chain. *)
Definition one_free_block : heap :=
  Heap {[ 0 := Metadata 50 true None ]} (Some 0) 26 false.

(** [p1 = my_malloc(40); p2 = my_malloc(4); my_free(p2);
    my_realloc(p1, 8)]: the chain is allocated 8, free 8, free 4. *)
Definition shrunk_requests : list request :=
  [ Malloc 40; Malloc 4; Free (Some 88); Realloc (Some 24) 8 ].

Definition shrunk : heap :=
  Heap (<[ 0 := Metadata 8 false (Some 32) ]>
          (<[ 32 := Metadata 8 true (Some 64) ]>
             {[ 64 := Metadata 4 true None ]}))
       (Some 64) 20 false.

(** [p = my_malloc(10); my_free(p); my_free(p)]. *)
Definition double_free_requests : list request :=
  [ Malloc 10; Free (Some 24); Free (Some 24) ].

(** [p1 = my_malloc(10); my_malloc(10); my_free(p1); my_malloc(9)]. *)
Definition loose_fit_requests : list request :=
  [ Malloc 10; Malloc 10; Free (Some 24); Malloc 9 ].

(** [p1 = my_malloc(10); p2 = my_malloc(5); my_malloc(10); my_free(p2)]:
    [my_realloc(p1, 5)] then finds the block of [p1] too small to split
    and moves it into the block [p2] had. *)
Definition shrink_move_requests : list request :=
  [ Malloc 10; Malloc 5; Malloc 10; Free (Some 58) ].



(** [shrunk] after the sweep has fused its two free blocks. *)
Definition swept : heap :=
  Heap (<[ 0 := Metadata 8 false (Some 32) ]>
          (<[ 32 := Metadata 36 true None ]>
             {[ 64 := Metadata 4 true None ]}))
       (Some 32) 44 false.

(** [one_block] after its block is freed, and after it is freed again. *)
Definition freed_once : heap :=
  Heap {[ 0 := Metadata 10 true None ]} (Some 0) 76 false.

Definition freed_twice : heap :=
  Heap {[ 0 := Metadata 10 true None ]} (Some 0) 86 false.

(** The state after [loose_fit_requests]. *)
Definition loose_fit : heap :=
  Heap (<[ 0 := Metadata 10 false (Some 34) ]>
          {[ 34 := Metadata 10 false None ]})
       (Some 34) 33 false.

(** The states [shrunk_requests] goes through. *)
Definition one_of_40 : heap :=
  Heap {[ 0 := Metadata 40 false None ]} (Some 0) 36 false.

Definition two_allocated : heap :=
  Heap (<[ 0 := Metadata 40 false (Some 64) ]>
          {[ 64 := Metadata 4 false None ]})
       (Some 64) 8 false.

Definition second_freed : heap :=
  Heap (<[ 0 := Metadata 40 false (Some 64) ]>
          {[ 64 := Metadata 4 true None ]})
       (Some 64) 12 false.

(** A request that is not a [my_realloc]. *)
Definition plain (r : request) : Prop :=
  match r with
  | Realloc _ _ => False
  | _ => True
  end.

(** [p1 = my_malloc(8); my_malloc(8); p3 = my_malloc(4); my_free(p1);
    my_free(p3)]: an allocated block between two free ones. *)
Definition sandwich_requests : list request :=
  [ Malloc 8; Malloc 8; Malloc 4; Free (Some 24); Free (Some 88) ].

Definition sandwich : heap :=
  Heap (<[ 0 := Metadata 8 true (Some 32) ]>
          (<[ 32 := Metadata 8 false (Some 64) ]>
             {[ 64 := Metadata 4 true None ]}))
       (Some 64) 20 false.

(** [my_malloc(4); my_malloc(4)]. *)
Definition two_of_4 : heap :=
  Heap (<[ 0 := Metadata 4 false (Some 28) ]>
          {[ 28 := Metadata 4 false None ]})
       (Some 28) 44 false.

Section Properties.

Variable c : config.

(** ** Basic facts *)

Hypothesis HDR_pos : 0 < HDR c.

Lemma wrap_small x : 0 <= x < SIZE_MOD -> wrap x = x.
Proof. intros Hx. unfold wrap. apply Z.mod_small. exact Hx. Qed.

Lemma wrap_range x : 0 <= wrap x < SIZE_MOD.
Proof. unfold wrap. apply Z.mod_pos_bound. reflexivity. Qed.

Lemma load_Some m a h : m !! a = Some h -> load m a = Ok h.
Proof. intros Hm. unfold load. rewrite Hm. reflexivity. Qed.

Lemma store_lookup f a (m : gmap Z metadata) h :
  m !! a = Some h -> store f a m !! a = Some (f h).
Proof. intros Hm. unfold store. rewrite Hm. apply lookup_insert_eq. Qed.

Lemma store_lookup_ne f a x (m : gmap Z metadata) :
  a <> x -> store f a m !! x = m !! x.
Proof. intros Hne. unfold store. apply lookup_insert_ne. exact Hne. Qed.

Lemma span_nonneg m a bs e : seg c m a bs e -> 0 <= span c bs.
Proof.
  revert a. induction bs as [|b bs IH]; intros a Hs; simpl in *.
  - lia.
  - destruct Hs as (_ & Hb & Hs). specialize (IH _ Hs). lia.
Qed.

Lemma span_app l1 l2 : span c (l1 ++ l2) = span c l1 + span c l2.
Proof. induction l1 as [|b l1 IH]; simpl; lia. Qed.

(** A segment only depends on the cells inside its extent. *)
Lemma seg_ext (m m' : gmap Z metadata) a bs e :
  (forall x, a <= x < a + span c bs -> m' !! x = m !! x) ->
  seg c m a bs e -> seg c m' a bs e.
Proof.
  revert a. induction bs as [|b bs IH]; intros a Hx Hs; simpl in *.
  - exact I.
  - destruct Hs as (Ha & Hb & Hs).
    pose proof (span_nonneg _ _ _ _ Hs) as Hn.
    split; [|split].
    + rewrite Hx by lia. exact Ha.
    + exact Hb.
    + apply IH; [|exact Hs]. intros x Hr. apply Hx. lia.
Qed.

Lemma seg_app m a l1 l2 e :
  seg c m a (l1 ++ l2) e <->
  seg c m a l1 (link (a + span c l1) l2 e) /\ seg c m (a + span c l1) l2 e.
Proof.
  revert a. induction l1 as [|b l1 IH]; intros a; simpl.
  - rewrite Z.add_0_r. tauto.
  - rewrite IH.
    replace (a + HDR c + b.1 + span c l1) with (a + (HDR c + b.1 + span c l1)) by lia.
    assert (Hl : link (a + HDR c + b.1) (l1 ++ l2) e
                 = link (a + HDR c + b.1) l1
                     (link (a + (HDR c + b.1 + span c l1)) l2 e)).
    { destruct l1 as [|b0 l1]; simpl; [|reflexivity].
      destruct l2; simpl; [reflexivity|]. f_equal. lia. }
    rewrite Hl. tauto.
Qed.

(** Every header of a segment lies inside its extent. *)
Lemma addrs_range m a bs e x :
  seg c m a bs e -> x ∈ addrs c a bs -> a <= x < a + span c bs.
Proof.
  revert a. induction bs as [|b bs IH]; intros a Hs Hin; simpl in *.
  - inversion Hin.
  - destruct Hs as (_ & Hb & Hs).
    pose proof (span_nonneg _ _ _ _ Hs) as Hn.
    apply elem_of_cons in Hin as [-> | Hin]; [lia|].
    specialize (IH _ Hs Hin). lia.
Qed.

(** ** The loops, on a well-formed chain *)

Lemma search_loop_spec m a bs sz fuel :
  seg c m a bs None -> (length bs <= fuel)%nat ->
  search_loop fuel m sz (link a bs None) = Ok (find_fit c a sz bs).
Proof.
  revert a fuel. induction bs as [|b bs IH]; intros a fuel Hs Hf.
  - destruct fuel; reflexivity.
  - destruct Hs as (Ha & Hb & Hs). simpl in Hf.
    destruct fuel as [|fuel]; [lia|].
    cbn [link search_loop find_fit].
    rewrite (load_Some _ _ _ Ha). cbn [bind size free next].
    destruct (b.2 && (sz <=? b.1)); [reflexivity|].
    apply IH; [exact Hs | lia].
Qed.

Lemma verify_loop_spec m a bs x prev fuel :
  seg c m a bs None -> (length bs <= fuel)%nat ->
  verify_loop fuel m x (link a bs None) prev = Ok (find_addr c a x bs prev).
Proof.
  revert a fuel prev. induction bs as [|b bs IH]; intros a fuel prev Hs Hf.
  - destruct fuel; reflexivity.
  - destruct Hs as (Ha & Hb & Hs). simpl in Hf.
    destruct fuel as [|fuel]; [lia|].
    cbn [link verify_loop find_addr].
    destruct (x =? a); [reflexivity|].
    rewrite (load_Some _ _ _ Ha). cbn [bind next].
    apply IH; [exact Hs | lia].
Qed.

Lemma find_fit_app a sz pre b post :
  (forall x, x ∈ pre -> ~ (x.2 = true /\ sz <= x.1)) ->
  b.2 = true -> sz <= b.1 ->
  find_fit c a sz (pre ++ b :: post) = Some (a + span c pre).
Proof.
  revert a. induction pre as [|p pre IH]; intros a Hpre Hb Hsz; simpl.
  - rewrite Hb. replace (sz <=? b.1) with true by (symmetry; apply Z.leb_le; lia).
    simpl. f_equal. lia.
  - destruct (p.2 && (sz <=? p.1)) eqn:E.
    + exfalso. apply andb_true_iff in E as [E1 E2]. apply Z.leb_le in E2.
      apply (Hpre p); [left | split; assumption].
    + rewrite IH; [f_equal; lia | | exact Hb | exact Hsz].
      intros x Hx. apply Hpre. right. exact Hx.
Qed.

Lemma seg_lookup m a pre b post e :
  seg c m a (pre ++ b :: post) e ->
  m !! (a + span c pre)
  = Some (Metadata b.1 b.2 (link (a + span c pre + HDR c + b.1) post e)).
Proof.
  intros Hs. apply seg_app in Hs as [_ Hs]. destruct Hs as (Ha & _ & _).
  exact Ha.
Qed.

(** ** [split] *)

Lemma wrap_sub_wrap x y : wrap (x - wrap y) = wrap (x - y).
Proof. unfold wrap. apply Zminus_mod_idemp_r. Qed.

Lemma wrap_add_wrap x y : wrap (x + wrap y) = wrap (x + y).
Proof. unfold wrap. apply Zplus_mod_idemp_r. Qed.

Lemma wrap_wrap_add x y : wrap (wrap x + y) = wrap (x + y).
Proof. unfold wrap. apply Zplus_mod_idemp_l. Qed.

Lemma wrap_wrap_sub x y : wrap (wrap x - y) = wrap (x - y).
Proof. unfold wrap. apply Zminus_mod_idemp_l. Qed.

(** ** [split], exactly *)

Lemma lookup_store f a (m : gmap Z metadata) x :
  store f a m !! x
  = if decide (a = x) then Some (f (default zero_metadata (m !! a)))
    else m !! x.
Proof. unfold store. apply lookup_insert. Qed.

Ltac cells :=
  repeat first
    [ rewrite lookup_store
    | rewrite lookup_insert
    | rewrite decide_True by (first [reflexivity | assumption | lia])
    | rewrite decide_False by (first [assumption | congruence | lia]) ].

Ltac fields :=
  cbn [bind deref default from_option id set_next set_size set_free
       size free next buffer last freespace first
       with_buffer with_last with_freespace fst snd].

Ltac crank :=
  repeat first [ progress fields | progress unfold load | progress cells ].

(** The exact state [split] leaves, when the new header does not land on
    the header being split. *)
Lemma split_buffer s ptr sz h :
  buffer s !! ptr = Some h ->
  ptr + wrap (HDR c + sz) <> ptr ->
  split c s ptr sz
  = Ok (Heap (<[ptr := Metadata sz (free h) (Some (ptr + wrap (HDR c + sz)))]>
               (<[ptr + wrap (HDR c + sz) :=
                    Metadata (wrap (size h - sz - HDR c)) true (next h)]>
                  (buffer s)))
             (match next h with
              | None => Some (ptr + wrap (HDR c + sz))
              | Some _ => last s
              end)
             (freespace s) (first s)).
Proof.
  intros Hp Hne. unfold split.
  set (chunk := ptr + wrap (HDR c + sz)) in *.
  assert (Hne' : ptr <> chunk) by (intros E; apply Hne; symmetry; exact E).
  rewrite (load_Some _ _ _ Hp). fields.
  unfold load. cells. rewrite Hp. fields. cells. fields.
  rewrite wrap_sub_wrap.
  replace (size h - (sz + HDR c)) with (size h - sz - HDR c) by lia.
  assert (Hm : store (set_size sz) ptr
          (store (set_size (wrap (size h - sz - HDR c))) chunk
             (store (set_free true) chunk
                (store (set_next (Some chunk)) ptr
                   (store (set_next (next h)) chunk (buffer s)))))
       = <[ptr := Metadata sz (free h) (Some chunk)]>
          (<[chunk := Metadata (wrap (size h - sz - HDR c)) true (next h)]>
             (buffer s))).
  { apply map_eq. intros x. cells.
    destruct (decide (ptr = x)) as [->|Hx].
    - cells. rewrite Hp. reflexivity.
    - destruct (decide (chunk = x)) as [->|Hx']; cells; reflexivity. }
  unfold with_buffer. rewrite Hm. destruct (next h); reflexivity.
Qed.


(** ** First fit *)

Lemma seg_sizes m a bs e :
  seg c m a bs e -> Forall (fun b : blk => 0 <= b.1 < SIZE_MOD) bs.
Proof.
  revert a. induction bs as [|b bs IH]; intros a Hs; [constructor|].
  destruct Hs as (_ & Hb & Hs). constructor; [exact Hb | eauto].
Qed.

Lemma span_sizes bs :
  Forall (fun b : blk => 0 <= b.1 < SIZE_MOD) bs -> 0 <= span c bs.
Proof. induction 1; simpl; lia. Qed.

Lemma first_fit_lowest sz pre b post l1 x l2 :
  Forall (fun b : blk => 0 <= b.1 < SIZE_MOD) l1 ->
  pre ++ b :: post = l1 ++ x :: l2 ->
  (forall y, y ∈ pre -> ~ (y.2 = true /\ sz <= y.1)) ->
  x.2 = true -> sz <= x.1 ->
  span c pre <= span c l1.
Proof.
  revert l1. induction pre as [|p pre IH]; intros l1 Hl1 Heq Hpre Hx1 Hx2.
  - simpl. apply span_sizes. exact Hl1.
  - destruct l1 as [|q l1]; simpl in Heq.
    + injection Heq as -> _. exfalso. apply (Hpre x); [left | tauto].
    + injection Heq as -> Heq. inversion Hl1; subst. simpl.
      assert (span c pre <= span c l1); [|lia].
      apply IH; try assumption. intros y Hy. apply Hpre. right. exact Hy.
Qed.

(** [split] cannot fault on a block of a chain. *)
Lemma chain_block_bounds s bs pre b post :
  chain c s bs -> bs = pre ++ b :: post ->
  0 <= span c pre /\ 0 <= b.1 /\ span c pre + HDR c + b.1 < SIZE_MOD.
Proof.
  intros (_ & Hs & _ & Hsp) ->.
  pose proof (seg_sizes _ _ _ _ Hs) as Hall.
  apply Forall_app in Hall as [Hpre Hpost].
  inversion Hpost as [|? ? Hb Hpost']; subst.
  pose proof (span_sizes _ Hpre). pose proof (span_sizes _ Hpost').
  rewrite span_app in Hsp. simpl in Hsp. lia.
Qed.

(** C8. On every call after the first with [size > 0], when some free
    block of the chain has at least [size] bytes, [my_malloc] returns the
    payload of the earliest such block in chain order, which is also the one
    at the lowest address. *)
Theorem first_fit s bs pre b post sz fuel :
  first s = false ->
  chain c s bs ->
  0 < sz ->
  bs = pre ++ b :: post ->
  b.2 = true -> sz <= b.1 ->
  (forall x, x ∈ pre -> ~ (x.2 = true /\ sz <= x.1)) ->
  (length bs <= fuel)%nat ->
  (exists s', my_malloc c fuel s sz
              = Ok (s', Some (heap_base + span c pre + HDR c)))
  /\ (forall l1 x l2, bs = l1 ++ x :: l2 -> x.2 = true -> sz <= x.1 ->
        heap_base + span c pre <= heap_base + span c l1).
Proof.
  intros Hfirst Hch Hsz Hbs Hb1 Hb2 Hpre Hfuel. split.
  - pose proof (chain_block_bounds _ _ _ _ _ Hch Hbs) as (Hp0 & Hb0 & Hfit).
    destruct Hch as (Hne & Hs & Hl & Hsp). subst bs.
    unfold my_malloc.
    replace (sz =? 0) with false by (symmetry; apply Z.eqb_neq; lia).
    rewrite Hfirst. cbn [negb]. unfold search_freespace.
    replace (Some heap_base) with (link heap_base (pre ++ b :: post) None)
      by (destruct pre; reflexivity).
    rewrite (search_loop_spec _ _ _ _ _ Hs Hfuel).
    rewrite (find_fit_app _ _ _ _ _ Hpre Hb1 Hb2). fields.
    pose proof (seg_lookup _ _ _ _ _ _ Hs) as Hcell.
    rewrite (load_Some _ _ _ Hcell). fields.
    destruct (wrap (sz + THRESHOLD c) <=? b.1).
    + assert (Hw : wrap (HDR c + sz) = HDR c + sz)
        by (apply wrap_small; unfold heap_base in *; lia).
      rewrite (split_buffer (with_freespace s _) _ _ _ Hcell)
        by (rewrite Hw; lia).
      crank. eexists. reflexivity.
    + fields. eexists. reflexivity.
  - intros l1 x l2 Heq Hx1 Hx2. subst bs.
    destruct Hch as (_ & Hs & _).
    pose proof (seg_sizes _ _ _ _ Hs) as Hall. rewrite Heq in Hall.
    apply Forall_app in Hall as [Hl1 _].
    pose proof (first_fit_lowest _ _ _ _ _ _ _ Hl1 Heq Hpre Hx1 Hx2). lia.
Qed.

(** ** [my_realloc] without a successor, and at the same size *)

(** At the size the block already has, neither branch runs. *)
Lemma realloc_same_size s p h fuel :
  buffer s !! (p - HDR c) = Some h ->
  size h <> 0 ->
  my_realloc c fuel s (Some p) (size h) = Ok (s, NoReturn).
Proof.
  intros Hb Hnz. unfold my_realloc.
  replace (size h =? 0) with false by (symmetry; apply Z.eqb_neq; exact Hnz).
  rewrite (load_Some _ _ _ Hb). fields.
  rewrite Z.ltb_irrefl. reflexivity.
Qed.

(** Growing a block whose [next] is NULL dereferences NULL. *)
Lemma realloc_tail_grow s p h sz fuel :
  buffer s !! (p - HDR c) = Some h ->
  next h = None -> 0 <= size h < sz ->
  my_realloc c fuel s (Some p) sz = NullDeref.
Proof.
  intros Hb Hn Hsz. unfold my_realloc.
  replace (sz =? 0) with false by (symmetry; apply Z.eqb_neq; lia).
  rewrite (load_Some _ _ _ Hb). fields.
  replace (size h <? sz) with true by (symmetry; apply Z.ltb_lt; lia).
  rewrite Hn. reflexivity.
Qed.

(** ** [fuse] *)

Lemma store_Some f a (m : gmap Z metadata) h :
  m !! a = Some h -> store f a m = <[a := f h]> m.
Proof. intros Hm. unfold store. rewrite Hm. reflexivity. Qed.

Lemma fuse_seg s a b rest fuel :
  seg c (buffer s) a (b :: rest) None ->
  span c (b :: rest) < SIZE_MOD ->
  (length (free_run rest) <= fuel)%nat ->
  fuse c fuel s a
  = Ok (Heap (<[a := Metadata (b.1 + span c (free_run rest)) b.2
                      (link (a + HDR c + b.1 + span c (free_run rest))
                            (after_run rest) None)]> (buffer s))
             (match after_run rest with [] => Some a | _ :: _ => last s end)
             (add_hdr c (length (free_run rest)) (freespace s)) (first s)).
Proof.
  revert s b fuel. induction rest as [|r rest IH]; intros s b fuel Hs Hsp Hf.
  - destruct Hs as (Ha & Hb & _). cbn [link] in Ha.
    destruct fuel; cbn [fuse]; rewrite (load_Some _ _ _ Ha); fields;
      cbn [free_run after_run span length add_hdr link];
      rewrite Z.add_0_r, insert_id by exact Ha; destruct s; reflexivity.
  - pose proof Hs as (Ha & Hb & Hr & Hrb & Hrest). cbn [link] in Ha.
    pose proof (span_nonneg _ _ _ _ Hrest) as Hn.
    cbn [span] in Hsp.
    assert (Hstart : forall f', fuse c f' s a =
       bind (load (buffer s) (a + HDR c + b.1)) (fun hn =>
         if free hn then match f' with O => OutOfFuel | S f'' =>
            let m1 := store (set_size (wrap (b.1 + wrap (size hn + HDR c)))) a (buffer s) in
            bind (load m1 a) (fun h1 => bind (deref (next h1)) (fun nx1 =>
             bind (load m1 nx1) (fun hn1 =>
               fuse c f'' (Heap (store (set_next (next hn1)) a m1) (last s)
                              (wrap (freespace s + HDR c)) (first s)) a))) end
         else Ok s)).
    { intros f'. destruct f'; cbn [fuse]; rewrite (load_Some _ _ _ Ha); reflexivity. }
    rewrite Hstart. rewrite (load_Some _ _ _ Hr). fields.
    cbn [free_run after_run].
    destruct (r.2) eqn:Er.
    + cbn [free_run] in Hf. rewrite Er in Hf.
      cbn [length] in Hf. destruct fuel as [|fuel]; [lia|].
      cbv zeta. crank. rewrite Ha. crank.
      rewrite Hr. crank.
      rewrite wrap_add_wrap, (wrap_small (b.1 + (r.1 + HDR c))) by lia.
      rewrite (store_Some _ _ _ _ Ha). fields.
      rewrite (store_Some _ a _ _ (lookup_insert_eq _ _ _)). fields.
      rewrite insert_insert_eq.
      set (b' := (b.1 + (HDR c + r.1), b.2) : blk).
      set (s2 := Heap _ _ _ _).
      assert (Hs2 : seg c (buffer s2) a (b' :: rest) None).
      { split; [|split].
        - unfold s2, b'. cbn [buffer fst snd]. rewrite lookup_insert_eq.
          fields.
          replace (b.1 + (r.1 + HDR c)) with (b.1 + (HDR c + r.1)) by lia.
          replace (a + HDR c + b.1 + HDR c + r.1)
            with (a + HDR c + (b.1 + (HDR c + r.1))) by lia.
          reflexivity.
        - unfold b'. cbn [fst]. lia.
        - unfold s2, b'. cbn [buffer fst].
          apply (seg_ext (buffer s)).
          + intros x Hx. apply lookup_insert_ne. lia.
          + replace (a + HDR c + (b.1 + (HDR c + r.1)))
              with (a + HDR c + b.1 + HDR c + r.1) by lia. exact Hrest. }
      rewrite (IH s2 b' fuel Hs2) by (unfold b'; cbn [span fst length] in *; lia).
      unfold s2, b'. cbn [buffer last freespace first fst snd span length add_hdr].
      rewrite insert_insert_eq.
      replace (b.1 + (HDR c + r.1) + span c (free_run rest))
        with (b.1 + (HDR c + r.1 + span c (free_run rest))) by lia.
      replace (a + HDR c + (b.1 + (HDR c + r.1)) + span c (free_run rest))
        with (a + HDR c + b.1 + (HDR c + r.1 + span c (free_run rest)))
        by lia.
      reflexivity.
    + cbn [span length add_hdr link]. rewrite !Z.add_0_r.
      rewrite insert_id by exact Ha. destruct s; reflexivity.
Qed.

(** ** Lists of blocks *)

Lemma free_run_after_run bs : free_run bs ++ after_run bs = bs.
Proof.
  induction bs as [|b bs IH]; [reflexivity|]. simpl.
  destruct (b.2); simpl; [rewrite IH|]; reflexivity.
Qed.

Lemma after_run_head bs :
  match after_run bs with [] => True | r :: _ => r.2 = false end.
Proof.
  induction bs as [|b bs IH]; [exact I|]. simpl.
  destruct (b.2) eqn:E; [exact IH | exact E].
Qed.

Lemma free_run_all_free bs : Forall (fun b : blk => b.2 = true) (free_run bs).
Proof.
  induction bs as [|b bs IH]; simpl; [constructor|].
  destruct (b.2) eqn:E; constructor; assumption.
Qed.

Lemma length_free_run bs : (length (free_run bs) <= length bs)%nat.
Proof.
  induction bs as [|b bs IH]; simpl; [lia|]. destruct (b.2); simpl; lia.
Qed.

Lemma length_after_run bs : (length (after_run bs) <= length bs)%nat.
Proof.
  induction bs as [|b bs IH]; simpl; [lia|]. destruct (b.2); simpl; lia.
Qed.

Lemma last_addr_app a l1 l2 :
  l2 <> [] -> last_addr c a (l1 ++ l2) = last_addr c (a + span c l1) l2.
Proof.
  intros Hl2. revert a. induction l1 as [|b l1 IH]; intros a.
  - simpl. f_equal. lia.
  - cbn [app span].
    replace (a + (HDR c + b.1 + span c l1))
      with (a + HDR c + b.1 + span c l1) by lia.
    rewrite <- IH. cbn [last_addr].
    destruct (l1 ++ l2) eqn:E; [|reflexivity].
    apply app_eq_nil in E as [_ E]. contradiction.
Qed.

Lemma last_addr_cons a b bs :
  bs <> [] -> last_addr c a (b :: bs) = last_addr c (a + HDR c + b.1) bs.
Proof. intros Hbs. destruct bs; [contradiction | reflexivity]. Qed.

Lemma last_addr_absorb a b f run after :
  after <> [] ->
  last_addr c a (b :: run ++ after)
  = last_addr c a ((b.1 + span c run, f) :: after).
Proof.
  intros Hne. rewrite !last_addr_cons.
  - rewrite last_addr_app by exact Hne. cbn [fst]. f_equal. lia.
  - exact Hne.
  - intros E. apply app_eq_nil in E as [_ E]. contradiction.
Qed.

Lemma chain_shape s bs : chain c s bs -> shape c s bs.
Proof.
  intros (Hne & Hs & Hl & Hsp). repeat split; try assumption.
  intros l Hl'. congruence.
Qed.

Lemma shape_chain s bs : shape c s bs -> is_Some (last s) -> chain c s bs.
Proof.
  intros (Hne & Hs & Hl & Hsp) [l Hl']. repeat split; try assumption.
  rewrite Hl'. f_equal. apply Hl. exact Hl'.
Qed.

Lemma add_hdr_add k1 k2 fs :
  add_hdr c k2 (add_hdr c k1 fs) = add_hdr c (k1 + k2) fs.
Proof. revert fs. induction k1 as [|k1 IH]; intros fs; simpl; auto. Qed.

Lemma add_hdr_exact k fs :
  0 <= fs -> fs + Z.of_nat k * HDR c < SIZE_MOD ->
  add_hdr c k fs = fs + Z.of_nat k * HDR c.
Proof.
  revert fs. induction k as [|k IH]; intros fs H0 Hlt.
  - simpl. lia.
  - cbn [add_hdr]. rewrite (wrap_small (fs + HDR c)) by lia.
    rewrite IH by lia. lia.
Qed.

(** [fuse] on a block of a chain: it absorbs the free blocks that follow. *)
Lemma fuse_shape s pre b rest fuel :
  shape c s (pre ++ b :: rest) ->
  (length (free_run rest) <= fuel)%nat ->
  exists s',
    fuse c fuel s (heap_base + span c pre) = Ok s'
    /\ shape c s' (pre ++ (b.1 + span c (free_run rest), b.2) :: after_run rest)
    /\ (is_Some (last s) -> is_Some (last s'))
    /\ freespace s' = add_hdr c (length (free_run rest)) (freespace s)
    /\ first s' = first s.
Proof.
  intros (Hne & Hs & Hl & Hsp) Hf.
  pose proof (seg_sizes _ _ _ _ Hs) as Hall.
  apply Forall_app in Hall as [Hpre _].
  pose proof (span_sizes _ Hpre) as Hpre0.
  apply seg_app in Hs as [Hs1 Hs2].
  rewrite span_app in Hsp.
  rewrite (fuse_seg _ _ _ _ _ Hs2) by (first [lia | exact Hf]).
  eexists. split; [reflexivity|].
  pose proof Hs2 as (Ha & Hb & Hrest).
  pose proof (span_nonneg _ _ _ _ Hrest) as Hrest0.
  assert (Hsplit : span c rest = span c (free_run rest) + span c (after_run rest))
    by (rewrite <- span_app, free_run_after_run; reflexivity).
  rewrite <- (free_run_after_run rest) in Hrest.
  apply seg_app in Hrest as [Hrun Hafter].
  pose proof (span_nonneg _ _ _ _ Hrun) as Hrun0.
  pose proof (span_nonneg _ _ _ _ Hafter) as Hafter0.
  cbn [span] in Hsp.
  split; [|split; [|split; reflexivity]].
  - repeat split.
    + intros E. apply app_eq_nil in E as [_ E]. discriminate.
    + fields. apply seg_app. split.
      * apply (seg_ext (buffer s)); [|exact Hs1].
        intros x Hx. apply lookup_insert_ne. lia.
      * split; [|split].
        -- cbn [fst snd]. rewrite lookup_insert_eq. do 2 f_equal.
           f_equal. lia.
        -- cbn [fst]. lia.
        -- cbn [fst]. apply (seg_ext (buffer s)).
           ++ intros x Hx. apply lookup_insert_ne. lia.
           ++ replace (heap_base + span c pre + HDR c
                       + (b.1 + span c (free_run rest)))
                with (heap_base + span c pre + HDR c + b.1
                      + span c (free_run rest)) by lia.
              exact Hafter.
    + fields. intros l Hl'.
      destruct (after_run rest) as [|r after] eqn:Ea.
      * injection Hl' as <-. rewrite last_addr_app by discriminate.
        reflexivity.
      * rewrite (Hl l Hl').
        rewrite !last_addr_app by discriminate.
        pose proof (free_run_after_run rest) as Hfr. rewrite Ea in Hfr.
        revert Hfr. generalize (free_run rest) as run. intros run <-.
        apply last_addr_absorb. discriminate.
    + rewrite span_app. cbn [span fst]. lia.
  - fields. intros Hsome. destruct (after_run rest); [eexists; reflexivity|].
    exact Hsome.
Qed.

(** ** The defragmentation sweep *)

Lemma blk_eta (b : blk) : (b.1, b.2) = b.
Proof. destruct b; reflexivity. Qed.

Lemma coalesce_from_free b rest :
  b.2 = true ->
  coalesce_from c b rest
  = (b.1 + span c (free_run rest), true) :: coalesce c (after_run rest).
Proof.
  revert b. induction rest as [|r rest IH]; intros b Hb.
  - simpl. rewrite Z.add_0_r, <- Hb, blk_eta. reflexivity.
  - cbn [coalesce_from free_run after_run]. rewrite Hb. cbn [andb].
    destruct (r.2) eqn:Er.
    + rewrite IH by reflexivity. cbn [fst span]. do 2 f_equal. lia.
    + cbn [span coalesce]. rewrite Z.add_0_r, <- Hb, blk_eta. reflexivity.
Qed.

Lemma coalesce_from_keep b r rest :
  b.2 && r.2 = false ->
  coalesce_from c b (r :: rest) = b :: coalesce_from c r rest.
Proof. intros H. cbn [coalesce_from]. rewrite H. reflexivity. Qed.

Lemma coalesce_from_nonempty b rest : coalesce_from c b rest <> [].
Proof.
  revert b. induction rest as [|r rest IH]; intros b; simpl; [discriminate|].
  destruct (b.2 && r.2); [apply IH | discriminate].
Qed.

Lemma link_coalesce a bs e : link a (coalesce c bs) e = link a bs e.
Proof.
  destruct bs as [|b rest]; [reflexivity|]. cbn [coalesce link].
  pose proof (coalesce_from_nonempty b rest).
  destruct (coalesce_from c b rest); [contradiction | reflexivity].
Qed.

Lemma length_coalesce_from b rest :
  (length (coalesce_from c b rest) <= S (length rest))%nat.
Proof.
  revert b. induction rest as [|r rest IH]; intros b; simpl; [lia|].
  destruct (b.2 && r.2); simpl.
  - specialize (IH (b.1 + (HDR c + r.1), b.2)). lia.
  - specialize (IH r). lia.
Qed.

Lemma length_coalesce bs : (length (coalesce c bs) <= length bs)%nat.
Proof.
  destruct bs as [|b rest]; [simpl; lia|]. apply length_coalesce_from.
Qed.

Lemma defrag_seg n :
  forall bs s a ff fuel,
    (length bs <= n)%nat ->
    seg c (buffer s) a bs None ->
    span c bs < SIZE_MOD ->
    (length bs <= ff)%nat -> (length bs <= fuel)%nat ->
    exists s',
      defrag_loop c ff fuel s (link a bs None) = Ok s'
      /\ seg c (buffer s') a (coalesce c bs) None
      /\ (forall x, x < a -> buffer s' !! x = buffer s !! x)
      /\ ((forall l, last s = Some l -> l = last_addr c a bs) ->
          (forall l, last s' = Some l -> l = last_addr c a (coalesce c bs)))
      /\ (is_Some (last s) -> is_Some (last s'))
      /\ freespace s'
         = add_hdr c (length bs - length (coalesce c bs)) (freespace s)
      /\ first s' = first s.
Proof.
  induction n as [|n IH]; intros bs s a ff fuel Hn Hs Hsp Hff Hfuel.
  { destruct bs; [|simpl in Hn; lia].
    exists s. destruct fuel; simpl; repeat split; auto. }
  destruct bs as [|b rest].
  { exists s. destruct fuel; simpl; repeat split; auto. }
  cbn [length] in Hn, Hff, Hfuel.
  destruct fuel as [|fuel]; [lia|].
  pose proof Hs as (Ha & Hb & Hrest).
  pose proof (span_nonneg _ _ _ _ Hrest) as Hrest0.
  cbn [span] in Hsp.
  cbn [link defrag_loop]. rewrite (load_Some _ _ _ Ha). fields.
  destruct rest as [|r rest2].
  { (* the last block *)
    cbn [link]. fields. rewrite (load_Some _ _ _ Ha). fields.
    exists s. split; [destruct fuel; reflexivity|].
    split; [exact Hs|]. repeat split; auto. }
  cbn [link]. cbn [length] in Hn, Hff, Hfuel. cbn [span] in Hsp, Hrest0.
  destruct (b.2 && r.2) eqn:Eboth.
  - (* both free: fuse *)
    apply andb_true_iff in Eboth as [Eb Er]. rewrite Eb.
    pose proof Hrest as (Hr & _ & _). rewrite (load_Some _ _ _ Hr). fields.
    rewrite Er.
    assert (Hrun : (length (free_run (r :: rest2)) <= ff)%nat).
    { pose proof (length_free_run (r :: rest2)). cbn [length] in *. lia. }
    rewrite (fuse_seg _ _ _ _ _ Hs) by (first [exact Hsp | exact Hrun]).
    fields. unfold load. rewrite lookup_insert_eq. fields.
    set (run := free_run (r :: rest2)) in *.
    set (after := after_run (r :: rest2)) in *.
    set (s1 := Heap _ _ _ _).
    assert (Heq : run ++ after = r :: rest2) by apply free_run_after_run.
    assert (Hspl : span c (r :: rest2) = span c run + span c after)
      by (rewrite <- span_app, Heq; reflexivity).
    rewrite <- Heq in Hrest. apply seg_app in Hrest as [Hsrun Hsafter].
    pose proof (span_nonneg _ _ _ _ Hsrun) as Hrun0.
    pose proof (span_nonneg _ _ _ _ Hsafter) as Hafter0.
    cbn [span] in Hspl.
    assert (Hla : (length after <= length rest2)%nat).
    { pose proof (length_after_run rest2) as H. unfold after.
      cbn [after_run]. rewrite Er. exact H. }
    assert (Hlen : (length run + length after = S (length rest2))%nat).
    { rewrite <- length_app, Heq. reflexivity. }
    destruct (IH after s1 (a + HDR c + b.1 + span c run) ff fuel)
      as (s' & Hrun' & Hseg' & Hframe & Hlast & Hsome & Hfs & Hfirst).
    + lia.
    + unfold s1. fields. apply (seg_ext (buffer s)); [|exact Hsafter].
      intros x Hx. apply lookup_insert_ne. lia.
    + lia.
    + lia.
    + lia.
    + exists s'. split; [exact Hrun'|].
      change (coalesce c (b :: r :: rest2))
        with (coalesce_from c b (r :: rest2)).
      rewrite (coalesce_from_free _ _ Eb). fold run after.
      split; [|split; [|split; [|split; [|split]]]].
      * split; [|split].
        -- rewrite Hframe by lia. unfold s1. fields.
           rewrite lookup_insert_eq. cbn [fst snd]. rewrite Eb.
           rewrite link_coalesce. do 2 f_equal. f_equal. lia.
        -- cbn [fst]. lia.
        -- cbn [fst].
           replace (a + HDR c + (b.1 + span c run))
             with (a + HDR c + b.1 + span c run) by lia.
           exact Hseg'.
      * intros x Hx. rewrite Hframe by lia. unfold s1. fields.
        apply lookup_insert_ne. lia.
      * intros Hl l Hl'. subst s1. clearbody run after.
        destruct after as [|r' after'].
        -- assert (s' = Heap (<[a := Metadata (b.1 + span c run) b.2 None]>
                               (buffer s))
                            (Some a) (add_hdr c (length run) (freespace s))
                            (first s)) as ->.
           { destruct fuel; cbn [link defrag_loop] in Hrun'; congruence. }
           cbn [last] in Hl'. injection Hl' as <-. reflexivity.
        -- rewrite last_addr_cons by apply coalesce_from_nonempty.
           cbn [fst].
           replace (a + HDR c + (b.1 + span c run))
             with (a + HDR c + b.1 + span c run) by lia.
           apply Hlast; [|exact Hl'].
           cbn [last]. intros l0 Hl0. rewrite (Hl l0 Hl0).
           rewrite <- Heq.
           rewrite (last_addr_absorb _ _ true) by discriminate.
           rewrite last_addr_cons by discriminate. cbn [fst].
           f_equal. lia.
      * intros Hsm. apply Hsome. unfold s1. cbn [last].
        destruct after; [eexists; reflexivity | exact Hsm].
      * rewrite Hfs. unfold s1. cbn [freespace]. rewrite add_hdr_add.
        f_equal. pose proof (length_coalesce after). cbn [length]. lia.
      * rewrite Hfirst. reflexivity.
  - (* not both free: move on *)
    assert (Hstep :
      bind (if b.2
            then bind (load (buffer s) (a + HDR c + b.1))
                   (fun hn => if free hn then fuse c ff s a else Ok s)
            else Ok s)
           (fun s1 => bind (load (buffer s1) a)
              (fun h1 => defrag_loop c ff fuel s1 (next h1)))
      = defrag_loop c ff fuel s (Some (a + HDR c + b.1))).
    { pose proof Hrest as (Hr & _ & _).
      destruct (b.2); cbn [andb] in Eboth.
      - rewrite (load_Some _ _ _ Hr). fields. rewrite Eboth. fields.
        rewrite (load_Some _ _ _ Ha). reflexivity.
      - fields. rewrite (load_Some _ _ _ Ha). reflexivity. }
    rewrite Hstep.
    destruct (IH (r :: rest2) s (a + HDR c + b.1) ff fuel)
      as (s' & Hrun' & Hseg' & Hframe & Hlast & Hsome & Hfs & Hfirst).
    + cbn [length]. lia.
    + exact Hrest.
    + cbn [span]. lia.
    + cbn [length]. lia.
    + cbn [length]. lia.
    + exists s'. split; [exact Hrun'|].
      cbn [coalesce]. rewrite (coalesce_from_keep _ _ _ Eboth).
      cbn [coalesce] in Hseg', Hlast, Hfs.
      split; [|split; [|split; [|split; [|split]]]].
      * split; [|split].
        -- rewrite Hframe by lia. rewrite Ha. do 2 f_equal.
           pose proof (coalesce_from_nonempty r rest2).
           destruct (coalesce_from c r rest2); [contradiction|reflexivity].
        -- exact Hb.
        -- exact Hseg'.
      * intros x Hx. apply Hframe. lia.
      * intros Hl l Hl'.
        rewrite last_addr_cons by apply coalesce_from_nonempty.
        apply Hlast; [|exact Hl'].
        intros l0 Hl0. rewrite (Hl l0 Hl0). reflexivity.
      * exact Hsome.
      * rewrite Hfs. f_equal.
      * exact Hfirst.
Qed.

Lemma coalesce_from_naf rest :
  forall b,
    no_adjacent_free (coalesce_from c b rest)
    /\ (exists t, coalesce_from c b rest = (t.1, b.2) :: t.2).
Proof.
  induction rest as [|r rest IH]; intros b.
  - split; [exact I|]. exists (b.1, []). cbn. rewrite blk_eta. reflexivity.
  - cbn [coalesce_from]. destruct (b.2 && r.2) eqn:E.
    + destruct (IH (b.1 + (HDR c + r.1), b.2)) as [Hn Hh]. split; assumption.
    + destruct (IH r) as [Hn [t Ht]]. split.
      * rewrite Ht in *. split; [|exact Hn]. cbn [snd].
        intros [Hb Hr]. rewrite Hb, Hr in E. discriminate.
      * exists (b.1, coalesce_from c r rest). cbn. rewrite blk_eta.
        reflexivity.
Qed.

Lemma coalesce_naf bs : no_adjacent_free (coalesce c bs).
Proof.
  destruct bs as [|b rest]; [exact I|]. apply coalesce_from_naf.
Qed.

Lemma coalesce_from_id rest :
  forall b, no_adjacent_free (b :: rest) -> coalesce_from c b rest = b :: rest.
Proof.
  induction rest as [|r rest IH]; intros b Hn; [reflexivity|].
  destruct Hn as [Hbr Hn]. cbn [coalesce_from].
  destruct (b.2 && r.2) eqn:E.
  - apply andb_true_iff in E. contradiction.
  - rewrite IH by exact Hn. reflexivity.
Qed.

Lemma coalesce_id bs : no_adjacent_free bs -> coalesce c bs = bs.
Proof.
  destruct bs as [|b rest]; [reflexivity|]. apply coalesce_from_id.
Qed.

Lemma span_coalesce_from rest :
  forall b, span c (coalesce_from c b rest) = span c (b :: rest).
Proof.
  induction rest as [|r rest IH]; intros b; [reflexivity|].
  cbn [coalesce_from]. destruct (b.2 && r.2).
  - rewrite IH. cbn [span fst]. lia.
  - cbn [span]. rewrite IH. reflexivity.
Qed.

Lemma span_coalesce bs : span c (coalesce c bs) = span c bs.
Proof. destruct bs; [reflexivity|]. apply span_coalesce_from. Qed.

Lemma alloc_sum_coalesce_from rest :
  forall b, alloc_sum (coalesce_from c b rest) = alloc_sum (b :: rest).
Proof.
  induction rest as [|r rest IH]; intros b; [reflexivity|].
  cbn [coalesce_from]. destruct (b.2 && r.2) eqn:E.
  - apply andb_true_iff in E as [Eb Er]. rewrite IH.
    cbn [alloc_sum snd]. rewrite Eb, Er. lia.
  - cbn [alloc_sum]. rewrite IH. reflexivity.
Qed.

Lemma alloc_sum_coalesce bs : alloc_sum (coalesce c bs) = alloc_sum bs.
Proof. destruct bs; [reflexivity|]. apply alloc_sum_coalesce_from. Qed.

Lemma alloc_sum_app l1 l2 : alloc_sum (l1 ++ l2) = alloc_sum l1 + alloc_sum l2.
Proof. induction l1 as [|b l1 IH]; simpl; lia. Qed.

Lemma free_sum_app l1 l2 : free_sum (l1 ++ l2) = free_sum l1 + free_sum l2.
Proof. induction l1 as [|b l1 IH]; simpl; lia. Qed.

Lemma span_sums bs :
  span c bs = HDR c * Z.of_nat (length bs) + alloc_sum bs + free_sum bs.
Proof.
  induction bs as [|b bs IH]; [simpl; lia|].
  cbn [span alloc_sum free_sum length]. rewrite IH.
  destruct (b.2); lia.
Qed.

Lemma alloc_sum_free_run bs : alloc_sum (free_run bs) = 0.
Proof.
  induction bs as [|b bs IH]; [reflexivity|]. simpl.
  destruct (b.2) eqn:E; [|reflexivity]. simpl. rewrite E, IH. reflexivity.
Qed.

(** The whole sweep, on a chain. *)
Lemma deframent_shape s bs fuel :
  shape c s bs -> (length bs <= fuel)%nat ->
  exists s',
    deframent_my_heap c fuel s = Ok s'
    /\ shape c s' (coalesce c bs)
    /\ (is_Some (last s) -> is_Some (last s'))
    /\ freespace s'
       = add_hdr c (length bs - length (coalesce c bs)) (freespace s)
    /\ first s' = first s.
Proof.
  intros (Hne & Hs & Hl & Hsp) Hfuel.
  destruct (defrag_seg (length bs) bs s heap_base fuel fuel)
    as (s' & Hrun & Hseg & _ & Hlast & Hsome & Hfs & Hfirst);
    try assumption; try lia.
  exists s'. split.
  - unfold deframent_my_heap. destruct bs; [contradiction | exact Hrun].
  - repeat split; try assumption.
    + destruct bs as [|b rest]; [contradiction|]. apply coalesce_from_nonempty.
    + apply Hlast. exact Hl.
    + rewrite span_coalesce. exact Hsp.
Qed.

(** ** [my_free] *)

Lemma fused_into_trans s bs s1 bs1 s2 bs2 :
  fused_into c s bs s1 bs1 -> fused_into c s1 bs1 s2 bs2 ->
  fused_into c s bs s2 bs2.
Proof.
  intros (H1 & H2 & H3 & H4 & H5) (G1 & G2 & G3 & G4 & G5).
  repeat split; try apply G1; auto; try lia.
  - rewrite G3, H3, add_hdr_add. f_equal. lia.
  - congruence.
Qed.

Lemma fused_into_refl s bs : shape c s bs -> fused_into c s bs s bs.
Proof.
  intros H. repeat split; try apply H; auto.
  rewrite Nat.sub_diag. reflexivity.
Qed.

Lemma length_absorb b rest :
  length (absorb c b rest) = (S (length rest) - length (free_run rest))%nat.
Proof.
  unfold absorb. cbn [length].
  pose proof (f_equal (@length blk) (free_run_after_run rest)) as H.
  rewrite length_app in H. lia.
Qed.

Lemma fuse_fused s pre b rest fuel :
  shape c s (pre ++ b :: rest) ->
  (length rest <= fuel)%nat ->
  exists s',
    fuse c fuel s (heap_base + span c pre) = Ok s'
    /\ fused_into c s (pre ++ b :: rest) s' (pre ++ absorb c b rest).
Proof.
  intros Hsh Hf. pose proof (length_free_run rest) as Hrun.
  destruct (fuse_shape s pre b rest fuel Hsh) as (s' & Hr & Hs' & Hl & Hfs & Hfi);
    [lia|].
  exists s'. split; [exact Hr|]. unfold fused_into.
  pose proof (length_absorb b rest) as Hla.
  rewrite !length_app. cbn [length] in *. rewrite Hla.
  repeat split; try apply Hs'; auto; try lia.
  rewrite Hfs. f_equal. lia.
Qed.

Lemma deframent_fused s bs fuel :
  shape c s bs -> (length bs <= fuel)%nat ->
  exists s',
    deframent_my_heap c fuel s = Ok s'
    /\ fused_into c s bs s' (coalesce c bs).
Proof.
  intros Hsh Hf.
  destruct (deframent_shape s bs fuel Hsh Hf) as (s' & Hr & Hs' & Hl & Hfs & Hfi).
  exists s'. split; [exact Hr|].
  pose proof (length_coalesce bs).
  repeat split; try apply Hs'; auto.
Qed.

Lemma find_addr_hit pre :
  forall a b post prev,
    Forall (fun b : blk => 0 <= b.1 < SIZE_MOD) pre ->
    find_addr c a (a + span c pre) (pre ++ b :: post) prev
    = (true, match pre with
             | [] => prev
             | _ :: _ => Some (last_addr c a pre)
             end).
Proof.
  induction pre as [|p pre IH]; intros a b post prev Hall.
  - cbn [span app find_addr]. rewrite Z.add_0_r, Z.eqb_refl. reflexivity.
  - inversion Hall as [|? ? Hp Hpre]; subst.
    pose proof (span_sizes _ Hpre) as H0.
    cbn [span app find_addr].
    replace (a + (HDR c + p.1 + span c pre) =? a) with false
      by (symmetry; apply Z.eqb_neq; lia).
    replace (a + (HDR c + p.1 + span c pre))
      with (a + HDR c + p.1 + span c pre) by lia.
    rewrite IH by exact Hpre.
    destruct pre; reflexivity.
Qed.

Lemma find_addr_true bs :
  forall a x prev pv,
    find_addr c a x bs prev = (true, pv) ->
    exists pre b post, bs = pre ++ b :: post /\ x = a + span c pre.
Proof.
  induction bs as [|b bs IH]; intros a x prev pv H.
  - discriminate.
  - cbn [find_addr] in H. destruct (x =? a) eqn:E.
    + apply Z.eqb_eq in E. exists [], b, bs. split; [reflexivity|].
      simpl. lia.
    + destruct (IH _ _ _ _ H) as (pre & b' & post & -> & ->).
      exists (b :: pre), b', post. split; [reflexivity|]. simpl. lia.
Qed.

Lemma last_addr_lower bs :
  forall a, Forall (fun b : blk => 0 <= b.1 < SIZE_MOD) bs ->
            a <= last_addr c a bs.
Proof.
  induction bs as [|b bs IH]; intros a Hall; [simpl; lia|].
  inversion Hall as [|? ? Hb Hbs]; subst.
  destruct bs as [|b' bs]; [simpl; lia|].
  rewrite last_addr_cons by discriminate.
  specialize (IH (a + HDR c + b.1) Hbs). lia.
Qed.

Lemma last_addr_snoc a pre p : last_addr c a (pre ++ [p]) = a + span c pre.
Proof. rewrite last_addr_app by discriminate. reflexivity. Qed.

Lemma merge_prev_snoc pre p l :
  merge_prev c (pre ++ [p]) l
  = pre ++ (if p.2 then absorb c p l else p :: l).
Proof.
  induction pre as [|q pre IH]; [reflexivity|].
  cbn [app merge_prev]. rewrite IH.
  destruct (pre ++ [p]) eqn:E; [|reflexivity].
  apply app_eq_nil in E as [_ E]. discriminate.
Qed.

Lemma snoc_cases (l : list blk) : l = [] \/ exists l' x, l = l' ++ [x].
Proof. induction l using rev_ind; [left; reflexivity | right; eauto]. Qed.

(** Setting the flag of a block keeps the chain. *)
Lemma mark_free_shape s pre b post v fs :
  shape c s (pre ++ b :: post) ->
  shape c (Heap (store (set_free v) (heap_base + span c pre) (buffer s))
                (last s) fs (first s))
        (pre ++ (b.1, v) :: post).
Proof.
  intros (Hne & Hs & Hl & Hsp).
  pose proof (seg_lookup _ _ _ _ _ _ Hs) as Hcell.
  pose proof (seg_sizes _ _ _ _ Hs) as Hall.
  apply Forall_app in Hall as [Hpre _].
  pose proof (span_sizes _ Hpre) as Hpre0.
  apply seg_app in Hs as [Hs1 (Ha & Hb & Hs2)].
  repeat split.
  - intros E. apply app_eq_nil in E as [_ E]. discriminate.
  - fields. apply seg_app. split; [|split; [|split]].
    + apply (seg_ext (buffer s)); [|exact Hs1].
      intros x Hx. apply store_lookup_ne. lia.
    + rewrite (store_lookup _ _ _ _ Ha). reflexivity.
    + exact Hb.
    + cbn [fst]. apply (seg_ext (buffer s)); [|exact Hs2].
      intros x Hx. apply store_lookup_ne. lia.
  - fields. intros l Hl'. rewrite (Hl l Hl').
    rewrite !last_addr_app by discriminate.
    destruct post; reflexivity.
  - rewrite span_app in *. exact Hsp.
Qed.

(** [my_free] of a block of the chain: the block is marked free and
    counted, fused with what follows and with a free predecessor, and the
    sweep runs. *)
Lemma my_free_valid s pre b post fuel :
  chain c s (pre ++ b :: post) ->
  (length (pre ++ b :: post) <= fuel)%nat ->
  exists s',
    my_free c fuel s (Some (heap_base + span c pre + HDR c))
    = Ok (s', Freed b.1)
    /\ fused_into c (with_freespace s (wrap (freespace s + b.1)))
         (pre ++ b :: post) s' (free_blocks c pre b post).
Proof.
  intros Hch Hfuel. pose proof (chain_shape _ _ Hch) as Hsh.
  destruct Hch as (Hne & Hs & Hl & Hsp).
  pose proof (seg_lookup _ _ _ _ _ _ Hs) as Hcell.
  pose proof (seg_sizes _ _ _ _ Hs) as Hall.
  pose proof Hall as Hall'. apply Forall_app in Hall' as [Hpre _].
  pose proof (span_sizes _ Hpre) as Hpre0.
  unfold my_free.
  replace (heap_base + span c pre + HDR c - HDR c)
    with (heap_base + span c pre) by lia.
  replace (heap_base <=? heap_base + span c pre) with true
    by (symmetry; apply Z.leb_le; lia).
  replace (le_last (heap_base + span c pre) (last s)) with true.
  2:{ symmetry. rewrite Hl. apply Z.leb_le.
      rewrite last_addr_app by discriminate.
      apply last_addr_lower. apply Forall_app in Hall as [_ H]. exact H. }
  cbn [andb]. unfold verifyBlockAddress.
  replace (Some heap_base) with (link heap_base (pre ++ b :: post) None)
    by (destruct pre; reflexivity).
  rewrite (verify_loop_spec _ _ _ _ _ _ Hs Hfuel).
  rewrite (find_addr_hit _ _ _ _ _ Hpre). fields.
  rewrite (load_Some _ _ _ Hcell). fields.
  unfold load at 1. rewrite (store_lookup _ _ _ _ Hcell). fields.
  set (s1 := Heap _ _ _ _).
  assert (Hsh1 : shape c s1 (pre ++ (b.1, true) :: post))
    by (apply mark_free_shape; exact Hsh).
  assert (Hlen1 : length (pre ++ (b.1, true) :: post)
                  = length (pre ++ b :: post))
    by (rewrite !length_app; reflexivity).
  rewrite length_app in Hfuel. cbn [length] in Hfuel.
  destruct (fuse_fused s1 pre (b.1, true) post fuel Hsh1) as (s2 & Hr2 & Hf2);
    [lia|].
  rewrite Hr2. fields.
  set (l2 := absorb c (b.1, true) post) in *.
  assert (Hl2 : (length l2 <= S (length post))%nat)
    by (unfold l2; rewrite length_absorb; lia).
  assert (Hprev : exists s3,
    match match pre with
          | [] => None
          | _ :: _ => Some (last_addr c heap_base pre)
          end with
    | Some pv =>
        bind (load (buffer s2) pv)
          (fun hp => if free hp then fuse c fuel s2 pv else Ok s2)
    | None => Ok s2
    end = Ok s3
    /\ fused_into c s2 (pre ++ l2) s3 (merge_prev c pre l2)).
  { destruct (snoc_cases pre) as [-> | (pre' & p & ->)].
    - exists s2. split; [reflexivity|]. apply fused_into_refl, Hf2.
    - assert (match pre' ++ [p] with
              | [] => None
              | _ :: _ => Some (last_addr c heap_base (pre' ++ [p]))
              end = Some (heap_base + span c pre')) as Hpv.
      { rewrite last_addr_snoc. destruct (pre' ++ [p]) eqn:E; [|reflexivity].
        apply app_eq_nil in E as [_ E]. discriminate. }
      rewrite Hpv. rewrite merge_prev_snoc.
      destruct Hf2 as (Hsh2 & _).
      rewrite <- app_assoc in Hsh2. cbn [app] in Hsh2.
      pose proof Hsh2 as (_ & Hs2 & _).
      rewrite (load_Some _ _ _ (seg_lookup _ _ _ _ _ _ Hs2)). fields.
      destruct (p.2).
      + rewrite length_app in Hfuel. cbn [length] in Hfuel.
        destruct (fuse_fused s2 pre' p l2 fuel Hsh2) as (s3 & Hr3 & Hf3);
          [lia|].
        exists s3. split; [exact Hr3|].
        rewrite <- app_assoc. exact Hf3.
      + exists s2. split; [reflexivity|].
        rewrite <- app_assoc. apply fused_into_refl. exact Hsh2. }
  destruct Hprev as (s3 & Hr3 & Hf3). rewrite Hr3. fields.
  assert (Hlen3 : (length (merge_prev c pre l2) <= fuel)%nat).
  { destruct Hf3 as (_ & _ & _ & _ & H). rewrite length_app in H. lia. }
  destruct (deframent_fused s3 _ fuel (proj1 Hf3) Hlen3) as (s4 & Hr4 & Hf4).
  rewrite Hr4. fields. exists s4. split; [reflexivity|].
  unfold free_blocks. fold l2.
  apply (fused_into_trans _ _ s3 (merge_prev c pre l2)); [|exact Hf4].
  apply (fused_into_trans _ _ s2 (pre ++ l2)); [|exact Hf3].
  destruct Hf2 as (H1 & H2 & H3 & H4 & H5).
  unfold fused_into. rewrite !length_app in *. cbn [length] in *.
  repeat split; try apply H1; auto.
Qed.

(** The sweep leaves a state without adjacent free blocks untouched. *)
Lemma defrag_naf ff bs :
  forall s a fuel,
    seg c (buffer s) a bs None -> no_adjacent_free bs ->
    (length bs <= fuel)%nat ->
    defrag_loop c ff fuel s (link a bs None) = Ok s.
Proof.
  induction bs as [|b rest IH]; intros s a fuel Hs Hn Hf.
  - destruct fuel; reflexivity.
  - cbn [length] in Hf. destruct fuel as [|fuel]; [lia|].
    destruct Hs as (Ha & Hb & Hrest).
    cbn [link defrag_loop]. rewrite (load_Some _ _ _ Ha). fields.
    destruct rest as [|r rest2].
    + cbn [link]. fields. rewrite (load_Some _ _ _ Ha). fields.
      destruct fuel; reflexivity.
    + destruct Hn as [Hbr Hn]. cbn [link].
      pose proof Hrest as (Hr & _ & _).
      assert (Hs1 :
        (if b.2
         then bind (load (buffer s) (a + HDR c + b.1))
                (fun hn => if free hn then fuse c ff s a else Ok s)
         else Ok s) = Ok s).
      { destruct (b.2) eqn:Eb; [|reflexivity].
        rewrite (load_Some _ _ _ Hr). fields.
        destruct (r.2) eqn:Er; [|reflexivity].
        exfalso. apply Hbr. split; reflexivity. }
      rewrite Hs1. fields. rewrite (load_Some _ _ _ Ha). fields.
      apply (IH s (a + HDR c + b.1) fuel Hrest Hn). cbn [length] in *. lia.
Qed.

Lemma deframent_naf s bs fuel :
  shape c s bs -> no_adjacent_free bs -> (length bs <= fuel)%nat ->
  deframent_my_heap c fuel s = Ok s.
Proof.
  intros (Hne & Hs & _) Hn Hf. unfold deframent_my_heap.
  replace (Some heap_base) with (link heap_base bs None)
    by (destruct bs; [contradiction | reflexivity]).
  apply defrag_naf; assumption.
Qed.

Lemma find_addr_miss bs :
  forall a x prev,
    x ∉ addrs c a bs -> (find_addr c a x bs prev).1 = false.
Proof.
  induction bs as [|b bs IH]; intros a x prev Hx; [reflexivity|].
  cbn [find_addr addrs] in *.
  destruct (x =? a) eqn:E.
  - apply Z.eqb_eq in E. subst. exfalso. apply Hx. left.
  - apply IH. intros Hin. apply Hx. right. exact Hin.
Qed.

(** [my_free] of a pointer that fails either check: the report, and then
    the sweep. *)
Lemma my_free_invalid s bs p fuel :
  shape c s bs -> (length bs <= fuel)%nat ->
  (heap_base <=? p - HDR c) && le_last (p - HDR c) (last s) = false
  \/ (find_addr c heap_base (p - HDR c) bs None).1 = false ->
  my_free c fuel s (Some p)
  = bind (deframent_my_heap c fuel s) (fun s' => Ok (s', InvalidAddress)).
Proof.
  intros (Hne & Hs & _) Hf Hbad. unfold my_free.
  destruct ((heap_base <=? p - HDR c) && le_last (p - HDR c) (last s)) eqn:E.
  - destruct Hbad as [Hbad | Hbad]; [discriminate|].
    unfold verifyBlockAddress.
    replace (Some heap_base) with (link heap_base bs None)
      by (destruct bs; [contradiction | reflexivity]).
    rewrite (verify_loop_spec _ _ _ _ _ _ Hs Hf).
    destruct (find_addr c heap_base (p - HDR c) bs None) as [v pv].
    cbn [fst] in Hbad. subst v. reflexivity.
  - reflexivity.
Qed.

(** C9 (amended). A non-null pointer whose header lies outside
    [[heap_base, last]], or is not a header of the chain, is reported as
    invalid; [my_free] itself changes nothing, but the sweep still runs:
    the state it returns is the one [deframent_my_heap] gives, and it is
    the state before the call whenever no two neighbours of the chain were
    free. *)
Theorem free_invalid_pointer s bs p fuel :
  shape c s bs ->
  (length bs <= fuel)%nat ->
  p - HDR c < heap_base
  \/ (forall l, last s = Some l -> l < p - HDR c)
  \/ p - HDR c ∉ addrs c heap_base bs ->
  exists s',
    my_free c fuel s (Some p) = Ok (s', InvalidAddress)
    /\ deframent_my_heap c fuel s = Ok s'
    /\ (no_adjacent_free bs -> s' = s).
Proof.
  intros Hsh Hf Hbad.
  rewrite (my_free_invalid s bs p fuel Hsh Hf).
  - destruct (deframent_fused s bs fuel Hsh Hf) as (s' & Hr & _).
    exists s'. rewrite Hr. repeat split.
    intros Hn. rewrite (deframent_naf s bs fuel Hsh Hn Hf) in Hr.
    congruence.
  - destruct Hbad as [Hlow | [Hhigh | Hout]].
    + left. apply andb_false_iff. left. apply Z.leb_gt. exact Hlow.
    + left. apply andb_false_iff. right. unfold le_last.
      destruct (last s) as [l|]; [|reflexivity].
      apply Z.leb_gt. apply Hhigh. reflexivity.
    + right. apply find_addr_miss. exact Hout.
Qed.


(** ** [my_malloc], path by path *)

Lemma fit_cases sz (bs : list blk) :
  (Forall (fun x => fits sz x = false) bs /\ first_fit_size sz bs = None)
  \/ exists pre b post,
       bs = pre ++ b :: post /\ fits sz b = true
       /\ Forall (fun x => fits sz x = false) pre
       /\ first_fit_size sz bs = Some b.1.
Proof.
  induction bs as [|b bs IH].
  - left. split; [constructor | reflexivity].
  - cbn [first_fit_size]. destruct (fits sz b) eqn:E.
    + right. exists [], b, bs. repeat split; [exact E | constructor].
    + destruct IH as [[Hall Hn] | (pre & b' & post & -> & Hb & Hpre & Hs)].
      * left. split; [constructor; assumption | exact Hn].
      * right. exists (b :: pre), b', post.
        repeat split; [exact Hb | constructor; assumption | exact Hs].
Qed.

Lemma find_fit_none sz bs :
  Forall (fun x => fits sz x = false) bs ->
  forall a, find_fit c a sz bs = None.
Proof.
  induction 1 as [|b bs Hb _ IH]; intros a; [reflexivity|].
  cbn [find_fit]. unfold fits in Hb. rewrite Hb. apply IH.
Qed.

Lemma find_fit_some sz pre b post :
  Forall (fun x => fits sz x = false) pre -> fits sz b = true ->
  forall a, find_fit c a sz (pre ++ b :: post) = Some (a + span c pre).
Proof.
  intros Hpre Hb. induction Hpre as [|p pre Hp _ IH]; intros a.
  - cbn [app find_fit span]. unfold fits in Hb. rewrite Hb.
    f_equal. lia.
  - cbn [app find_fit span]. unfold fits in Hp. rewrite Hp, IH.
    f_equal. lia.
Qed.

(** The very first call. *)
Lemma my_malloc_first sz fuel :
  0 < sz < SIZE_MOD ->
  HDR c + sz < SIZE_MOD ->
  exists s',
    my_malloc c fuel (initial c) sz = Ok (s', Some (heap_base + HDR c))
    /\ first s' = false
    /\ chain c s' [(sz, false)]
    /\ freespace s' = wrap (BUFF_SIZE c - wrap (sz + HDR c)).
Proof.
  intros Hsz Hfit. unfold my_malloc.
  replace (sz =? 0) with false by (symmetry; apply Z.eqb_neq; lia).
  cbn [initial first negb]. crank.
  eexists. split; [reflexivity|].
  split; [reflexivity|]. split; [|reflexivity].
  unfold chain. fields.
  repeat split; try discriminate; cbn [span fst]; lia.
Qed.

(** No free block fits: a new block after [last]. *)
Lemma my_malloc_extend s bs sz fuel :
  first s = false -> chain c s bs ->
  0 < sz < SIZE_MOD ->
  Forall (fun x => fits sz x = false) bs ->
  span c bs + HDR c + sz < SIZE_MOD ->
  (length bs <= fuel)%nat ->
  exists s',
    my_malloc c fuel s sz = Ok (s', Some (heap_base + span c bs + HDR c))
    /\ first s' = false
    /\ chain c s' (bs ++ [(sz, false)])
    /\ freespace s' = wrap (freespace s - wrap (sz + HDR c)).
Proof.
  intros Hfirst (Hne & Hs & Hl & Hsp) Hsz Hnofit Hfit Hfuel.
  unfold my_malloc.
  replace (sz =? 0) with false by (symmetry; apply Z.eqb_neq; lia).
  rewrite Hfirst. cbn [negb]. unfold search_freespace.
  replace (Some heap_base) with (link heap_base bs None)
    by (destruct bs; [contradiction | reflexivity]).
  rewrite (search_loop_spec _ _ _ _ _ Hs Hfuel).
  rewrite (find_fit_none _ _ Hnofit). fields. rewrite Hl. fields.
  destruct (snoc_cases bs) as [-> | (pre & t & ->)]; [contradiction|].
  rewrite last_addr_snoc.
  pose proof (seg_lookup _ _ _ _ _ _ Hs) as Hcell. cbn [link] in Hcell.
  pose proof (seg_sizes _ _ _ _ Hs) as Hall.
  apply Forall_app in Hall as [Hpre Ht]. inversion Ht as [|? ? Ht' _]; subst.
  pose proof (span_sizes _ Hpre) as Hpre0.
  rewrite span_app in *. cbn [span] in *.
  rewrite (load_Some _ _ _ Hcell). fields.
  set (a := heap_base + span c pre) in *.
  set (blk' := t.1 + (a + HDR c)).
  eexists. split; [f_equal; f_equal; f_equal; unfold blk', a; lia|].
  fields. split; [reflexivity|]. split; [|reflexivity].
  repeat split.
  - intros E. apply app_eq_nil in E as [_ E]. discriminate.
  - fields. rewrite <- app_assoc. cbn [app].
    apply seg_app in Hs as [Hs1 _]. apply seg_app. split.
    + apply (seg_ext (buffer s)); [|exact Hs1].
      intros x Hx. crank. reflexivity.
    + fold a. split; [|split; [|split; [|split]]].
      * crank. rewrite Hcell. fields. cbn [link].
        replace blk' with (a + HDR c + t.1) by (unfold blk'; lia).
        reflexivity.
      * exact Ht'.
      * replace (a + HDR c + t.1) with blk' by (unfold blk'; lia).
        crank. cbn [fst snd link]. reflexivity.
      * cbn [fst]. lia.
      * exact I.
  - fields. rewrite <- app_assoc. cbn [app].
    rewrite last_addr_app by discriminate. cbn [last_addr].
    f_equal. unfold blk', a. lia.
  - rewrite !span_app. cbn [span fst]. lia.
Qed.

(** The first fit is handed out whole. *)
Lemma my_malloc_whole s pre b post sz fuel :
  first s = false -> chain c s (pre ++ b :: post) ->
  0 < sz ->
  Forall (fun x => fits sz x = false) pre -> fits sz b = true ->
  splits c sz b.1 = false ->
  (length (pre ++ b :: post) <= fuel)%nat ->
  exists s',
    my_malloc c fuel s sz = Ok (s', Some (heap_base + span c pre + HDR c))
    /\ first s' = false
    /\ chain c s' (pre ++ (b.1, false) :: post)
    /\ freespace s' = wrap (freespace s - sz).
Proof.
  intros Hfirst Hch Hsz Hpre Hb Hsplit Hfuel.
  pose proof (chain_shape _ _ Hch) as Hsh.
  destruct Hch as (Hne & Hs & Hl & Hsp).
  unfold my_malloc.
  replace (sz =? 0) with false by (symmetry; apply Z.eqb_neq; lia).
  rewrite Hfirst. cbn [negb]. unfold search_freespace.
  replace (Some heap_base) with (link heap_base (pre ++ b :: post) None)
    by (destruct pre; reflexivity).
  rewrite (search_loop_spec _ _ _ _ _ Hs Hfuel).
  rewrite (find_fit_some _ _ _ _ Hpre Hb). fields.
  pose proof (seg_lookup _ _ _ _ _ _ Hs) as Hcell.
  rewrite (load_Some _ _ _ Hcell). fields.
  unfold splits in Hsplit. rewrite Hsplit. fields.
  eexists. split; [reflexivity|]. fields.
  split; [exact Hfirst|]. split; [|reflexivity].
  apply shape_chain; [|fields; rewrite Hl; eexists; reflexivity].
  apply (mark_free_shape s pre b post false _ Hsh).
Qed.

(** The first fit is split. *)
Lemma my_malloc_split s pre b post sz fuel :
  first s = false -> chain c s (pre ++ b :: post) ->
  0 < sz ->
  Forall (fun x => fits sz x = false) pre -> fits sz b = true ->
  splits c sz b.1 = true ->
  sz + HDR c <= b.1 ->
  (length (pre ++ b :: post) <= fuel)%nat ->
  exists s',
    my_malloc c fuel s sz = Ok (s', Some (heap_base + span c pre + HDR c))
    /\ first s' = false
    /\ chain c s' (pre ++ (sz, false) :: (b.1 - sz - HDR c, true) :: post)
    /\ freespace s' = wrap (wrap (freespace s - b.1) + (b.1 - sz - HDR c)).
Proof.
  intros Hfirst Hch Hsz Hpre Hb Hsplit Hroom Hfuel.
  pose proof (chain_block_bounds _ _ _ _ _ Hch eq_refl) as (Hp0 & Hb0 & Hfit).
  destruct Hch as (Hne & Hs & Hl & Hsp).
  unfold my_malloc.
  replace (sz =? 0) with false by (symmetry; apply Z.eqb_neq; lia).
  rewrite Hfirst. cbn [negb]. unfold search_freespace.
  replace (Some heap_base) with (link heap_base (pre ++ b :: post) None)
    by (destruct pre; reflexivity).
  rewrite (search_loop_spec _ _ _ _ _ Hs Hfuel).
  rewrite (find_fit_some _ _ _ _ Hpre Hb). fields.
  pose proof (seg_lookup _ _ _ _ _ _ Hs) as Hcell.
  rewrite (load_Some _ _ _ Hcell). fields.
  unfold splits in Hsplit. rewrite Hsplit.
  assert (Hw : wrap (HDR c + sz) = HDR c + sz)
    by (apply wrap_small; unfold heap_base in *; lia).
  rewrite (split_buffer (with_freespace s _) _ _ _ Hcell)
    by (rewrite Hw; lia).
  rewrite Hw. fields. rewrite (wrap_small (b.1 - sz - HDR c)) by lia.
  rewrite !Z.add_assoc.
  set (a := heap_base + span c pre) in *.
  set (chunk := a + HDR c + sz).
  crank.
  eexists. split; [reflexivity|]. fields.
  split; [exact Hfirst|]. split; [|reflexivity].
  assert (Hb2 : b.2 = true) by (apply andb_true_iff in Hb; tauto).
  apply seg_app in Hs as [Hs1 (_ & Hbr & Hs2)].
  pose proof (span_nonneg _ _ _ _ Hs2) as Hpost0.
  repeat split.
  - intros E. apply app_eq_nil in E as [_ E]. discriminate.
  - fields. apply seg_app. fold a. split; [|split; [|split; [|split; [|split]]]].
    + apply (seg_ext (buffer s)); [|exact Hs1].
      intros x Hx. unfold chunk. crank. reflexivity.
    + unfold chunk. crank. reflexivity.
    + cbn [fst]. lia.
    + cbn [fst snd]. fold chunk. unfold chunk at 1 2. crank. fold chunk.
      replace (chunk + HDR c + (b.1 - sz - HDR c)) with (a + HDR c + b.1)
        by (unfold chunk; lia).
      reflexivity.
    + cbn [fst]. lia.
    + cbn [fst]. apply (seg_ext (buffer s)).
      * intros x Hx. unfold chunk. crank. reflexivity.
      * replace (a + HDR c + sz + HDR c + (b.1 - sz - HDR c))
          with (a + HDR c + b.1) by lia.
        exact Hs2.
  - fields. rewrite Hl. rewrite !last_addr_app by discriminate. fold a.
    destruct post as [|r post]; cbn [link last_addr fst].
    + reflexivity.
    + replace (a + HDR c + sz + HDR c + (b.1 - sz - HDR c))
        with (a + HDR c + b.1) by lia.
      reflexivity.
  - rewrite span_app in *. cbn [span fst] in *. lia.
Qed.

(** ** The accounting invariant

    From here on the capacity and the header size are [size_t] values. *)

Section Accounting.

Hypothesis BUFF_SIZE_range : 0 <= BUFF_SIZE c < SIZE_MOD.
Hypothesis HDR_range : HDR c < SIZE_MOD.

Lemma free_sum_nonneg bs :
  Forall (fun b : blk => 0 <= b.1 < SIZE_MOD) bs -> 0 <= free_sum bs.
Proof. induction 1 as [|b bs Hb _ IH]; simpl; [lia|]. destruct (b.2); lia. Qed.

Lemma alloc_sum_nonneg bs :
  Forall (fun b : blk => 0 <= b.1 < SIZE_MOD) bs -> 0 <= alloc_sum bs.
Proof. induction 1 as [|b bs Hb _ IH]; simpl; [lia|]. destruct (b.2); lia. Qed.

Lemma free_sum_block pre b post :
  Forall (fun b : blk => 0 <= b.1 < SIZE_MOD) (pre ++ b :: post) ->
  b.2 = true -> b.1 <= free_sum (pre ++ b :: post).
Proof.
  intros Hall Hb. apply Forall_app in Hall as [Hpre Hpost].
  inversion Hpost as [|? ? _ Hpost']; subst.
  pose proof (free_sum_nonneg _ Hpre). pose proof (free_sum_nonneg _ Hpost').
  rewrite free_sum_app. cbn [free_sum]. rewrite Hb. lia.
Qed.

(** Under the invariant the counter is the free payload plus the bytes of
    the buffer past the chain. *)
Lemma accounted_free_sum s bs :
  accounted c s bs ->
  freespace s = free_sum bs + (BUFF_SIZE c - span c bs).
Proof. intros [Hfs _]. rewrite Hfs, span_sums. lia. Qed.

Lemma chain_sizes s bs :
  chain c s bs -> Forall (fun b : blk => 0 <= b.1 < SIZE_MOD) bs.
Proof. intros (_ & Hs & _). apply (seg_sizes _ _ _ _ Hs). Qed.

Lemma models_sizes s bs :
  models c s bs -> Forall (fun b : blk => 0 <= b.1 < SIZE_MOD) bs.
Proof.
  intros [[_ ->] | [_ Hch]]; [constructor | apply (chain_sizes _ _ Hch)].
Qed.

Lemma models_initial : models c (initial c) [] /\ accounted c (initial c) [].
Proof.
  split; [left; split; reflexivity|]. split; simpl; lia.
Qed.

(** [my_malloc] keeps the invariant. *)
Lemma malloc_step s bs sz fuel :
  models c s bs -> accounted c s bs ->
  0 < sz < SIZE_MOD ->
  fit_ok c sz bs ->
  (length bs <= fuel)%nat ->
  exists s' P bs',
    my_malloc c fuel s sz = Ok (s', Some (heap_base + span c P + HDR c))
    /\ first s' = false /\ chain c s' bs' /\ accounted c s' bs'
    /\ served c sz bs P bs'.
Proof.
  intros Hm Hacc Hsz Hok Hfuel.
  pose proof (models_sizes _ _ Hm) as Hall.
  pose proof (accounted_free_sum _ _ Hacc) as Hfs.
  destruct Hacc as [Hacc Hin].
  pose proof (free_sum_nonneg _ Hall) as Hfree0.
  pose proof (span_sizes _ Hall) as Hspan0.
  pose proof (alloc_sum_nonneg _ Hall) as Halloc0.
  assert (Hhl : 0 <= HDR c * Z.of_nat (length bs))
    by (apply Z.mul_nonneg_nonneg; lia).
  assert (Hfs_hi : freespace s <= BUFF_SIZE c) by lia.
  assert (Hfs_lo : 0 <= freespace s) by lia.
  destruct Hm as [[-> ->] | [Hfirst Hch]].
  - (* first call *)
    unfold fit_ok in Hok. cbn [first_fit_size span] in Hok.
    destruct (my_malloc_first sz fuel Hsz) as (s' & Hr & Hf & Hc & Hfs');
      [lia|].
    exists s', [], [(sz, false)].
    cbn [span]. rewrite Z.add_0_r.
    split; [exact Hr|]. split; [exact Hf|]. split; [exact Hc|].
    split; [split|].
    + rewrite Hfs'. rewrite (wrap_small (sz + HDR c)) by lia.
      rewrite wrap_small by lia. cbn [length alloc_sum snd fst]. lia.
    + cbn [span fst]. lia.
    + apply (served_new c sz []). constructor.
  - destruct (fit_cases sz bs) as
      [[Hno Hfit] | (pre & b & post & -> & Hb & Hpre & Hfit)];
      unfold fit_ok in Hok; rewrite Hfit in Hok.
    + (* no fit *)
      destruct (my_malloc_extend s bs sz fuel Hfirst Hch Hsz Hno)
        as (s' & Hr & Hf & Hc & Hfs'); [lia | exact Hfuel |].
      exists s', bs, (bs ++ [(sz, false)]).
      split; [exact Hr|]. split; [exact Hf|]. split; [exact Hc|].
      split; [split|].
      * rewrite Hfs'. rewrite (wrap_small (sz + HDR c)) by lia.
        rewrite wrap_small by lia.
        rewrite length_app, alloc_sum_app. cbn [length alloc_sum snd fst].
        lia.
      * rewrite span_app. cbn [span fst]. lia.
      * apply served_new. exact Hno.
    + pose proof (free_sum_block _ _ _ Hall) as Hblock.
      assert (Hb2 : b.2 = true)
        by (unfold fits in Hb; apply andb_true_iff in Hb; tauto).
      specialize (Hblock Hb2).
      assert (Hbsz : sz <= b.1)
        by (unfold fits in Hb; apply andb_true_iff in Hb as [_ Hb];
            apply Z.leb_le; exact Hb).
      rewrite span_app in Hin, Hfs, Hspan0. cbn [span] in Hin, Hfs, Hspan0.
      rewrite length_app, alloc_sum_app in Hacc.
      cbn [length alloc_sum] in Hacc. rewrite Hb2 in Hacc.
      destruct (splits c sz b.1) eqn:Hsplit.
      * (* split *)
        destruct (my_malloc_split s pre b post sz fuel Hfirst Hch (proj1 Hsz)
                    Hpre Hb Hsplit Hok Hfuel) as (s' & Hr & Hf & Hc & Hfs').
        exists s', pre. eexists. split; [exact Hr|].
        split; [exact Hf|]. split; [exact Hc|]. split; [split|].
        -- rewrite Hfs'. rewrite (wrap_small (freespace s - b.1)) by lia.
           rewrite wrap_small by lia.
           rewrite length_app, alloc_sum_app.
           cbn [length alloc_sum snd fst]. lia.
        -- rewrite span_app. cbn [span fst]. lia.
        -- apply served_split; assumption.
      * (* whole *)
        destruct (my_malloc_whole s pre b post sz fuel Hfirst Hch (proj1 Hsz)
                    Hpre Hb Hsplit Hfuel) as (s' & Hr & Hf & Hc & Hfs').
        exists s', pre. eexists. split; [exact Hr|].
        split; [exact Hf|]. split; [exact Hc|]. split; [split|].
        -- rewrite Hfs'. rewrite wrap_small by lia.
           rewrite length_app, alloc_sum_app.
           cbn [length alloc_sum snd fst]. lia.
        -- rewrite span_app. cbn [span fst]. lia.
        -- apply served_whole; assumption.
Qed.

Lemma alloc_sum_after_run l : alloc_sum (after_run l) = alloc_sum l.
Proof.
  rewrite <- (free_run_after_run l) at 2.
  rewrite alloc_sum_app, alloc_sum_free_run. lia.
Qed.

Lemma span_absorb b l : span c (absorb c b l) = span c (b :: l).
Proof.
  unfold absorb. cbn [span fst].
  rewrite <- (free_run_after_run l) at 3. rewrite span_app. lia.
Qed.

Lemma alloc_sum_absorb b l :
  b.2 = true -> alloc_sum (absorb c b l) = alloc_sum (b :: l).
Proof.
  intros Hb. unfold absorb. cbn [alloc_sum snd]. rewrite Hb.
  rewrite alloc_sum_after_run. reflexivity.
Qed.

Lemma span_merge_prev pre l : span c (merge_prev c pre l) = span c (pre ++ l).
Proof.
  induction pre as [|p pre IH]; [reflexivity|].
  cbn [merge_prev app]. destruct pre as [|q pre].
  - destruct (p.2); [apply span_absorb | reflexivity].
  - cbn [span]. rewrite IH. reflexivity.
Qed.

Lemma alloc_sum_merge_prev pre l :
  alloc_sum (merge_prev c pre l) = alloc_sum (pre ++ l).
Proof.
  induction pre as [|p pre IH]; [reflexivity|].
  cbn [merge_prev app]. destruct pre as [|q pre].
  - destruct (p.2) eqn:E; [apply alloc_sum_absorb; exact E | reflexivity].
  - cbn [alloc_sum]. rewrite IH. reflexivity.
Qed.

Lemma span_free_blocks pre b post :
  span c (free_blocks c pre b post) = span c (pre ++ b :: post).
Proof.
  unfold free_blocks.
  rewrite span_coalesce, span_merge_prev, !span_app, span_absorb.
  reflexivity.
Qed.

Lemma alloc_sum_free_blocks pre b post :
  alloc_sum (free_blocks c pre b post) = alloc_sum pre + alloc_sum post.
Proof.
  unfold free_blocks.
  rewrite alloc_sum_coalesce, alloc_sum_merge_prev, alloc_sum_app.
  rewrite alloc_sum_absorb by reflexivity. reflexivity.
Qed.

Lemma shape_initial : shape c (initial c) [(0, false)].
Proof.
  repeat split; try discriminate; try reflexivity; try lia.
  cbn [span fst]. lia.
Qed.

(** Fusing blocks keeps the accounting. *)
Lemma fused_accounted s bs s' bs' :
  fused_into c s bs s' bs' ->
  0 <= freespace s ->
  freespace s
  = BUFF_SIZE c - HDR c * Z.of_nat (length bs) - alloc_sum bs' ->
  span c bs' <= BUFF_SIZE c ->
  accounted c s' bs'.
Proof.
  intros (Hsh & _ & Hfs & _ & Hlen) Hlo Hacc Hin.
  destruct Hsh as (_ & Hs & _).
  pose proof (alloc_sum_nonneg _ (seg_sizes _ _ _ _ Hs)) as Ha0.
  assert (Hhl : 0 <= HDR c * Z.of_nat (length bs'))
    by (apply Z.mul_nonneg_nonneg; lia).
  assert (Hk : Z.of_nat (length bs - length bs')
               = Z.of_nat (length bs) - Z.of_nat (length bs')) by lia.
  split; [|exact Hin].
  rewrite Hfs, add_hdr_exact; rewrite ?Hk; try lia.
Qed.

(** [my_free] keeps the invariant. *)
Lemma free_step s bs p fuel :
  models c s bs -> accounted c s bs ->
  free_ok c p bs ->
  (length bs < fuel)%nat ->
  exists s' report bs',
    my_free c fuel s p = Ok (s', report)
    /\ models c s' bs' /\ accounted c s' bs'.
Proof.
  intros Hm Hacc Hok Hfuel.
  destruct p as [a|];
    [|exists s, Silent, bs; split; [reflexivity | split; assumption]].
  pose proof (models_sizes _ _ Hm) as Hall.
  pose proof (accounted_free_sum _ _ Hacc) as Hfs.
  pose proof (free_sum_nonneg _ Hall) as Hfree0.
  pose proof (alloc_sum_nonneg _ Hall) as Halloc0.
  assert (Hhl : 0 <= HDR c * Z.of_nat (length bs))
    by (apply Z.mul_nonneg_nonneg; lia).
  destruct Hm as [[-> ->] | [Hfirst Hch]].
  - (* before the first allocation: every pointer is invalid *)
    rewrite (my_free_invalid _ _ a fuel shape_initial)
      by (first [cbn [length] in *; lia
                | left; apply andb_false_iff; right; reflexivity]).
    rewrite (deframent_naf _ _ fuel shape_initial I)
      by (cbn [length] in *; lia).
    exists (initial c), InvalidAddress, []. split; [reflexivity|].
    split; [left; split; reflexivity | exact Hacc].
  - pose proof (chain_shape _ _ Hch) as Hsh.
    destruct Hacc as [Hacc Hin].
    assert (Hfs_lo : 0 <= freespace s) by lia.
    assert (Hinvalid :
      my_free c fuel s (Some a)
      = bind (deframent_my_heap c fuel s) (fun s' => Ok (s', InvalidAddress))
      -> exists s' report bs',
           my_free c fuel s (Some a) = Ok (s', report)
           /\ models c s' bs' /\ accounted c s' bs').
    { intros ->.
      destruct (deframent_fused s bs fuel Hsh) as (s' & Hr & Hf); [lia|].
      rewrite Hr. exists s', InvalidAddress, (coalesce c bs).
      split; [reflexivity|]. split.
      - right. destruct Hf as (Hs' & Hl & _ & Hfi & _). split; [congruence|].
        apply shape_chain; [exact Hs'|]. apply Hl.
        destruct Hch as (_ & _ & -> & _). eexists; reflexivity.
      - apply (fused_accounted _ _ _ _ Hf Hfs_lo).
        + rewrite alloc_sum_coalesce. exact Hacc.
        + rewrite span_coalesce. exact Hin. }
    destruct ((heap_base <=? a - HDR c) && le_last (a - HDR c) (last s))
      eqn:E.
    2:{ apply Hinvalid. apply (my_free_invalid s bs a fuel Hsh); [lia|].
        left. exact E. }
    destruct (find_addr c heap_base (a - HDR c) bs None) as [v pv] eqn:Ev.
    destruct v.
    2:{ apply Hinvalid. apply (my_free_invalid s bs a fuel Hsh); [lia|].
        right. rewrite Ev. reflexivity. }
    destruct (find_addr_true _ _ _ _ _ Ev) as (pre & b & post & -> & Hp).
    pose proof (Hok pre b post eq_refl Hp) as Hb2.
    destruct (my_free_valid s pre b post fuel Hch) as (s' & Hr & Hf); [lia|].
    replace (heap_base + span c pre + HDR c) with a in Hr by lia.
    exists s', (Freed b.1), (free_blocks c pre b post).
    split; [exact Hr|].
    rewrite length_app, alloc_sum_app in Hacc.
    cbn [length alloc_sum] in Hacc. rewrite Hb2 in Hacc.
    apply Forall_app in Hall as [Hpre Hpost].
    inversion Hpost as [|? ? Hb Hpost']; subst.
    pose proof (alloc_sum_nonneg _ Hpre). pose proof (alloc_sum_nonneg _ Hpost').
    assert (Hhl' : 0 <= HDR c * Z.of_nat (length pre + S (length post)))
      by (apply Z.mul_nonneg_nonneg; lia).
    split.
    + right. destruct Hf as (Hs' & Hl & _ & Hfi & _).
      split; [cbn [first with_freespace] in Hfi; congruence|].
      apply shape_chain; [exact Hs'|]. apply Hl. cbn [last with_freespace].
      destruct Hch as (_ & _ & -> & _). eexists; reflexivity.
    + apply (fused_accounted _ _ _ _ Hf).
      * cbn [freespace with_freespace]. apply wrap_range.
      * cbn [freespace with_freespace]. rewrite wrap_small by lia.
        rewrite alloc_sum_free_blocks, length_app. cbn [length]. lia.
      * rewrite span_free_blocks. exact Hin.
Qed.

(** ** [my_realloc] *)

(** [split] on a block of a chain, with room for the new header. *)
Lemma split_chain s pre b post sz :
  chain c s (pre ++ b :: post) ->
  0 <= sz -> sz + HDR c <= b.1 ->
  exists s',
    split c s (heap_base + span c pre) sz = Ok s'
    /\ chain c s' (pre ++ (sz, b.2) :: (b.1 - sz - HDR c, true) :: post)
    /\ freespace s' = freespace s /\ first s' = first s.
Proof.
  intros Hch Hsz Hroom.
  pose proof (chain_block_bounds _ _ _ _ _ Hch eq_refl) as (Hp0 & Hb0 & Hfit).
  destruct Hch as (Hne & Hs & Hl & Hsp).
  pose proof (seg_lookup _ _ _ _ _ _ Hs) as Hcell.
  assert (Hw : wrap (HDR c + sz) = HDR c + sz)
    by (apply wrap_small; unfold heap_base in *; lia).
  rewrite (split_buffer _ _ _ _ Hcell) by (rewrite Hw; lia).
  rewrite Hw. fields. rewrite (wrap_small (b.1 - sz - HDR c)) by lia.
  rewrite !Z.add_assoc.
  set (a := heap_base + span c pre) in *.
  set (chunk := a + HDR c + sz).
  eexists. split; [reflexivity|]. split; [|split; reflexivity].
  apply seg_app in Hs as [Hs1 (_ & Hbr & Hs2)].
  pose proof (span_nonneg _ _ _ _ Hs2) as Hpost0.
  repeat split.
  - intros E. apply app_eq_nil in E as [_ E]. discriminate.
  - fields. apply seg_app. fold a. split; [|split; [|split; [|split; [|split]]]].
    + apply (seg_ext (buffer s)); [|exact Hs1].
      intros x Hx. unfold chunk. crank. reflexivity.
    + unfold chunk. crank. reflexivity.
    + cbn [fst]. lia.
    + cbn [fst snd]. fold chunk. unfold chunk at 1 2. crank. fold chunk.
      replace (chunk + HDR c + (b.1 - sz - HDR c)) with (a + HDR c + b.1)
        by (unfold chunk; lia).
      reflexivity.
    + cbn [fst]. lia.
    + cbn [fst]. apply (seg_ext (buffer s)).
      * intros x Hx. unfold chunk. crank. reflexivity.
      * replace (a + HDR c + sz + HDR c + (b.1 - sz - HDR c))
          with (a + HDR c + b.1) by lia.
        exact Hs2.
  - fields. rewrite Hl. rewrite !last_addr_app by discriminate. fold a.
    destruct post as [|r post]; cbn [link last_addr fst].
    + reflexivity.
    + replace (a + HDR c + sz + HDR c + (b.1 - sz - HDR c))
        with (a + HDR c + b.1) by lia.
      reflexivity.
  - rewrite span_app in *. cbn [span fst] in *. lia.
Qed.

(** After [split] the block's [next] is the new header, whose size the
    caller adds to the counter. *)
Lemma chain_next_size s pre b r post :
  chain c s (pre ++ b :: r :: post) ->
  bind (load (buffer s) (heap_base + span c pre))
    (fun h => bind (deref (next h))
       (fun nx => bind (load (buffer s) nx) (fun hn => Ok (size hn))))
  = Ok r.1.
Proof.
  intros (_ & Hs & _).
  pose proof (seg_lookup _ _ _ _ _ _ Hs) as Hcell.
  replace (pre ++ b :: r :: post) with ((pre ++ [b]) ++ r :: post) in Hs
    by (rewrite <- app_assoc; reflexivity).
  pose proof (seg_lookup _ _ _ _ _ _ Hs) as Hnext.
  rewrite span_app in Hnext. cbn [span] in Hnext.
  rewrite (load_Some _ _ _ Hcell). fields. cbn [link]. fields.
  replace (heap_base + span c pre + HDR c + b.1)
    with (heap_base + (span c pre + (HDR c + b.1 + 0))) by lia.
  rewrite (load_Some _ _ _ Hnext). reflexivity.
Qed.

(** The in-place growth of [my_realloc]: the block takes over its
    successor. *)
Lemma grow_chain s pre b r post fs :
  chain c s (pre ++ b :: r :: post) ->
  chain c
    (Heap (store (set_next (link (heap_base + span c pre + HDR c + b.1
                                  + HDR c + r.1) post None))
                 (heap_base + span c pre)
                 (store (set_size (b.1 + (HDR c + r.1)))
                        (heap_base + span c pre) (buffer s)))
          (match link (heap_base + span c pre + HDR c + b.1 + HDR c + r.1)
                      post None with
           | None => Some (heap_base + span c pre)
           | Some _ => last s
           end)
          fs (first s))
    (pre ++ (b.1 + (HDR c + r.1), b.2) :: post).
Proof.
  intros Hch.
  pose proof (chain_block_bounds _ _ _ _ _ Hch eq_refl) as (Hp0 & Hb0 & Hfit).
  destruct Hch as (Hne & Hs & Hl & Hsp).
  pose proof (seg_lookup _ _ _ _ _ _ Hs) as Hcell.
  apply seg_app in Hs as [Hs1 (_ & Hbr & (_ & Hrr & Hs2))].
  pose proof (span_nonneg _ _ _ _ Hs2) as Hpost0.
  rewrite span_app in Hsp. cbn [span] in Hsp.
  set (a := heap_base + span c pre) in *.
  repeat split.
  - intros E. apply app_eq_nil in E as [_ E]. discriminate.
  - fields. apply seg_app. fold a. split; [|split; [|split]].
    + apply (seg_ext (buffer s)); [|exact Hs1].
      intros x Hx. crank. reflexivity.
    + crank. rewrite Hcell. fields. cbn [fst snd].
      replace (a + HDR c + (b.1 + (HDR c + r.1)))
        with (a + HDR c + b.1 + HDR c + r.1) by lia.
      reflexivity.
    + cbn [fst]. lia.
    + cbn [fst]. apply (seg_ext (buffer s)).
      * intros x Hx. crank. reflexivity.
      * replace (a + HDR c + (b.1 + (HDR c + r.1)))
          with (a + HDR c + b.1 + HDR c + r.1) by lia.
        exact Hs2.
  - fields. rewrite Hl. rewrite !last_addr_app by discriminate. fold a.
    destruct post as [|q post]; cbn [link last_addr fst].
    + reflexivity.
    + replace (a + HDR c + (b.1 + (HDR c + r.1)))
        with (a + HDR c + b.1 + HDR c + r.1) by lia.
      reflexivity.
  - rewrite span_app. cbn [span fst]. lia.
Qed.

Lemma app_cons_cases (l1 : list blk) x r1 l2 y r2 :
  l1 ++ x :: r1 = l2 ++ y :: r2 ->
  (l1 = l2 /\ x = y /\ r1 = r2)
  \/ (exists mid, l2 = l1 ++ x :: mid /\ r1 = mid ++ y :: r2)
  \/ (exists mid, l1 = l2 ++ y :: mid /\ r2 = mid ++ x :: r1).
Proof.
  revert l2. induction l1 as [|h l1 IH]; intros l2 H.
  - destruct l2 as [|k l2]; cbn [app] in H.
    + injection H as -> ->. left. repeat split.
    + injection H as -> ->. right. left. exists l2. split; reflexivity.
  - destruct l2 as [|k l2]; cbn [app] in H.
    + injection H as -> <-. right. right. exists l1. split; reflexivity.
    + injection H as -> H. destruct (IH _ H)
        as [(-> & -> & ->) | [(mid & -> & ->) | (mid & -> & ->)]].
      * left. repeat split.
      * right. left. exists mid. split; reflexivity.
      * right. right. exists mid. split; reflexivity.
Qed.

(** The header offset determines the block. *)
Lemma block_by_offset p1 :
  forall p2 b1 q1 b2 q2,
    Forall (fun b : blk => 0 <= b.1 < SIZE_MOD) p1 ->
    Forall (fun b : blk => 0 <= b.1 < SIZE_MOD) p2 ->
    p1 ++ b1 :: q1 = p2 ++ b2 :: q2 ->
    span c p1 = span c p2 ->
    b1 = b2.
Proof.
  induction p1 as [|x p1 IH]; intros p2 b1 q1 b2 q2 H1 H2 Heq Hsp.
  - destruct p2 as [|y p2].
    + injection Heq as -> _. reflexivity.
    + inversion H2 as [|? ? Hy Hp2]; subst.
      pose proof (span_sizes _ Hp2). cbn [span] in Hsp. lia.
  - inversion H1 as [|? ? Hx Hp1]; subst.
    destruct p2 as [|y p2].
    + pose proof (span_sizes _ Hp1). cbn [span] in Hsp. lia.
    + inversion H2 as [|? ? Hy Hp2]; subst.
      cbn [app] in Heq. injection Heq as -> Heq.
      cbn [span] in Hsp.
      apply (IH p2 b1 q1 b2 q2 Hp1 Hp2 Heq). lia.
Qed.

(** [my_malloc] leaves every allocated block where it is. *)
Lemma served_keeps_block sz bs P0 bs1 P have Q :
  served c sz bs P0 bs1 ->
  bs = P ++ (have, false) :: Q ->
  exists P1 Q1, bs1 = P1 ++ (have, false) :: Q1 /\ span c P1 = span c P.
Proof.
  intros Hserved Hbs. destruct Hserved as [bs _ | pre b post _ Hb _ | pre b post _ Hb _].
  - subst bs. exists P, (Q ++ [(sz, false)]).
    rewrite <- app_assoc. split; reflexivity.
  - assert (Hb2 : b.2 = true)
      by (unfold fits in Hb; apply andb_true_iff in Hb; tauto).
    destruct (app_cons_cases _ _ _ _ _ _ Hbs)
      as [(_ & -> & _) | [(mid & -> & ->) | (mid & -> & ->)]].
    + discriminate.
    + exists (pre ++ (b.1, false) :: mid), Q.
      rewrite <- !app_assoc. split; [reflexivity|].
      rewrite !span_app. reflexivity.
    + exists P, (mid ++ (b.1, false) :: post).
      rewrite <- !app_assoc. split; reflexivity.
  - assert (Hb2 : b.2 = true)
      by (unfold fits in Hb; apply andb_true_iff in Hb; tauto).
    destruct (app_cons_cases _ _ _ _ _ _ Hbs)
      as [(_ & -> & _) | [(mid & -> & ->) | (mid & -> & ->)]].
    + discriminate.
    + exists (pre ++ (sz, false) :: (b.1 - sz - HDR c, true) :: mid), Q.
      rewrite <- !app_assoc. split; [reflexivity|].
      rewrite !span_app. cbn [span fst]. lia.
    + exists P, (mid ++ (sz, false) :: (b.1 - sz - HDR c, true) :: post).
      rewrite <- !app_assoc. split; reflexivity.
Qed.

Lemma served_length sz bs P0 bs1 :
  served c sz bs P0 bs1 -> (length bs1 <= S (length bs))%nat.
Proof.
  intros [bs' _ | pre b post _ _ _ | pre b post _ _ _];
    rewrite !length_app; cbn [length]; lia.
Qed.

Lemma lookup_memcpy (m : gmap Z metadata) dst n a :
  untouched c dst n a -> memcpy c m dst n !! a = m !! a.
Proof.
  intros Hu. unfold memcpy. destruct (m !! a) as [h|] eqn:E.
  - apply map_lookup_filter_Some_2; [exact E | exact Hu].
  - apply map_lookup_filter_None_2. left. exact E.
Qed.

Lemma addrs_app a l1 l2 :
  addrs c a (l1 ++ l2) = addrs c a l1 ++ addrs c (a + span c l1) l2.
Proof.
  revert a. induction l1 as [|b l1 IH]; intros a; cbn [app addrs span].
  - rewrite Z.add_0_r. reflexivity.
  - rewrite IH.
    replace (a + HDR c + b.1 + span c l1)
      with (a + (HDR c + b.1 + span c l1)) by lia.
    reflexivity.
Qed.

(** A segment only depends on its header cells. *)
Lemma seg_cells (m m' : gmap Z metadata) a bs e :
  (forall x, x ∈ addrs c a bs -> m' !! x = m !! x) ->
  seg c m a bs e -> seg c m' a bs e.
Proof.
  revert a. induction bs as [|b bs IH]; intros a Hx Hs; cbn [seg addrs] in *.
  - exact I.
  - destruct Hs as (Ha & Hb & Hs). split; [|split].
    + rewrite Hx by (apply elem_of_cons; left; reflexivity). exact Ha.
    + exact Hb.
    + apply IH; [|exact Hs]. intros x Hin. apply Hx.
      apply elem_of_cons. right. exact Hin.
Qed.

(** Bytes copied into the payload of a block of the chain, no more than
    the block holds, leave every header of the chain alone. *)
Lemma memcpy_chain s P k f Q n :
  chain c s (P ++ (k, f) :: Q) -> n <= k ->
  chain c (with_buffer s
             (memcpy c (buffer s) (heap_base + span c P + HDR c) n))
        (P ++ (k, f) :: Q).
Proof.
  intros (Hne & Hs & Hl & Hsp) Hn.
  split; [exact Hne|]. split; [|split; [exact Hl | exact Hsp]].
  cbn [buffer with_buffer]. apply (seg_cells (buffer s)); [|exact Hs].
  intros x Hin. apply lookup_memcpy. unfold untouched.
  apply seg_app in Hs as [HsP HsQ]. cbn [seg fst] in HsQ.
  destruct HsQ as (_ & Hk & HsQ).
  rewrite addrs_app in Hin. cbn [addrs fst] in Hin.
  apply elem_of_app in Hin as [Hin | Hin].
  - pose proof (addrs_range _ _ _ _ _ HsP Hin). right. left. lia.
  - apply elem_of_cons in Hin as [-> | Hin].
    + right. left. lia.
    + pose proof (addrs_range _ _ _ _ _ HsQ Hin). right. right. lia.
Qed.

(** The block [my_malloc] hands out is an allocated block of the new
    chain, at least as large as the request. *)
Lemma served_block sz bs P0 bs1 :
  served c sz bs P0 bs1 ->
  exists k Q0, bs1 = P0 ++ (k, false) :: Q0 /\ sz <= k.
Proof.
  intros [bs' _ | pre b post _ Hb _ | pre b post _ _ _].
  - exists sz, []. split; [reflexivity | lia].
  - exists b.1, post. split; [reflexivity|].
    unfold fits in Hb. apply andb_true_iff in Hb as [_ Hb].
    apply Z.leb_le in Hb. exact Hb.
  - exists sz, ((b.1 - sz - HDR c, true) :: post).
    split; [reflexivity | lia].
Qed.

(** The fallback of [my_realloc] for a block that grows: allocate
    elsewhere, copy, then free the old block. *)
Lemma move_step s bs P have Q sz fuel :
  first s = false -> chain c s bs -> accounted c s bs ->
  bs = P ++ (have, false) :: Q ->
  0 < sz < SIZE_MOD -> have <= sz ->
  fit_ok c sz bs ->
  (S (length bs) < fuel)%nat ->
  exists s' r bs',
    move c fuel s (heap_base + span c P) sz = Ok (s', r)
    /\ models c s' bs' /\ accounted c s' bs'.
Proof.
  intros Hfirst Hch Hacc Hbs Hsz Hhave Hok Hfuel.
  destruct (malloc_step s bs sz fuel) as
    (s1 & P0 & bs1 & Hr1 & Hf1 & Hc1 & Ha1 & Hserved);
    try assumption; [right; split; assumption | lia |].
  destruct (served_keeps_block _ _ _ _ _ _ _ Hserved Hbs)
    as (P1 & Q1 & Hbs1 & Hsp1).
  destruct (served_block _ _ _ _ Hserved) as (k & Q0 & Hbs0 & Hk).
  pose proof (served_length _ _ _ _ Hserved) as Hlen1.
  (* the old block is still there *)
  pose proof Hc1 as (_ & Hold & _). rewrite Hbs1 in Hold.
  apply seg_lookup in Hold. cbn [fst snd] in Hold. rewrite Hsp1 in Hold.
  (* the copy stays inside the new block *)
  pose proof Hc1 as Hc2. rewrite Hbs0 in Hc2.
  apply (memcpy_chain _ _ _ _ _ have) in Hc2; [|lia].
  rewrite <- Hbs0 in Hc2.
  set (s2 := with_buffer s1 _) in Hc2.
  assert (Ha2 : accounted c s2 bs1) by exact Ha1.
  assert (Hf2 : first s2 = false) by exact Hf1.
  assert (Hfree_ok :
    free_ok c (Some (heap_base + span c P + HDR c)) bs1).
  { intros pre b post Hdec Hoff.
    pose proof (chain_sizes _ _ Hc1) as Hall.
    pose proof Hall as Hall'. rewrite Hdec in Hall'.
    rewrite Hbs1 in Hall.
    apply Forall_app in Hall as [HP1 _].
    apply Forall_app in Hall' as [Hpre _].
    assert (Heq : b = (have, false)).
    { apply (block_by_offset pre P1 b post (have, false) Q1 Hpre HP1).
      - rewrite <- Hdec. exact Hbs1.
      - lia. }
    rewrite Heq. reflexivity. }
  destruct (free_step s2 bs1 _ fuel (or_intror (conj Hf2 Hc2)) Ha2 Hfree_ok)
    as (s3 & report & bs3 & Hr3 & Hm3 & Ha3); [lia|].
  unfold move. rewrite Hr1. cbn [bind].
  rewrite (load_Some _ _ _ Hold). cbn [bind deref size].
  fold s2. rewrite Hr3. cbn [bind].
  eexists _, _, bs3. split; [reflexivity|]. split; assumption.
Qed.

Lemma chain_cell s pre x post :
  chain c s (pre ++ x :: post) ->
  buffer s !! (heap_base + span c pre)
  = Some (Metadata x.1 x.2
            (link (heap_base + span c pre + HDR c + x.1) post None)).
Proof. intros (_ & Hs & _). apply (seg_lookup _ _ _ _ _ _ Hs). Qed.

Lemma chain_cell_next s pre x y post :
  chain c s (pre ++ x :: y :: post) ->
  buffer s !! (heap_base + span c pre + HDR c + x.1)
  = Some (Metadata y.1 y.2
            (link (heap_base + span c pre + HDR c + x.1 + HDR c + y.1)
                  post None)).
Proof.
  intros (_ & Hs & _).
  replace (pre ++ x :: y :: post) with ((pre ++ [x]) ++ y :: post) in Hs
    by (rewrite <- app_assoc; reflexivity).
  pose proof (seg_lookup _ _ _ _ _ _ Hs) as Hnext.
  rewrite span_app in Hnext. cbn [span] in Hnext.
  replace (heap_base + (span c pre + (HDR c + x.1 + 0)))
    with (heap_base + span c pre + HDR c + x.1) in Hnext by lia.
  exact Hnext.
Qed.

Lemma chain_with_freespace s bs v :
  chain c s bs -> chain c (with_freespace s v) bs.
Proof. intros H. exact H. Qed.

Lemma grows_here_room sz have r :
  0 <= have < sz -> sz < SIZE_MOD -> 0 <= r.1 -> HDR c + r.1 < SIZE_MOD ->
  grows_here c sz have r = true ->
  r.2 = true /\ HDR c <= sz - have /\ sz <= have + (HDR c + r.1).
Proof.
  intros Hh Hsz Hr0 Hr Hg. unfold grows_here in Hg.
  apply andb_true_iff in Hg as [Hr2 Hle]. apply Z.leb_le in Hle.
  rewrite wrap_wrap_sub in Hle. split; [exact Hr2|].
  destruct (Z_lt_le_dec (sz - have) (HDR c)) as [Hlt | Hge].
  - exfalso. unfold wrap in Hle.
    replace (sz - have - HDR c) with (sz - have - HDR c + SIZE_MOD - 1 * SIZE_MOD)
      in Hle by lia.
    unfold Z.sub at 1 in Hle. rewrite <- Z.mul_opp_l in Hle.
    rewrite Z_mod_plus_full in Hle. rewrite Z.mod_small in Hle; lia.
  - rewrite wrap_small in Hle by lia. lia.
Qed.

(** [my_realloc] keeps the invariant. *)
Lemma realloc_step s bs p sz fuel :
  models c s bs -> accounted c s bs ->
  0 <= sz < SIZE_MOD ->
  resize_ok c p sz bs ->
  (S (length bs) < fuel)%nat ->
  exists s' r bs',
    my_realloc c fuel s p sz = Ok (s', r)
    /\ models c s' bs' /\ accounted c s' bs'.
Proof.
  intros Hm Hacc Hsz Hok Hfuel. unfold my_realloc.
  destruct p as [a|].
  2:{ (* NULL: my_malloc *)
      destruct (Z.eq_dec sz 0) as [-> | Hnz].
      - exists s, (Ret None), bs. split; [reflexivity | split; assumption].
      - destruct Hok as [? | Hok]; [contradiction|].
        destruct (malloc_step s bs sz fuel Hm Hacc) as
          (s' & p' & bs' & Hr & Hf & Hc & Ha & _); [lia | exact Hok | lia |].
        rewrite Hr. eexists s', (Ret (Some _)), bs'.
        split; [reflexivity|]. split; [right; split; assumption | exact Ha]. }
  cbn [resize_ok] in Hok. destruct (sz =? 0) eqn:E0.
  { (* size 0: my_free *)
    destruct (free_step s bs (Some a) fuel Hm Hacc Hok) as
      (s' & rep & bs' & Hr & Hm' & Ha'); [lia|].
    rewrite Hr. exists s', (Ret None), bs'.
    split; [reflexivity | split; assumption]. }
  apply Z.eqb_neq in E0.
  destruct Hok as (pre & have & post & -> & Hoff & Hcase).
  destruct Hm as [[_ Hnil] | [Hfirst Hch]].
  { apply app_eq_nil in Hnil as [_ Hnil]. discriminate. }
  pose proof (chain_sizes _ _ Hch) as Hall.
  pose proof (accounted_free_sum _ _ Hacc) as Hfs.
  pose proof (free_sum_nonneg _ Hall) as Hfree0.
  pose proof (alloc_sum_nonneg _ Hall) as Halloc0.
  assert (Hhl : 0 <= HDR c * Z.of_nat (length (pre ++ (have, false) :: post)))
    by (apply Z.mul_nonneg_nonneg; lia).
  pose proof Hacc as [Hacc1 Hin].
  assert (Hfs_hi : freespace s <= BUFF_SIZE c) by lia.
  assert (Hfs_lo : 0 <= freespace s) by lia.
  pose proof (chain_block_bounds _ _ _ _ _ Hch eq_refl) as (Hp0 & Hb0 & Hfit).
  cbn [fst] in Hb0, Hfit.
  rewrite Hoff.
  pose proof Hch as (_ & Hs & _).
  pose proof (seg_lookup _ _ _ _ _ _ Hs) as Hcell. cbn [fst snd] in Hcell.
  rewrite (load_Some _ _ _ Hcell). fields.
  rewrite length_app, alloc_sum_app in Hacc1.
  cbn [length alloc_sum snd fst] in Hacc1.
  rewrite span_app in Hin. cbn [span fst] in Hin.
  apply Forall_app in Hall as [Hpre Hpost].
  inversion Hpost as [|? ? Hb Hpost']; subst.
  pose proof (alloc_sum_nonneg _ Hpre) as Hapre.
  pose proof (alloc_sum_nonneg _ Hpost') as Hapost.
  pose proof (span_sizes _ Hpost') as Hspost.
  destruct (have <? sz) eqn:Elt.
  - (* grow *)
    apply Z.ltb_lt in Elt.
    destruct post as [|r post']; [contradiction|].
    cbn [link]. fields.
    replace (pre ++ (have, false) :: r :: post')
      with ((pre ++ [(have, false)]) ++ r :: post') in Hs
      by (rewrite <- app_assoc; reflexivity).
    pose proof (seg_lookup _ _ _ _ _ _ Hs) as Hnext.
    rewrite span_app in Hnext. cbn [span fst] in Hnext.
    replace (heap_base + (span c pre + (HDR c + have + 0)))
      with (heap_base + span c pre + HDR c + have) in Hnext by lia.
    rewrite (load_Some _ _ _ Hnext). fields.
    inversion Hpost' as [|? ? Hr Hpost'']; subst.
    cbn [span] in Hin, Hspost, Hfit.
    pose proof (span_sizes _ Hpost'') as Hspost'.
    fold (grows_here c sz have r).
    destruct (grows_here c sz have r) eqn:Eg.
    + (* in place *)
      destruct (grows_here_room sz have r) as (Hr2 & Hgap & Hcover);
        try lia; try assumption.
      set (a0 := heap_base + span c pre) in *.
      cbn [link] in Hcell.
      assert (Hblock : r.1 <= free_sum (pre ++ (have, false) :: r :: post')).
      { replace (pre ++ (have, false) :: r :: post')
          with ((pre ++ [(have, false)]) ++ r :: post')
          by (rewrite <- app_assoc; reflexivity).
        apply free_sum_block; [|exact Hr2].
        rewrite <- app_assoc. apply (chain_sizes _ _ Hch). }
      crank. rewrite Hcell. crank. rewrite Hnext. crank.
      rewrite wrap_add_wrap.
      rewrite (wrap_small (have + (HDR c + r.1))) by lia.
      pose proof (grow_chain s pre (have, false) r post'
                    (wrap (freespace s - r.1)) Hch) as Hch2.
      cbn [fst snd] in Hch2. fold a0 in Hch2.
      set (s2 := Heap _ _ _ _) in *.
      rewrite span_app in Hfs. cbn [span fst] in Hfs.
      cbn [alloc_sum length] in Hacc1. rewrite Hr2 in Hacc1.
      fold (splits c sz (have + (HDR c + r.1))).
      destruct (splits c sz (have + (HDR c + r.1))) eqn:Esp.
      * (* and split *)
        specialize (Hcase eq_refl).
        destruct (split_chain s2 pre (have + (HDR c + r.1), false) post' sz
                    Hch2) as (s3 & Hr3 & Hc3 & Hfs3 & Hfi3);
          [lia | cbn [fst]; lia |].
        fold a0 in Hr3. rewrite Hr3. fields. cbn [fst snd] in Hc3.
        pose proof (chain_cell _ _ _ _ Hc3) as Hc3a.
        pose proof (chain_cell_next _ _ _ _ _ Hc3) as Hc3b.
        fold a0 in Hc3a, Hc3b. cbn [fst snd link] in Hc3a, Hc3b.
        rewrite Hc3a. fields. rewrite Hc3b. fields.
        eexists _, _, _. split; [reflexivity|]. split.
        -- right. split; [fields; rewrite Hfi3; exact Hfirst|].
           apply chain_with_freespace. exact Hc3.
        -- split.
           ++ fields. rewrite Hfs3. unfold s2. fields.
              rewrite (wrap_small (freespace s - r.1)) by lia.
              rewrite wrap_small by lia.
              rewrite length_app, alloc_sum_app.
              cbn [length alloc_sum snd fst]. lia.
           ++ rewrite span_app. cbn [span fst]. lia.
      * (* kept whole *)
        eexists _, _, _. split; [reflexivity|]. split.
        -- right. split; [exact Hfirst | exact Hch2].
        -- split.
           ++ unfold s2. fields. rewrite wrap_small by lia.
              rewrite length_app, alloc_sum_app.
              cbn [length alloc_sum snd fst]. lia.
           ++ rewrite span_app. cbn [span fst]. lia.
    + (* moved *)
      apply (move_step s _ pre have (r :: post') sz fuel Hfirst Hch Hacc
               eq_refl); [lia | lia | exact Hcase | exact Hfuel].
  - destruct (sz <? have) eqn:Egt.
    + (* shrink *)
      apply Z.ltb_lt in Egt.
      destruct Hcase as [Esp Hroom].
      fold (splits c sz have). rewrite Esp.
      * (* split in place *)
        destruct (split_chain s pre (have, false) post sz Hch)
          as (s1 & Hr1 & Hc1 & Hfs1 & Hfi1); [lia | cbn [fst]; lia |].
        rewrite Hr1. fields. cbn [fst snd] in Hc1.
        pose proof (chain_cell _ _ _ _ Hc1) as Hc1a.
        pose proof (chain_cell_next _ _ _ _ _ Hc1) as Hc1b.
        cbn [fst snd link] in Hc1a, Hc1b.
        unfold load. rewrite Hc1a. fields. rewrite Hc1b. fields.
        eexists _, _, _. split; [reflexivity|]. split.
        -- right. split; [fields; rewrite Hfi1; exact Hfirst|].
           apply chain_with_freespace. exact Hc1.
        -- split.
           ++ fields. rewrite Hfs1. rewrite wrap_small by lia.
              rewrite length_app, alloc_sum_app.
              cbn [length alloc_sum snd fst]. lia.
           ++ rewrite span_app. cbn [span fst]. lia.
    + (* same size *)
      exists s, NoReturn, (pre ++ (have, false) :: post).
      split; [reflexivity|]. split; [right; split; assumption | exact Hacc].
Qed.

(** ** Sequences of calls *)

Lemma request_step s bs r fuel :
  models c s bs -> accounted c s bs ->
  request_ok c r bs ->
  (S (length bs) < fuel)%nat ->
  exists s' bs',
    serve c fuel r s = Ok s' /\ models c s' bs' /\ accounted c s' bs'.
Proof.
  intros Hm Hacc Hok Hfuel. destruct r as [sz | p | p sz]; cbn [serve].
  - destruct Hok as [Hsz [-> | Hok]].
    + exists s, bs. split; [reflexivity | split; assumption].
    + destruct (Z.eq_dec sz 0) as [-> | Hnz].
      * exists s, bs. split; [reflexivity | split; assumption].
      * destruct (malloc_step s bs sz fuel Hm Hacc) as
          (s' & P & bs' & Hr & Hf & Hc & Ha & _); [lia | exact Hok | lia |].
        rewrite Hr. exists s', bs'.
        split; [reflexivity|]. split; [right; split; assumption | exact Ha].
  - destruct (free_step s bs p fuel Hm Hacc Hok) as
      (s' & rep & bs' & Hr & Hm' & Ha'); [lia|].
    rewrite Hr. exists s', bs'. split; [reflexivity | split; assumption].
  - destruct Hok as [Hsz Hok].
    destruct (realloc_step s bs p sz fuel Hm Hacc Hsz Hok Hfuel) as
      (s' & rv & bs' & Hr & Hm' & Ha').
    rewrite Hr. exists s', bs'. split; [reflexivity | split; assumption].
Qed.

Lemma requests_ok_prefix fuel rs1 rs2 :
  forall s, requests_ok c fuel (rs1 ++ rs2) s -> requests_ok c fuel rs1 s.
Proof.
  induction rs1 as [|r rs1 IH]; intros s H; [exact I|].
  destruct H as [H1 H2]. split; [exact H1|].
  intros s' Hs'. apply IH. apply H2. exact Hs'.
Qed.

Lemma serve_all_invariant fuel rs :
  forall s bs,
    models c s bs -> accounted c s bs ->
    requests_ok c fuel rs s ->
    exists s' bs',
      serve_all c fuel rs s = Ok s' /\ models c s' bs' /\ accounted c s' bs'.
Proof.
  induction rs as [|r rs IH]; intros s bs Hm Hacc Hok.
  - exists s, bs. split; [reflexivity | split; assumption].
  - destruct Hok as [Hr Hrest]. destruct (Hr bs Hm) as [Hrok Hfuel].
    destruct (request_step s bs r fuel Hm Hacc Hrok Hfuel)
      as (s1 & bs1 & Hs1 & Hm1 & Ha1).
    cbn [serve_all]. rewrite Hs1. cbn [bind].
    apply (IH s1 bs1 Hm1 Ha1). apply Hrest. exact Hs1.
Qed.

(** C1 (amended). Starting from the initial buffer, after every prefix of
    a sequence of calls that are each served well (valid pointers, no block
    freed twice, no block placed past the end of the buffer, every split
    leaving room for its header, no fit handed out with bytes to spare, a
    block that grows having a successor and one that shrinks being split
    in place), the counter plus the payload of the allocated blocks plus
    one header per block is the capacity. *)
Theorem conservation fuel rs1 rs2 :
  requests_ok c fuel (rs1 ++ rs2) (initial c) ->
  exists s bs,
    serve_all c fuel rs1 (initial c) = Ok s
    /\ models c s bs
    /\ free_space_in_my_heap s + alloc_sum bs
       + HDR c * Z.of_nat (length bs)
       = BUFF_SIZE c.
Proof.
  intros Hok. apply requests_ok_prefix in Hok.
  destruct models_initial as [Hm0 Ha0].
  destruct (serve_all_invariant fuel rs1 _ _ Hm0 Ha0 Hok)
    as (s & bs & Hrun & Hm & [Hfs _]).
  exists s, bs. split; [exact Hrun|]. split; [exact Hm|].
  unfold free_space_in_my_heap. rewrite Hfs. lia.
Qed.

(** C4 (amended). Along the same sequences the counter is the payload of
    the free blocks plus the bytes of the buffer that lie past the last
    block; before the first allocation that is the whole capacity. *)
Theorem freespace_counts_free_and_unused fuel rs1 rs2 :
  requests_ok c fuel (rs1 ++ rs2) (initial c) ->
  exists s bs,
    serve_all c fuel rs1 (initial c) = Ok s
    /\ models c s bs
    /\ free_space_in_my_heap s = free_sum bs + (BUFF_SIZE c - span c bs)
    /\ span c bs <= BUFF_SIZE c.
Proof.
  intros Hok. apply requests_ok_prefix in Hok.
  destruct models_initial as [Hm0 Ha0].
  destruct (serve_all_invariant fuel rs1 _ _ Hm0 Ha0 Hok)
    as (s & bs & Hrun & Hm & Ha).
  exists s, bs. split; [exact Hrun|]. split; [exact Hm|].
  split; [apply accounted_free_sum; exact Ha | apply Ha].
Qed.

(** A state has one chain. *)
Lemma seg_unique m bs :
  forall a bs', seg c m a bs None -> seg c m a bs' None ->
                bs <> [] -> bs' <> [] -> bs = bs'.
Proof.
  induction bs as [|b bs IH]; intros a bs' Hs Hs' Hne Hne'; [contradiction|].
  destruct bs' as [|b' bs']; [contradiction|].
  destruct Hs as (Ha & _ & Hrest). destruct Hs' as (Ha' & _ & Hrest').
  rewrite Ha in Ha'. injection Ha' as H1 H2 H3.
  assert (b = b') as <- by (destruct b, b'; cbn in *; congruence).
  f_equal. destruct bs as [|x bs]; destruct bs' as [|x' bs'];
    try reflexivity; try discriminate.
  apply (IH (a + HDR c + b.1)); try assumption; discriminate.
Qed.

Lemma models_unique s bs bs' : models c s bs -> models c s bs' -> bs = bs'.
Proof.
  intros [[-> ->] | [Hf (Hne & Hs & _)]] [[Hi ->] | [Hf' (Hne' & Hs' & _)]].
  - reflexivity.
  - discriminate.
  - rewrite Hi in Hf. discriminate.
  - apply (seg_unique _ _ _ _ Hs Hs' Hne Hne').
Qed.

Lemma requests_ok_cons fuel r rs s bs s1 :
  models c s bs ->
  request_ok c r bs ->
  (S (length bs) < fuel)%nat ->
  serve c fuel r s = Ok s1 ->
  requests_ok c fuel rs s1 ->
  requests_ok c fuel (r :: rs) s.
Proof.
  intros Hm Hok Hfuel Hserve Hrest. split.
  - intros bs' Hm'. rewrite (models_unique _ _ _ Hm' Hm). split; assumption.
  - intros s' Hs'. rewrite Hserve in Hs'. injection Hs' as <-. exact Hrest.
Qed.

(** ** Allocate, then free *)

Lemma naf_app_r l1 l2 : no_adjacent_free (l1 ++ l2) -> no_adjacent_free l2.
Proof.
  induction l1 as [|p l1 IH]; intros H; [exact H|].
  apply IH. cbn [app] in H. destruct (l1 ++ l2); [exact I | apply H].
Qed.

Lemma naf_resize pre x y f post :
  no_adjacent_free (pre ++ (x, f) :: post) ->
  no_adjacent_free (pre ++ (y, f) :: post).
Proof.
  induction pre as [|p pre IH]; intros H.
  - cbn [app] in *. destruct post; [exact I | exact H].
  - cbn [app] in *. destruct pre as [|q pre].
    + cbn [app] in *. destruct H as [H1 H2]. split; [exact H1|].
      apply IH. exact H2.
    + cbn [app] in *. destruct H as [H1 H2]. split; [exact H1|].
      apply IH. exact H2.
Qed.

Lemma naf_middle pre b post :
  no_adjacent_free (pre ++ b :: post) -> b.2 = true ->
  tail_free pre = false /\ free_run post = [] /\ after_run post = post.
Proof.
  intros H Hb. split.
  - induction pre as [|p pre IH]; [reflexivity|].
    cbn [app] in H. destruct pre as [|q pre].
    + cbn [app tail_free] in *. destruct H as [H _].
      destruct (p.2); [exfalso; apply H; split; [reflexivity | exact Hb]
                      | reflexivity].
    + cbn [tail_free]. apply IH. apply H.
  - apply naf_app_r in H. destruct post as [|r post]; [split; reflexivity|].
    destruct H as [H _]. cbn [free_run after_run].
    destruct (r.2); [exfalso; apply H; split; [exact Hb | reflexivity]|].
    split; reflexivity.
Qed.

Lemma naf_snoc bs x :
  no_adjacent_free bs -> tail_free bs = false ->
  no_adjacent_free (bs ++ [x]).
Proof.
  induction bs as [|p bs IH]; intros H Ht; [exact I|].
  cbn [app]. destruct bs as [|q bs].
  - cbn [app tail_free] in *. split; [|exact I].
    intros [Hp _]. congruence.
  - cbn [app] in *. destruct H as [H1 H2]. split; [exact H1|].
    apply IH; assumption.
Qed.

Lemma naf_snoc_free bs t x :
  no_adjacent_free (bs ++ [t]) -> t.2 = true ->
  no_adjacent_free (bs ++ [(x, true)]).
Proof.
  intros H Ht. apply (naf_resize bs t.1 x true []).
  rewrite <- Ht, blk_eta. exact H.
Qed.

Lemma merge_prev_keep pre l :
  tail_free pre = false -> merge_prev c pre l = pre ++ l.
Proof.
  induction pre as [|p pre IH]; intros Ht; [reflexivity|].
  cbn [merge_prev app]. destruct pre as [|q pre].
  - cbn [tail_free] in Ht. rewrite Ht. reflexivity.
  - rewrite IH by exact Ht. reflexivity.
Qed.

Lemma tail_free_snoc bs t : tail_free (bs ++ [t]) = t.2.
Proof.
  induction bs as [|p bs IH]; [reflexivity|].
  cbn [app tail_free]. rewrite IH.
  destruct (bs ++ [t]) eqn:E; [|reflexivity].
  apply app_eq_nil in E as [_ E]. discriminate.
Qed.

Lemma first_fit_size_none sz bs :
  Forall (fun x => fits sz x = false) bs -> first_fit_size sz bs = None.
Proof.
  induction 1 as [|b bs Hb _ IH]; [reflexivity|].
  cbn [first_fit_size]. rewrite Hb. exact IH.
Qed.

Lemma first_fit_size_some sz pre b post :
  Forall (fun x => fits sz x = false) pre -> fits sz b = true ->
  first_fit_size sz (pre ++ b :: post) = Some b.1.
Proof.
  intros Hpre Hb. induction Hpre as [|p pre Hp _ IH].
  - cbn [app first_fit_size]. rewrite Hb. reflexivity.
  - cbn [app first_fit_size]. rewrite Hp. exact IH.
Qed.

(** [my_free] of an allocated block of the chain, with the chain it
    leaves. *)
Lemma free_step_valid s pre have post fuel :
  first s = false ->
  chain c s (pre ++ (have, false) :: post) ->
  accounted c s (pre ++ (have, false) :: post) ->
  (length (pre ++ (have, false) :: post) <= fuel)%nat ->
  exists s',
    my_free c fuel s (Some (heap_base + span c pre + HDR c))
    = Ok (s', Freed have)
    /\ first s' = false
    /\ chain c s' (free_blocks c pre (have, false) post)
    /\ accounted c s' (free_blocks c pre (have, false) post).
Proof.
  intros Hfirst Hch Hacc Hfuel.
  pose proof (chain_sizes _ _ Hch) as Hall.
  pose proof (accounted_free_sum _ _ Hacc) as Hfs.
  pose proof (free_sum_nonneg _ Hall) as Hfree0.
  pose proof (alloc_sum_nonneg _ Hall) as Halloc0.
  assert (Hhl : 0 <= HDR c * Z.of_nat (length (pre ++ (have, false) :: post)))
    by (apply Z.mul_nonneg_nonneg; lia).
  destruct Hacc as [Hacc Hin].
  assert (Hfs_lo : 0 <= freespace s) by lia.
  destruct (my_free_valid s pre (have, false) post fuel Hch Hfuel)
    as (s' & Hr & Hf).
  exists s'. split; [exact Hr|].
  rewrite length_app, alloc_sum_app in Hacc.
  cbn [length alloc_sum snd fst] in Hacc.
  apply Forall_app in Hall as [Hpre Hpost].
  inversion Hpost as [|? ? Hb Hpost']; subst.
  pose proof (alloc_sum_nonneg _ Hpre). pose proof (alloc_sum_nonneg _ Hpost').
  assert (Hhl' : 0 <= HDR c * Z.of_nat (length pre + S (length post)))
    by (apply Z.mul_nonneg_nonneg; lia).
  pose proof Hf as (Hs' & Hl & _ & Hfi & _).
  split; [cbn [first with_freespace] in Hfi; congruence|]. split.
  - apply shape_chain; [exact Hs'|]. apply Hl. cbn [last with_freespace].
    destruct Hch as (_ & _ & -> & _). eexists; reflexivity.
  - apply (fused_accounted _ _ _ _ Hf).
    + cbn [freespace with_freespace]. apply wrap_range.
    + cbn [freespace with_freespace fst]. cbn [fst] in Hb.
      rewrite wrap_small by lia.
      rewrite alloc_sum_free_blocks, length_app. cbn [length]. lia.
    + rewrite span_free_blocks. exact Hin.
Qed.

Lemma length_free_blocks_middle pre x f post :
  no_adjacent_free (pre ++ (x, true) :: post) ->
  length (free_blocks c pre (x, f) post)
  = length (pre ++ (x, true) :: post).
Proof.
  intros Hn. destruct (naf_middle _ _ _ Hn eq_refl) as (Ht & Hrun & Hafter).
  unfold free_blocks, absorb. cbn [fst snd]. rewrite Hrun, Hafter.
  rewrite merge_prev_keep by exact Ht.
  rewrite coalesce_id; [rewrite !length_app; reflexivity|].
  apply (naf_resize pre x). exact Hn.
Qed.

Lemma length_free_blocks_tail bs x :
  no_adjacent_free bs ->
  length (free_blocks c bs (x, false) [])
  = if tail_free bs then length bs else S (length bs).
Proof.
  intros Hn. unfold free_blocks, absorb. cbn [free_run after_run span fst snd].
  destruct (tail_free bs) eqn:Ht.
  - destruct (snoc_cases bs) as [-> | (bs' & t & ->)]; [discriminate|].
    rewrite tail_free_snoc in Ht.
    rewrite merge_prev_snoc, Ht. unfold absorb.
    cbn [free_run after_run snd]. rewrite Ht.
    rewrite coalesce_id; [rewrite !length_app; reflexivity|].
    apply (naf_snoc_free bs' t); assumption.
  - rewrite merge_prev_keep by exact Ht.
    rewrite coalesce_id; [rewrite length_app; cbn [length]; lia|].
    apply naf_snoc; assumption.
Qed.

Lemma length_free_blocks_split pre x y post :
  no_adjacent_free (pre ++ (x + (HDR c + y), true) :: post) ->
  length (free_blocks c pre (x, false) ((y, true) :: post))
  = length (pre ++ (x + (HDR c + y), true) :: post).
Proof.
  intros Hn. destruct (naf_middle _ _ _ Hn eq_refl) as (Ht & Hrun & Hafter).
  unfold free_blocks, absorb. cbn [free_run after_run fst snd span].
  rewrite Hrun, Hafter. cbn [span].
  rewrite merge_prev_keep by exact Ht.
  rewrite coalesce_id; [rewrite !length_app; reflexivity|].
  apply (naf_resize pre (x + (HDR c + y))). exact Hn.
Qed.

(** C5 (amended). In a state reached by well-served calls whose chain has
    no two free neighbours, [my_malloc(n)] followed at once by [my_free]
    of the pointer it returned restores the counter when the block came
    from a free block (taken whole at exactly [n] bytes, or split with room
    for the new header) or was appended after a free tail block; when it
    was appended after an allocated tail block, or is the first block of
    the buffer, the counter ends exactly one header lower. *)
Theorem round_trip s bs n fuel :
  models c s bs -> accounted c s bs ->
  no_adjacent_free bs ->
  0 < n < SIZE_MOD ->
  fit_ok c n bs ->
  (S (length bs) < fuel)%nat ->
  exists s1 p s2 report,
    my_malloc c fuel s n = Ok (s1, Some p)
    /\ my_free c fuel s1 (Some p) = Ok (s2, report)
    /\ free_space_in_my_heap s2
       = free_space_in_my_heap s - round_trip_cost c n bs.
Proof.
  intros Hm Hacc Hn Hsz Hok Hfuel.
  destruct (malloc_step s bs n fuel Hm Hacc Hsz Hok) as
    (s1 & P & bs1 & Hr1 & Hf1 & Hc1 & Ha1 & Hserved); [lia|].
  destruct Hacc as [Hfs _]. unfold free_space_in_my_heap, round_trip_cost.
  destruct Hserved as [bs Hno | pre b post Hpre Hb Hsplit
                       | pre b post Hpre Hb Hsplit].
  - (* a new block at the tail *)
    destruct (free_step_valid s1 bs n [] fuel Hf1 Hc1 Ha1) as
      (s2 & Hr2 & _ & _ & [Hfs2 _]);
      [rewrite length_app; cbn [length]; lia|].
    exists s1, (heap_base + span c bs + HDR c), s2, (Freed n).
    split; [exact Hr1|]. split; [exact Hr2|].
    rewrite Hfs2, alloc_sum_free_blocks, length_free_blocks_tail by exact Hn.
    rewrite (first_fit_size_none _ _ Hno), Hfs.
    cbn [alloc_sum]. destruct (tail_free bs); lia.
  - (* the first fit, whole *)
    assert (Hb2 : b.2 = true)
      by (unfold fits in Hb; apply andb_true_iff in Hb; tauto).
    rewrite <- (blk_eta b), Hb2 in Hn.
    destruct (free_step_valid s1 pre b.1 post fuel Hf1 Hc1 Ha1) as
      (s2 & Hr2 & _ & _ & [Hfs2 _]);
      [rewrite length_app in *; cbn [length] in *; lia|].
    exists s1, (heap_base + span c pre + HDR c), s2, (Freed b.1).
    split; [exact Hr1|]. split; [exact Hr2|].
    rewrite Hfs2, alloc_sum_free_blocks.
    rewrite (length_free_blocks_middle _ _ _ _ Hn).
    rewrite (first_fit_size_some _ _ _ _ Hpre Hb), Hfs.
    rewrite !length_app, alloc_sum_app. cbn [length alloc_sum].
    rewrite Hb2. lia.
  - (* the first fit, split *)
    assert (Hb2 : b.2 = true)
      by (unfold fits in Hb; apply andb_true_iff in Hb; tauto).
    rewrite <- (blk_eta b), Hb2 in Hn.
    unfold fit_ok in Hok.
    rewrite (first_fit_size_some _ _ _ _ Hpre Hb), Hsplit in Hok.
    replace b.1 with (n + (HDR c + (b.1 - n - HDR c))) in Hn by lia.
    destruct (free_step_valid s1 pre n ((b.1 - n - HDR c, true) :: post)
                fuel Hf1 Hc1 Ha1) as (s2 & Hr2 & _ & _ & [Hfs2 _]);
      [rewrite length_app in *; cbn [length] in *; lia|].
    exists s1, (heap_base + span c pre + HDR c), s2, (Freed n).
    split; [exact Hr1|]. split; [exact Hr2|].
    rewrite Hfs2, alloc_sum_free_blocks.
    rewrite (length_free_blocks_split _ _ _ _ Hn).
    rewrite (first_fit_size_some _ _ _ _ Hpre Hb), Hfs.
    rewrite !length_app, !alloc_sum_app. cbn [length alloc_sum snd].
    rewrite Hb2. lia.
Qed.

(** ** The helpers on their own *)

Lemma addrs_elem bs :
  forall a x,
    x ∈ addrs c a bs
    <-> exists pre b post, bs = pre ++ b :: post /\ x = a + span c pre.
Proof.
  clear BUFF_SIZE_range HDR_range.
  induction bs as [|b bs IH]; intros a x; cbn [addrs].
  - split.
    + intros H. inversion H.
    + intros (pre & b & post & H & _). destruct pre; discriminate.
  - rewrite elem_of_cons, IH. split.
    + intros [-> | (pre & b' & post & -> & ->)].
      * exists [], b, bs. split; [reflexivity | cbn [span]; lia].
      * exists (b :: pre), b', post. split; [reflexivity | cbn [span]; lia].
    + intros (pre & b' & post & H & ->). destruct pre as [|p pre].
      * left. cbn [span]. lia.
      * cbn [app] in H. injection H as <- ->. right.
        exists pre, b', post. split; [reflexivity | cbn [span]; lia].
Qed.

Lemma fits_false sz (b : blk) :
  fits sz b = false <-> b.2 = false \/ b.1 < sz.
Proof.
  clear BUFF_SIZE_range HDR_range.
  unfold fits. rewrite andb_false_iff, Z.leb_gt. reflexivity.
Qed.

Lemma Forall_fits_false sz (bs : list blk) :
  Forall (fun x => fits sz x = false) bs
  <-> Forall (fun b : blk => b.2 = false \/ b.1 < sz) bs.
Proof.
  clear BUFF_SIZE_range HDR_range.
  apply Forall_iff. intros b. apply fits_false. Qed.

Lemma find_fit_None sz bs :
  forall a, find_fit c a sz bs = None
            <-> Forall (fun b : blk => b.2 = false \/ b.1 < sz) bs.
Proof.
  clear BUFF_SIZE_range HDR_range.
  induction bs as [|b bs IH]; intros a; cbn [find_fit].
  - split; [constructor | reflexivity].
  - fold (fits sz b). destruct (fits sz b) eqn:E.
    + split; [discriminate|]. intros H. inversion H as [|? ? Hb _]; subst.
      apply fits_false in Hb. congruence.
    + rewrite IH. split.
      * intros H. constructor; [apply fits_false; exact E | exact H].
      * intros H. inversion H; assumption.
Qed.

(** X1. [search_freespace] returns NULL exactly when every block of the
    chain is allocated or smaller than the request. *)
Theorem search_freespace_null_iff s bs sz fuel :
  shape c s bs -> (length bs <= fuel)%nat ->
  exists r,
    search_freespace fuel s sz = Ok r
    /\ (r = None <-> Forall (fun b : blk => b.2 = false \/ b.1 < sz) bs).
Proof.
  clear BUFF_SIZE_range HDR_range.
  intros (Hne & Hs & _) Hfuel.
  exists (find_fit c heap_base sz bs). split.
  - unfold search_freespace.
    replace (Some heap_base) with (link heap_base bs None)
      by (destruct bs; [contradiction | reflexivity]).
    apply search_loop_spec; assumption.
  - apply find_fit_None.
Qed.

(** X2. [verifyBlockAddress] answers 1 exactly for the headers of the
    chain, and then leaves in [*prev] the header just before the one
    asked for (it leaves [*prev] alone for the first header). *)
Theorem verifyBlockAddress_accepts_headers s bs x fuel :
  shape c s bs -> (length bs <= fuel)%nat ->
  exists valid prev,
    verifyBlockAddress fuel s x None = Ok (valid, prev)
    /\ (valid = true <-> x ∈ addrs c heap_base bs)
    /\ (forall pre b post,
          bs = pre ++ b :: post -> x = heap_base + span c pre ->
          prev = match pre with
                 | [] => None
                 | _ :: _ => Some (last_addr c heap_base pre)
                 end).
Proof.
  clear BUFF_SIZE_range HDR_range.
  intros (Hne & Hs & _) Hfuel.
  pose proof (seg_sizes _ _ _ _ Hs) as Hall.
  destruct (find_addr c heap_base x bs None) as [valid prev] eqn:E.
  exists valid, prev. split; [|split].
  - unfold verifyBlockAddress.
    replace (Some heap_base) with (link heap_base bs None)
      by (destruct bs; [contradiction | reflexivity]).
    rewrite (verify_loop_spec _ _ _ _ _ _ Hs Hfuel). rewrite E. reflexivity.
  - split.
    + intros ->. apply find_addr_true in E. apply addrs_elem. exact E.
    + intros Hin. apply addrs_elem in Hin as (pre & b & post & -> & ->).
      apply Forall_app in Hall as [Hpre _].
      rewrite (find_addr_hit pre _ b post None Hpre) in E.
      injection E as <- _. reflexivity.
  - intros pre b post -> ->.
    apply Forall_app in Hall as [Hpre _].
    rewrite (find_addr_hit pre _ b post None Hpre) in E.
    injection E as _ <-. reflexivity.
Qed.

(** X3. [fuse(ptr)] absorbs every free block that follows [ptr], up to
    the first allocated one: [ptr] grows by their payloads and headers,
    the counter by one header for each, and [ptr] becomes [last] when no
    block is left after it. *)
Theorem fuse_absorbs_free_successors s pre b rest fuel :
  shape c s (pre ++ b :: rest) ->
  (length (free_run rest) <= fuel)%nat ->
  exists s',
    fuse c fuel s (heap_base + span c pre) = Ok s'
    /\ shape c s' (pre ++ (b.1 + span c (free_run rest), b.2) :: after_run rest)
    /\ freespace s' = add_hdr c (length (free_run rest)) (freespace s)
    /\ (after_run rest = [] -> last s' = Some (heap_base + span c pre))
    /\ (after_run rest <> [] -> last s' = last s).
Proof.
  clear BUFF_SIZE_range HDR_range.
  intros Hsh Hfuel.
  destruct (fuse_shape s pre b rest fuel Hsh Hfuel)
    as (s' & Hr & Hsh' & _ & Hfs & _).
  exists s'. split; [exact Hr|]. split; [exact Hsh'|]. split; [exact Hfs|].
  destruct Hsh as (_ & Hs & _ & Hsp).
  apply seg_app in Hs as [Hs1 Hs2].
  pose proof (seg_sizes _ _ _ _ Hs1) as Hpre.
  pose proof (span_sizes _ Hpre) as Hpre0.
  rewrite span_app in Hsp.
  rewrite (fuse_seg s _ b rest fuel Hs2) in Hr by (unfold heap_base in *; lia || assumption).
  injection Hr as <-. cbn [last].
  destruct (after_run rest); split; congruence.
Qed.

(** X4. [deframent_my_heap] leaves no two free neighbours; it keeps the
    extent of the chain and the allocated payload, raises the counter by
    one header for each block it merges away, and changes nothing when
    no two neighbours were free. *)
Theorem deframent_merges_free_runs s bs fuel :
  shape c s bs -> (length bs <= fuel)%nat ->
  exists s' bs',
    deframent_my_heap c fuel s = Ok s'
    /\ shape c s' bs'
    /\ no_adjacent_free bs'
    /\ span c bs' = span c bs
    /\ alloc_sum bs' = alloc_sum bs
    /\ (length bs' <= length bs)%nat
    /\ freespace s' = add_hdr c (length bs - length bs') (freespace s)
    /\ (no_adjacent_free bs -> s' = s).
Proof.
  clear BUFF_SIZE_range HDR_range.
  intros Hsh Hfuel.
  destruct (deframent_shape s bs fuel Hsh Hfuel)
    as (s' & Hr & Hsh' & _ & Hfs & _).
  exists s', (coalesce c bs).
  split; [exact Hr|]. split; [exact Hsh'|].
  split; [apply coalesce_naf|]. split; [apply span_coalesce|].
  split; [apply alloc_sum_coalesce|]. split; [apply length_coalesce|].
  split; [exact Hfs|].
  intros Hnaf. rewrite (deframent_naf s bs fuel Hsh Hnaf Hfuel) in Hr.
  injection Hr as <-. reflexivity.
Qed.

(** X5. [deframent_my_heap] is idempotent: a second sweep right after
    the first changes nothing. *)
Theorem deframent_idempotent s bs fuel :
  shape c s bs -> (length bs <= fuel)%nat ->
  exists s',
    deframent_my_heap c fuel s = Ok s'
    /\ deframent_my_heap c fuel s' = Ok s'.
Proof.
  clear BUFF_SIZE_range HDR_range.
  intros Hsh Hfuel.
  destruct (deframent_shape s bs fuel Hsh Hfuel)
    as (s' & Hr & Hsh' & _).
  exists s'. split; [exact Hr|].
  apply (deframent_naf s' (coalesce c bs)); [exact Hsh' | apply coalesce_naf |].
  pose proof (length_coalesce bs). lia.
Qed.

Lemma after_run_no_run (l : list blk) : free_run l = [] -> after_run l = l.
Proof.
  clear BUFF_SIZE_range HDR_range.
  destruct l as [|b l]; [reflexivity|]. cbn [free_run after_run].
  destruct b.2; [discriminate | reflexivity].
Qed.

(** X6. [split] followed by [fuse] on the same block gives the chain
    back, when the block that follows is not free; the counter ends one
    header higher, since [split] does not charge the header it adds. *)
Theorem split_then_fuse s pre b post sz fuel :
  chain c s (pre ++ b :: post) ->
  0 <= sz -> sz + HDR c <= b.1 ->
  free_run post = [] ->
  (1 <= fuel)%nat ->
  exists s1 s2,
    split c s (heap_base + span c pre) sz = Ok s1
    /\ fuse c fuel s1 (heap_base + span c pre) = Ok s2
    /\ chain c s2 (pre ++ b :: post)
    /\ freespace s2 = wrap (freespace s + HDR c).
Proof.
  clear BUFF_SIZE_range HDR_range.
  intros Hch Hsz Hroom Hrun Hfuel.
  destruct (split_chain s pre b post sz Hch Hsz Hroom)
    as (s1 & Hr1 & Hc1 & Hfs1 & _).
  destruct (fuse_shape s1 pre (sz, b.2) ((b.1 - sz - HDR c, true) :: post)
              fuel (chain_shape _ _ Hc1))
    as (s2 & Hr2 & Hsh2 & Hl2 & Hfs2 & _).
  { cbn [free_run snd]. rewrite Hrun. cbn [length]. lia. }
  exists s1, s2. split; [exact Hr1|]. split; [exact Hr2|].
  cbn [free_run after_run snd fst] in Hsh2, Hfs2.
  rewrite Hrun in Hsh2, Hfs2. rewrite (after_run_no_run _ Hrun) in Hsh2.
  cbn [span fst length add_hdr] in Hsh2, Hfs2.
  replace (sz + (HDR c + (b.1 - sz - HDR c) + 0)) with b.1 in Hsh2 by lia.
  rewrite blk_eta in Hsh2. split.
  - apply shape_chain; [exact Hsh2|]. apply Hl2.
    destruct Hc1 as (_ & _ & -> & _). eexists. reflexivity.
  - rewrite Hfs2, Hfs1. reflexivity.
Qed.

(** ** [my_malloc], [my_free] and [my_realloc] at their edges *)

(** [my_malloc] returns a pointer for every size but 0. *)
Lemma my_malloc_pointer s bs sz fuel :
  models c s bs -> 0 < sz -> (length bs <= fuel)%nat ->
  exists s' p, my_malloc c fuel s sz = Ok (s', Some p).
Proof.
  clear BUFF_SIZE_range HDR_range.
  intros Hm Hsz Hfuel. unfold my_malloc.
  replace (sz =? 0) with false by (symmetry; apply Z.eqb_neq; lia).
  destruct Hm as [[-> ->] | [Hfirst Hch]].
  - cbn [initial first negb]. fields. eexists _, _. reflexivity.
  - rewrite Hfirst. cbn [negb]. unfold search_freespace.
    pose proof Hch as (Hne & Hs & Hl & Hsp).
    replace (Some heap_base) with (link heap_base bs None)
      by (destruct bs; [contradiction | reflexivity]).
    rewrite (search_loop_spec _ _ _ _ _ Hs Hfuel).
    destruct (fit_cases sz bs)
      as [[Hno _] | (pre & b & post & -> & Hb & Hpre & _)].
    + rewrite (find_fit_none _ _ Hno). fields. rewrite Hl. fields.
      destruct (snoc_cases bs) as [-> | (pre & t & ->)]; [contradiction|].
      rewrite last_addr_snoc.
      pose proof (seg_lookup _ _ _ _ _ _ Hs) as Hcell.
      rewrite (load_Some _ _ _ Hcell). fields.
      eexists _, _. reflexivity.
    + rewrite (find_fit_some _ _ _ _ Hpre Hb). fields.
      pose proof (chain_block_bounds _ _ _ _ _ Hch eq_refl)
        as (Hp0 & Hb0 & Hfit).
      pose proof (seg_lookup _ _ _ _ _ _ Hs) as Hcell.
      rewrite (load_Some _ _ _ Hcell). fields.
      unfold fits in Hb. apply andb_true_iff in Hb as [_ Hb].
      apply Z.leb_le in Hb.
      destruct (wrap (sz + THRESHOLD c) <=? b.1).
      * assert (Hw : wrap (HDR c + sz) = HDR c + sz)
          by (apply wrap_small; unfold heap_base in *; lia).
        rewrite (split_buffer (with_freespace s _) _ _ _ Hcell)
          by (rewrite Hw; lia).
        crank. eexists _, _. reflexivity.
      * fields. eexists _, _. reflexivity.
Qed.

(** X7. [my_malloc] returns NULL for size 0 only, and then changes
    nothing: it has no out-of-memory outcome.  For every other size it
    returns a non-null pointer, in every state a chain describes and
    before the first allocation. *)
Theorem my_malloc_never_null s bs sz fuel :
  models c s bs -> (length bs <= fuel)%nat ->
  my_malloc c fuel s 0 = Ok (s, None)
  /\ (0 < sz -> exists s' p, my_malloc c fuel s sz = Ok (s', Some p)).
Proof.
  clear BUFF_SIZE_range HDR_range.
  intros Hm Hfuel. split; [reflexivity|].
  intros Hsz. apply (my_malloc_pointer s bs sz fuel Hm Hsz Hfuel).
Qed.

(** X8. When no free block fits, [my_malloc] puts the new block right
    after the last one without looking at the capacity: the counter goes
    down by the size and a header modulo 2^64, so that with less free
    space than that it comes out as a number close to 2^64. *)
Theorem my_malloc_appends_unchecked s bs sz fuel :
  first s = false -> chain c s bs ->
  0 < sz < SIZE_MOD ->
  Forall (fun b : blk => b.2 = false \/ b.1 < sz) bs ->
  span c bs + HDR c + sz < SIZE_MOD ->
  (length bs <= fuel)%nat ->
  exists s',
    my_malloc c fuel s sz = Ok (s', Some (heap_base + span c bs + HDR c))
    /\ chain c s' (bs ++ [(sz, false)])
    /\ freespace s' = wrap (freespace s - (sz + HDR c))
    /\ (0 <= freespace s < sz + HDR c ->
        freespace s' = SIZE_MOD - (sz + HDR c - freespace s)).
Proof.
  clear BUFF_SIZE_range HDR_range.
  intros Hfirst Hch Hsz Hno Hfit Hfuel.
  apply Forall_fits_false in Hno.
  destruct (my_malloc_extend s bs sz fuel Hfirst Hch Hsz Hno Hfit Hfuel)
    as (s' & Hr & _ & Hc' & Hfs).
  rewrite wrap_sub_wrap in Hfs.
  exists s'. split; [exact Hr|]. split; [exact Hc'|]. split; [exact Hfs|].
  intros Hlow. rewrite Hfs. unfold wrap.
  pose proof (chain_sizes _ _ Hch) as Hall.
  pose proof (span_sizes _ Hall) as Hsp0.
  replace (freespace s - (sz + HDR c))
    with (SIZE_MOD - (sz + HDR c - freespace s) + (-1) * SIZE_MOD) by lia.
  rewrite Z_mod_plus_full. apply Z.mod_small. lia.
Qed.

(** ** The allocated blocks, one by one *)

Lemma allocs_app a l1 l2 :
  allocs c a (l1 ++ l2) = allocs c a l1 ++ allocs c (a + span c l1) l2.
Proof.
  clear BUFF_SIZE_range HDR_range.
  revert a. induction l1 as [|b l1 IH]; intros a; cbn [app allocs span].
  - rewrite Z.add_0_r. reflexivity.
  - rewrite IH.
    replace (a + HDR c + b.1 + span c l1)
      with (a + (HDR c + b.1 + span c l1)) by lia.
    destruct b.2; reflexivity.
Qed.

Lemma allocs_range l :
  forall a o n,
    Forall (fun b : blk => 0 <= b.1 < SIZE_MOD) l ->
    (o, n) ∈ allocs c a l -> a <= o < a + span c l.
Proof.
  clear BUFF_SIZE_range HDR_range.
  induction l as [|b l IH]; intros a o n Hall Hin; cbn [allocs span] in *.
  - inversion Hin.
  - inversion Hall as [|? ? Hb Hl]; subst.
    pose proof (span_sizes _ Hl) as Hsp.
    destruct b.2.
    + specialize (IH _ _ _ Hl Hin). lia.
    + apply elem_of_cons in Hin as [Heq | Hin].
      * injection Heq as -> _. lia.
      * specialize (IH _ _ _ Hl Hin). lia.
Qed.

Lemma allocs_all_free a l :
  Forall (fun b : blk => b.2 = true) l -> allocs c a l = [].
Proof.
  clear BUFF_SIZE_range HDR_range.
  revert a. induction l as [|b l IH]; intros a Hall; [reflexivity|].
  inversion Hall as [|? ? Hb Hl]; subst. cbn [allocs]. rewrite Hb.
  apply IH. exact Hl.
Qed.

Lemma allocs_absorb a b rest :
  b.2 = true -> allocs c a (absorb c b rest) = allocs c a (b :: rest).
Proof.
  clear BUFF_SIZE_range HDR_range.
  intros Hb. unfold absorb. cbn [allocs fst snd]. rewrite Hb.
  rewrite <- (free_run_after_run rest) at 3. rewrite allocs_app.
  rewrite (allocs_all_free _ _ (free_run_all_free rest)). cbn [app].
  f_equal. lia.
Qed.

Lemma allocs_merge_prev pre :
  forall a l, allocs c a (merge_prev c pre l) = allocs c a (pre ++ l).
Proof.
  clear BUFF_SIZE_range HDR_range.
  induction pre as [|p pre IH]; intros a l; [reflexivity|].
  destruct pre as [|q pre].
  - cbn [merge_prev app]. destruct p.2 eqn:E; [|reflexivity].
    apply allocs_absorb. exact E.
  - change (merge_prev c (p :: q :: pre) l)
      with (p :: merge_prev c (q :: pre) l).
    cbn [app allocs]. rewrite IH. reflexivity.
Qed.

Lemma allocs_coalesce_from rest :
  forall cur a,
    allocs c a (coalesce_from c cur rest) = allocs c a (cur :: rest).
Proof.
  clear BUFF_SIZE_range HDR_range.
  induction rest as [|r rest IH]; intros cur a; [reflexivity|].
  cbn [coalesce_from]. destruct cur.2 eqn:Ec; cbn [andb].
  - destruct r.2 eqn:Er.
    + rewrite IH. cbn [allocs fst snd]. rewrite Ec, Er.
      f_equal. lia.
    + cbn [allocs]. rewrite Ec. rewrite IH. reflexivity.
  - cbn [allocs]. rewrite Ec. rewrite IH. reflexivity.
Qed.

Lemma allocs_coalesce a bs : allocs c a (coalesce c bs) = allocs c a bs.
Proof.
  clear BUFF_SIZE_range HDR_range.
  destruct bs as [|b bs]; [reflexivity|]. apply allocs_coalesce_from.
Qed.

(** [my_free] takes the block freed out of the allocated blocks and
    leaves the others where they are. *)
Lemma allocs_free_blocks a pre b post :
  allocs c a (free_blocks c pre b post)
  = allocs c a pre ++ allocs c (a + span c pre + HDR c + b.1) post.
Proof.
  clear BUFF_SIZE_range HDR_range.
  unfold free_blocks. rewrite allocs_coalesce, allocs_merge_prev, allocs_app.
  rewrite allocs_absorb by reflexivity. cbn [allocs fst snd].
  reflexivity.
Qed.

Lemma allocs_block a pre k post :
  allocs c a (pre ++ (k, false) :: post)
  = allocs c a pre
    ++ (a + span c pre, k) :: allocs c (a + span c pre + HDR c + k) post.
Proof.
  clear BUFF_SIZE_range HDR_range.
  rewrite allocs_app. reflexivity.
Qed.

(** The allocated blocks without the one at [a + span pre]. *)
Lemma allocs_without a pre k post o n :
  Forall (fun b : blk => 0 <= b.1 < SIZE_MOD) (pre ++ (k, false) :: post) ->
  (o, n) ∈ allocs c a pre ++ allocs c (a + span c pre + HDR c + k) post
  <-> (o, n) ∈ allocs c a (pre ++ (k, false) :: post)
      /\ o <> a + span c pre.
Proof.
  clear BUFF_SIZE_range HDR_range.
  intros Hall. apply Forall_app in Hall as [Hpre Hall].
  inversion Hall as [|? ? Hk Hpost]; subst. cbn [fst] in Hk.
  rewrite allocs_block, !elem_of_app, elem_of_cons. split.
  - intros [Hin | Hin].
    + pose proof (allocs_range _ _ _ _ Hpre Hin). split; [tauto | lia].
    + pose proof (allocs_range _ _ _ _ Hpost Hin). split; [tauto | lia].
  - intros [[Hin | [Heq | Hin]] Hne]; [tauto | | tauto].
    injection Heq as -> _. contradiction.
Qed.

(** [my_malloc] adds the block it hands out to the allocated blocks and
    leaves the others where they are. *)
Lemma served_allocs sz bs P bs1 :
  served c sz bs P bs1 ->
  exists k Q,
    bs1 = P ++ (k, false) :: Q /\ sz <= k
    /\ alloc_sum bs1 = alloc_sum bs + k
    /\ (forall a o n,
          (o, n) ∈ allocs c a bs1
          <-> (o, n) ∈ allocs c a bs \/ (o, n) = (a + span c P, k)).
Proof.
  clear BUFF_SIZE_range HDR_range.
  intros [bs' _ | pre b post _ Hb _ | pre b post _ Hb _].
  - exists sz, []. split; [reflexivity|]. split; [lia|]. split.
    + rewrite alloc_sum_app. cbn [alloc_sum snd fst]. lia.
    + intros a o n. rewrite allocs_block. cbn [allocs].
      rewrite elem_of_app, list_elem_of_singleton. reflexivity.
  - unfold fits in Hb. apply andb_true_iff in Hb as [Hb2 Hb].
    apply Z.leb_le in Hb.
    exists b.1, post. split; [reflexivity|]. split; [exact Hb|]. split.
    + rewrite !alloc_sum_app. cbn [alloc_sum snd fst]. rewrite Hb2. lia.
    + intros a o n. rewrite allocs_block, allocs_app. cbn [allocs].
      rewrite Hb2. rewrite !elem_of_app, elem_of_cons.
      tauto.
  - unfold fits in Hb. apply andb_true_iff in Hb as [Hb2 Hb].
    exists sz, ((b.1 - sz - HDR c, true) :: post).
    split; [reflexivity|]. split; [lia|]. split.
    + rewrite !alloc_sum_app. cbn [alloc_sum snd fst]. rewrite Hb2. lia.
    + intros a o n. rewrite allocs_block, allocs_app. cbn [allocs fst snd].
      rewrite Hb2. rewrite !elem_of_app, elem_of_cons.
      replace (a + span c pre + HDR c + sz + HDR c + (b.1 - sz - HDR c))
        with (a + span c pre + HDR c + b.1) by lia.
      tauto.
Qed.

(** The block [my_malloc] hands out is none of the allocated blocks of
    the chain it found. *)
Lemma served_fresh sz bs P bs1 P0 have Q0 :
  served c sz bs P bs1 ->
  Forall (fun b : blk => 0 <= b.1 < SIZE_MOD) bs ->
  bs = P0 ++ (have, false) :: Q0 ->
  span c P0 <> span c P.
Proof.
  clear BUFF_SIZE_range HDR_range.
  intros Hserved Hall Hbs.
  destruct Hserved as [bs0 _ | pre b post _ Hb _ | pre b post _ Hb _].
  - rewrite Hbs in Hall |- *. rewrite span_app. cbn [span fst].
    apply Forall_app in Hall as [HP0 HQ0].
    inversion HQ0 as [|? ? Hh HQ0']; subst. cbn [fst] in Hh.
    pose proof (span_sizes _ HP0). pose proof (span_sizes _ HQ0'). lia.
  - intros Heq. pose proof Hall as Hall'. rewrite Hbs in Hall'.
    apply Forall_app in Hall as [Hpre _].
    apply Forall_app in Hall' as [HP0 _].
    pose proof (block_by_offset P0 pre (have, false) Q0 b post HP0 Hpre
                  (eq_sym Hbs) Heq) as Hsame.
    unfold fits in Hb. rewrite <- Hsame in Hb. discriminate.
  - intros Heq. pose proof Hall as Hall'. rewrite Hbs in Hall'.
    apply Forall_app in Hall as [Hpre _].
    apply Forall_app in Hall' as [HP0 _].
    pose proof (block_by_offset P0 pre (have, false) Q0 b post HP0 Hpre
                  (eq_sym Hbs) Heq) as Hsame.
    unfold fits in Hb. rewrite <- Hsame in Hb. discriminate.
Qed.

(** X9. On a request it serves well, [my_malloc] hands out an allocated
    block of at least the size asked for, which is none of the blocks
    that were allocated before; those stay at their offsets with their
    sizes. *)
Theorem my_malloc_keeps_allocated_blocks s bs sz fuel :
  models c s bs -> accounted c s bs ->
  0 < sz < SIZE_MOD ->
  fit_ok c sz bs ->
  (length bs <= fuel)%nat ->
  exists s' P k Q,
    my_malloc c fuel s sz = Ok (s', Some (heap_base + span c P + HDR c))
    /\ chain c s' (P ++ (k, false) :: Q)
    /\ sz <= k
    /\ (forall P0 have Q0,
          bs = P0 ++ (have, false) :: Q0 ->
          span c P0 <> span c P
          /\ exists P1 Q1,
               P ++ (k, false) :: Q = P1 ++ (have, false) :: Q1
               /\ span c P1 = span c P0).
Proof.
  intros Hm Hacc Hsz Hok Hfuel.
  pose proof (models_sizes _ _ Hm) as Hall.
  destruct (malloc_step s bs sz fuel Hm Hacc Hsz Hok Hfuel)
    as (s' & P & bs' & Hr & _ & Hc' & _ & Hserved).
  destruct (served_block _ _ _ _ Hserved) as (k & Q & Hbs' & Hk).
  exists s', P, k, Q. split; [exact Hr|].
  split; [rewrite <- Hbs'; exact Hc'|]. split; [exact Hk|].
  intros P0 have Q0 Hbs. split.
  - apply (served_fresh _ _ _ _ _ _ _ Hserved Hall Hbs).
  - rewrite <- Hbs'. apply (served_keeps_block _ _ _ _ _ _ _ Hserved Hbs).
Qed.

Lemma naf_split_at (l1 : list blk) x l2 :
  no_adjacent_free (l1 ++ x :: l2)
  <-> no_adjacent_free (l1 ++ [x]) /\ no_adjacent_free (x :: l2).
Proof.
  clear BUFF_SIZE_range HDR_range.
  induction l1 as [|a l1 IH]; cbn [app].
  - cbn [no_adjacent_free]. tauto.
  - destruct l1 as [|a' l1]; cbn [app] in *.
    + cbn [no_adjacent_free]. destruct l2; tauto.
    + change (no_adjacent_free (a :: a' :: l1 ++ x :: l2))
        with (~ (a.2 = true /\ a'.2 = true)
              /\ no_adjacent_free (a' :: l1 ++ x :: l2)).
      change (no_adjacent_free (a :: a' :: l1 ++ [x]))
        with (~ (a.2 = true /\ a'.2 = true)
              /\ no_adjacent_free (a' :: l1 ++ [x])).
      rewrite IH. tauto.
Qed.

Lemma naf_app_l (l1 l2 : list blk) :
  no_adjacent_free (l1 ++ l2) -> no_adjacent_free l1.
Proof.
  clear BUFF_SIZE_range HDR_range.
  destruct l2 as [|x l2]; [rewrite app_nil_r; tauto|].
  intros H. apply naf_split_at in H as [H _].
  revert H. clear. induction l1 as [|a l1 IH]; [intros; exact I|].
  destruct l1 as [|a' l1]; [intros; exact I|]. cbn [app].
  change (no_adjacent_free (a :: a' :: l1 ++ [x]))
    with (~ (a.2 = true /\ a'.2 = true)
          /\ no_adjacent_free (a' :: l1 ++ [x])).
  change (no_adjacent_free (a :: a' :: l1))
    with (~ (a.2 = true /\ a'.2 = true) /\ no_adjacent_free (a' :: l1)).
  intros [H1 H2]. split; [exact H1 | apply IH; exact H2].
Qed.

Lemma naf_after_run (l : list blk) :
  no_adjacent_free l -> no_adjacent_free (after_run l).
Proof.
  clear BUFF_SIZE_range HDR_range.
  induction l as [|b l IH]; [intros; exact I|]. intros H.
  cbn [after_run]. destruct b.2; [|exact H].
  apply IH. apply (naf_app_r [b] l). exact H.
Qed.

Lemma naf_cons_allocated (x : blk) (l : list blk) :
  no_adjacent_free l ->
  match l with [] => True | r :: _ => r.2 = false end ->
  no_adjacent_free (x :: l).
Proof.
  clear BUFF_SIZE_range HDR_range.
  destruct l as [|r l]; [intros; exact I|]. intros H Hr.
  change (~ (x.2 = true /\ r.2 = true) /\ no_adjacent_free (r :: l)).
  split; [rewrite Hr; intros [_ ?]; discriminate | exact H].
Qed.

Lemma Forall_free_run (P : blk -> Prop) (l : list blk) :
  Forall P l -> Forall P (free_run l).
Proof.
  clear BUFF_SIZE_range HDR_range.
  intros H. rewrite <- (free_run_after_run l) in H.
  apply Forall_app in H as [H _]. exact H.
Qed.

(** The chain after [my_free] of a block whose predecessor is not free,
    in a chain without free neighbours. *)
Lemma free_blocks_here pre b post :
  no_adjacent_free (pre ++ b :: post) ->
  tail_free pre = false ->
  free_blocks c pre b post
  = pre ++ (b.1 + span c (free_run post), true) :: after_run post.
Proof.
  clear BUFF_SIZE_range HDR_range.
  intros Hnaf Htail. unfold free_blocks, absorb. cbn [fst snd].
  rewrite (merge_prev_keep _ _ Htail). apply coalesce_id.
  apply naf_split_at. split.
  - apply naf_snoc; [|exact Htail]. apply (naf_app_l _ _ Hnaf).
  - apply naf_cons_allocated; [|apply after_run_head].
    apply naf_after_run. apply (naf_app_r (pre ++ [b]) post).
    rewrite <- app_assoc. exact Hnaf.
Qed.

(** [my_malloc] returns the payload of the first block that fits, whether
    it splits it or not. *)
Lemma my_malloc_fit_pointer s pre b post sz fuel :
  first s = false -> chain c s (pre ++ b :: post) ->
  0 < sz ->
  Forall (fun x => fits sz x = false) pre -> fits sz b = true ->
  (length (pre ++ b :: post) <= fuel)%nat ->
  exists s',
    my_malloc c fuel s sz = Ok (s', Some (heap_base + span c pre + HDR c)).
Proof.
  clear BUFF_SIZE_range HDR_range.
  intros Hfirst Hch Hsz Hpre Hb Hfuel.
  pose proof (chain_block_bounds _ _ _ _ _ Hch eq_refl) as (Hp0 & Hb0 & Hfit).
  destruct Hch as (Hne & Hs & Hl & Hsp).
  unfold my_malloc.
  replace (sz =? 0) with false by (symmetry; apply Z.eqb_neq; lia).
  rewrite Hfirst. cbn [negb]. unfold search_freespace.
  replace (Some heap_base) with (link heap_base (pre ++ b :: post) None)
    by (destruct pre; reflexivity).
  rewrite (search_loop_spec _ _ _ _ _ Hs Hfuel).
  rewrite (find_fit_some _ _ _ _ Hpre Hb). fields.
  pose proof (seg_lookup _ _ _ _ _ _ Hs) as Hcell.
  rewrite (load_Some _ _ _ Hcell). fields.
  unfold fits in Hb. apply andb_true_iff in Hb as [_ Hb].
  apply Z.leb_le in Hb.
  destruct (wrap (sz + THRESHOLD c) <=? b.1).
  - assert (Hw : wrap (HDR c + sz) = HDR c + sz)
      by (apply wrap_small; unfold heap_base in *; lia).
    rewrite (split_buffer (with_freespace s _) _ _ _ Hcell)
      by (rewrite Hw; lia).
    crank. eexists. reflexivity.
  - fields. eexists. reflexivity.
Qed.

(** X10. A block that is freed is the one the next [my_malloc] of no
    more than its size returns, when no earlier block fits, the block
    before it is not free and the chain had no two free neighbours. *)
Theorem free_then_malloc_reuses_block s pre have post sz fuel :
  first s = false ->
  chain c s (pre ++ (have, false) :: post) ->
  no_adjacent_free (pre ++ (have, false) :: post) ->
  tail_free pre = false ->
  Forall (fun b : blk => b.2 = false \/ b.1 < sz) pre ->
  0 < sz <= have ->
  (length (pre ++ (have, false) :: post) <= fuel)%nat ->
  exists s1 s2,
    my_free c fuel s (Some (heap_base + span c pre + HDR c))
    = Ok (s1, Freed have)
    /\ my_malloc c fuel s1 sz
       = Ok (s2, Some (heap_base + span c pre + HDR c)).
Proof.
  clear BUFF_SIZE_range HDR_range.
  intros Hfirst Hch Hnaf Htail Hpre Hsz Hfuel.
  destruct (my_free_valid s pre (have, false) post fuel Hch Hfuel)
    as (s1 & Hr1 & Hsh1 & Hl1 & _ & Hf1 & Hlen1).
  rewrite (free_blocks_here _ _ _ Hnaf Htail) in Hsh1, Hlen1.
  cbn [fst] in Hsh1, Hlen1, Hr1.
  assert (Hc1 : chain c s1
                  (pre ++ (have + span c (free_run post), true)
                       :: after_run post)).
  { apply shape_chain; [exact Hsh1|]. apply Hl1.
    destruct Hch as (_ & _ & Hlast & _).
    cbn [with_freespace last]. rewrite Hlast. eexists. reflexivity. }
  pose proof (chain_sizes _ _ Hch) as Hall.
  apply Forall_app in Hall as [_ Hall].
  inversion Hall as [|? ? _ Hpost]; subst.
  pose proof (span_sizes _ (Forall_free_run _ _ Hpost)) as Hrun0.
  destruct (my_malloc_fit_pointer s1 pre
              (have + span c (free_run post), true) (after_run post) sz fuel)
    as (s2 & Hr2).
  - rewrite Hf1. exact Hfirst.
  - exact Hc1.
  - lia.
  - apply Forall_fits_false. exact Hpre.
  - unfold fits. cbn [fst snd]. apply Z.leb_le. lia.
  - lia.
  - exists s1, s2. split; [exact Hr1 | exact Hr2].
Qed.

(** X11. [my_free] does not notice a block that is free already: it
    reports it as freed and adds its size to the counter once more; the
    chain stays as it is. *)
Theorem my_free_twice_counts_twice s pre k post fuel :
  chain c s (pre ++ (k, true) :: post) ->
  no_adjacent_free (pre ++ (k, true) :: post) ->
  (length (pre ++ (k, true) :: post) <= fuel)%nat ->
  exists s',
    my_free c fuel s (Some (heap_base + span c pre + HDR c))
    = Ok (s', Freed k)
    /\ chain c s' (pre ++ (k, true) :: post)
    /\ freespace s' = wrap (freespace s + k).
Proof.
  clear BUFF_SIZE_range HDR_range.
  intros Hch Hnaf Hfuel.
  destruct (my_free_valid s pre (k, true) post fuel Hch Hfuel)
    as (s' & Hr & Hsh & Hl & Hfs & _ & _).
  destruct (naf_middle _ _ _ Hnaf eq_refl) as (Htail & Hrun & Hafter).
  rewrite (free_blocks_here _ _ _ Hnaf Htail) in Hsh, Hfs.
  rewrite Hrun, Hafter in Hsh, Hfs. cbn [fst span] in Hsh, Hfs, Hr.
  rewrite Z.add_0_r in Hsh, Hfs.
  rewrite Nat.sub_diag in Hfs. cbn [add_hdr with_freespace freespace] in Hfs.
  exists s'. split; [exact Hr|]. split; [|exact Hfs].
  apply shape_chain; [exact Hsh|]. apply Hl.
  destruct Hch as (_ & _ & Hlast & _).
    cbn [with_freespace last]. rewrite Hlast. eexists. reflexivity.
Qed.

(** X12. [my_free] of a block between two free blocks makes one free
    block of the three, two headers included, and gives the counter the
    payload freed and the two headers. *)
Theorem my_free_merges_both_neighbours s pre a b d post fuel :
  chain c s (pre ++ (a, true) :: (b, false) :: (d, true) :: post) ->
  no_adjacent_free (pre ++ (a, true) :: (b, false) :: (d, true) :: post) ->
  (length (pre ++ (a, true) :: (b, false) :: (d, true) :: post)
   <= fuel)%nat ->
  exists s',
    my_free c fuel s (Some (heap_base + span c pre + HDR c + a + HDR c))
    = Ok (s', Freed b)
    /\ chain c s' (pre ++ (a + (HDR c + b) + (HDR c + d), true) :: post)
    /\ freespace s'
       = wrap (wrap (wrap (freespace s + b) + HDR c) + HDR c).
Proof.
  clear BUFF_SIZE_range HDR_range.
  intros Hch Hnaf Hfuel.
  assert (Heq : pre ++ (a, true) :: (b, false) :: (d, true) :: post
                = (pre ++ [(a, true)]) ++ (b, false) :: (d, true) :: post)
    by (rewrite <- app_assoc; reflexivity).
  rewrite Heq in Hch, Hfuel.
  destruct (my_free_valid s (pre ++ [(a, true)]) (b, false)
              ((d, true) :: post) fuel Hch Hfuel)
    as (s' & Hr & Hsh & Hl & Hfs & _ & _).
  rewrite span_app in Hr. cbn [span fst] in Hr.
  replace (heap_base + (span c pre + (HDR c + a + 0)) + HDR c)
    with (heap_base + span c pre + HDR c + a + HDR c) in Hr by lia.
  (* the neighbours of the two free blocks *)
  destruct (naf_middle pre (a, true) _ Hnaf eq_refl) as (Htail & _ & _).
  assert (Hnaf3 : no_adjacent_free
                    ((pre ++ [(a, true); (b, false)]) ++ (d, true) :: post))
    by (rewrite <- app_assoc; exact Hnaf).
  destruct (naf_middle _ (d, true) _ Hnaf3 eq_refl) as (_ & Hrun & Hafter).
  assert (Hfb : free_blocks c (pre ++ [(a, true)]) (b, false)
                  ((d, true) :: post)
                = pre ++ (a + (HDR c + b) + (HDR c + d), true) :: post).
  { unfold free_blocks. rewrite merge_prev_snoc. cbn [snd].
    unfold absorb. cbn [free_run after_run fst snd].
    rewrite Hrun, Hafter. cbn [span fst free_run after_run snd].
    rewrite Hrun, Hafter. cbn [span fst].
    replace (a + (HDR c + (b + (HDR c + d + 0)) + 0))
      with (a + (HDR c + b) + (HDR c + d)) by lia.
    apply coalesce_id. apply naf_split_at. split.
    - apply naf_snoc; [|exact Htail]. apply (naf_app_l _ _ Hnaf).
    - apply (naf_resize [] d _ true post).
      apply (naf_app_r (pre ++ [(a, true); (b, false)])). exact Hnaf3. }
  rewrite Hfb in Hsh, Hfs.
  exists s'. split; [exact Hr|]. split.
  - apply shape_chain; [exact Hsh|]. apply Hl.
    destruct Hch as (_ & _ & Hlast & _).
    cbn [with_freespace last]. rewrite Hlast. eexists. reflexivity.
  - rewrite Hfs.
    match goal with
    | |- context [add_hdr c ?k _] =>
        replace k with 2%nat by (rewrite !length_app; cbn [length]; lia)
    end.
    reflexivity.
Qed.

(** X13. Whatever pointer it is given, [my_free] before the first
    allocation reports an invalid address and leaves the state as it
    is. *)
Theorem my_free_before_first_malloc p fuel :
  (1 <= fuel)%nat ->
  my_free c fuel (initial c) (Some p) = Ok (initial c, InvalidAddress).
Proof.
  clear BUFF_SIZE_range HDR_range.
  intros Hfuel. destruct fuel as [|fuel]; [lia|].
  unfold my_free. cbn [initial last le_last]. rewrite andb_false_r.
  cbn [bind]. unfold deframent_my_heap. cbn [defrag_loop buffer].
  assert (Hcell : load (buffer (initial c)) heap_base = Ok zero_metadata).
  { apply load_Some. apply lookup_singleton_eq. }
  rewrite Hcell. cbn [bind next zero_metadata]. rewrite Hcell.
  cbn [bind next zero_metadata]. destruct fuel; reflexivity.
Qed.

(** X14. [my_free] of an allocated block affects no other allocated
    block: the allocated blocks after the call are those before it
    without the block freed, each at its offset with its size; the extent
    of the chain is kept, and the allocated payload goes down by the size
    of the block freed. *)
Theorem my_free_keeps_other_blocks s pre have post fuel :
  chain c s (pre ++ (have, false) :: post) ->
  (length (pre ++ (have, false) :: post) <= fuel)%nat ->
  exists s' bs',
    my_free c fuel s (Some (heap_base + span c pre + HDR c))
    = Ok (s', Freed have)
    /\ chain c s' bs'
    /\ span c bs' = span c (pre ++ (have, false) :: post)
    /\ alloc_sum bs' = alloc_sum (pre ++ (have, false) :: post) - have
    /\ allocs c heap_base (pre ++ (have, false) :: post)
       = allocs c heap_base pre
         ++ (heap_base + span c pre, have)
            :: allocs c (heap_base + span c pre + HDR c + have) post
    /\ allocs c heap_base bs'
       = allocs c heap_base pre
         ++ allocs c (heap_base + span c pre + HDR c + have) post.
Proof.
  clear BUFF_SIZE_range HDR_range.
  intros Hch Hfuel.
  destruct (my_free_valid s pre (have, false) post fuel Hch Hfuel)
    as (s' & Hr & Hsh & Hl & _).
  exists s', (free_blocks c pre (have, false) post).
  split; [exact Hr|]. split; [|split; [|split; [|split]]].
  - apply shape_chain; [exact Hsh|]. apply Hl.
    destruct Hch as (_ & _ & Hlast & _).
    cbn [with_freespace last]. rewrite Hlast. eexists. reflexivity.
  - apply span_free_blocks.
  - rewrite alloc_sum_free_blocks, alloc_sum_app. cbn [alloc_sum snd fst].
    lia.
  - apply allocs_block.
  - apply allocs_free_blocks.
Qed.


(** X16. [my_realloc] to a smaller size that leaves the threshold and
    room for a header shrinks the block where it is: the same pointer
    comes back and the bytes cut off become a free block of their own,
    which is not merged with a free block that follows. *)
Theorem realloc_shrinks_in_place s pre have post sz fuel :
  chain c s (pre ++ (have, false) :: post) ->
  0 < sz ->
  splits c sz have = true ->
  sz + HDR c <= have ->
  exists s',
    my_realloc c fuel s (Some (heap_base + span c pre + HDR c)) sz
    = Ok (s', Ret (Some (heap_base + span c pre + HDR c)))
    /\ chain c s' (pre ++ (sz, false) :: (have - sz - HDR c, true) :: post)
    /\ freespace s' = wrap (freespace s + (have - sz - HDR c))
    /\ (forall r post',
          post = r :: post' -> r.2 = true ->
          ~ no_adjacent_free
              (pre ++ (sz, false) :: (have - sz - HDR c, true) :: post)).
Proof.
  clear BUFF_SIZE_range HDR_range.
  intros Hch Hsz Hsplit Hroom.
  destruct (split_chain s pre (have, false) post sz Hch)
    as (s1 & Hr1 & Hc1 & Hfs1 & _); [lia | cbn [fst]; lia |].
  cbn [fst snd] in Hc1.
  unfold my_realloc.
  replace (sz =? 0) with false by (symmetry; apply Z.eqb_neq; lia).
  replace (heap_base + span c pre + HDR c - HDR c)
    with (heap_base + span c pre) by lia.
  rewrite (load_Some _ _ _ (chain_cell _ _ _ _ Hch)). fields.
  replace (have <? sz) with false by (symmetry; apply Z.ltb_ge; lia).
  replace (sz <? have) with true by (symmetry; apply Z.ltb_lt; lia).
  fold (splits c sz have). rewrite Hsplit. rewrite Hr1. fields.
  pose proof (chain_cell _ _ _ _ Hc1) as Hc1a.
  pose proof (chain_cell_next _ _ _ _ _ Hc1) as Hc1b.
  cbn [fst snd link] in Hc1a, Hc1b.
  rewrite (load_Some _ _ _ Hc1a). fields.
  rewrite (load_Some _ _ _ Hc1b). fields.
  eexists. split; [reflexivity|]. split; [|split].
  - apply chain_with_freespace. exact Hc1.
  - fields. rewrite Hfs1. reflexivity.
  - intros r post' -> Hr2 Hnaf.
    apply naf_app_r in Hnaf. apply (naf_app_r [(sz, false)]) in Hnaf.
    destruct Hnaf as [Hnaf _]. apply Hnaf. split; [reflexivity | exact Hr2].
Qed.

(** X17. [my_realloc] to a larger size, with a free successor that
    covers the growth, takes the whole successor in place and returns the
    same pointer: the block ends up larger than asked for unless the
    excess reaches the threshold, in which case it is split off as a free
    block again. *)
Theorem realloc_grows_in_place s pre have r post sz fuel :
  chain c s (pre ++ (have, false) :: r :: post) ->
  r.2 = true ->
  have + HDR c <= sz <= have + (HDR c + r.1) ->
  (splits c sz (have + (HDR c + r.1)) = true ->
   sz + HDR c <= have + (HDR c + r.1)) ->
  exists s',
    my_realloc c fuel s (Some (heap_base + span c pre + HDR c)) sz
    = Ok (s', Ret (Some (heap_base + span c pre + HDR c)))
    /\ (if splits c sz (have + (HDR c + r.1)) then
          chain c s' (pre ++ (sz, false) :: (have + r.1 - sz, true) :: post)
          /\ freespace s'
             = wrap (wrap (freespace s - r.1) + (have + r.1 - sz))
        else
          chain c s' (pre ++ (have + (HDR c + r.1), false) :: post)
          /\ freespace s' = wrap (freespace s - r.1)).
Proof.
  clear BUFF_SIZE_range HDR_range.
  intros Hch Hr2 Hsz Hroom.
  pose proof (chain_sizes _ _ Hch) as Hall.
  apply Forall_app in Hall as [Hpre Hall].
  inversion Hall as [|? ? Hh Hall']; subst.
  inversion Hall' as [|? ? Hr Hpost]; subst. cbn [fst] in Hh.
  pose proof (span_sizes _ Hpre) as Hpre0.
  pose proof (span_sizes _ Hpost) as Hpost0.
  pose proof Hch as (_ & _ & _ & Hsp).
  rewrite span_app in Hsp. cbn [span fst] in Hsp.
  pose proof (chain_cell _ _ _ _ Hch) as Hcell.
  pose proof (chain_cell_next _ _ _ _ _ Hch) as Hnext.
  cbn [fst snd link] in Hcell, Hnext.
  unfold my_realloc.
  replace (sz =? 0) with false by (symmetry; apply Z.eqb_neq; lia).
  replace (heap_base + span c pre + HDR c - HDR c)
    with (heap_base + span c pre) by lia.
  set (a0 := heap_base + span c pre) in *.
  rewrite (load_Some _ _ _ Hcell). fields.
  replace (have <? sz) with true by (symmetry; apply Z.ltb_lt; lia).
  rewrite (load_Some _ _ _ Hnext). fields. rewrite Hr2.
  replace (wrap (wrap (sz - have) - HDR c) <=? r.1) with true
    by (symmetry; apply Z.leb_le; rewrite wrap_wrap_sub;
        rewrite wrap_small; lia).
  cbn [andb].
  crank. rewrite Hcell. crank. rewrite Hnext. crank.
  rewrite wrap_add_wrap.
  rewrite (wrap_small (have + (HDR c + r.1))) by lia.
  pose proof (grow_chain s pre (have, false) r post
                (wrap (freespace s - r.1)) Hch) as Hch2.
  cbn [fst snd] in Hch2. fold a0 in Hch2.
  set (s2 := Heap _ _ _ _) in *.
  fold (splits c sz (have + (HDR c + r.1))).
  destruct (splits c sz (have + (HDR c + r.1))) eqn:Esp.
  - specialize (Hroom eq_refl).
    destruct (split_chain s2 pre (have + (HDR c + r.1), false) post sz Hch2)
      as (s3 & Hr3 & Hc3 & Hfs3 & _); [lia | cbn [fst]; lia |].
    fold a0 in Hr3. rewrite Hr3. fields. cbn [fst snd] in Hc3.
    pose proof (chain_cell _ _ _ _ Hc3) as Hc3a.
    pose proof (chain_cell_next _ _ _ _ _ Hc3) as Hc3b.
    fold a0 in Hc3a, Hc3b. cbn [fst snd link] in Hc3a, Hc3b.
    rewrite Hc3a. fields. rewrite Hc3b. fields.
    replace (have + (HDR c + r.1) - sz - HDR c) with (have + r.1 - sz)
      in * by lia.
    eexists. split; [reflexivity|]. split.
    + apply chain_with_freespace. exact Hc3.
    + fields. rewrite Hfs3. unfold s2. fields. reflexivity.
  - eexists. split; [reflexivity|]. split; [exact Hch2 | reflexivity].
Qed.

(** ** [print_memory_contents] and [my_calloc] *)

Lemma print_loop_spec m a bs fuel :
  seg c m a bs None -> (length bs <= fuel)%nat ->
  print_loop fuel m (link a bs None) = Ok bs.
Proof.
  clear BUFF_SIZE_range HDR_range.
  revert a fuel. induction bs as [|b bs IH]; intros a fuel Hs Hf.
  - destruct fuel; reflexivity.
  - destruct Hs as (Ha & Hb & Hs). cbn [length] in Hf.
    destruct fuel as [|fuel]; [lia|].
    cbn [link print_loop]. rewrite (load_Some _ _ _ Ha). fields.
    rewrite (IH _ fuel Hs) by lia. cbn [bind]. rewrite blk_eta.
    reflexivity.
Qed.

(** X18. [print_memory_contents] prints the blocks of the chain in
    order, each with its size and free flag, then the counter; before the
    first allocation it shows one allocated block of size 0 and the whole
    capacity. *)
Theorem print_memory_contents_shows_chain s bs fuel :
  shape c s bs -> (length bs <= fuel)%nat ->
  print_memory_contents fuel s = Ok (bs, free_space_in_my_heap s)
  /\ print_memory_contents (S fuel) (initial c)
     = Ok ([(0, false)], BUFF_SIZE c).
Proof.
  clear BUFF_SIZE_range HDR_range.
  intros (Hne & Hs & _) Hfuel. unfold print_memory_contents. split.
  - replace (Some heap_base) with (link heap_base bs None)
      by (destruct bs; [contradiction | reflexivity]).
    rewrite (print_loop_spec _ _ _ _ Hs Hfuel). reflexivity.
  - cbn [print_loop].
    assert (Hcell : load (buffer (initial c)) heap_base = Ok zero_metadata).
    { apply load_Some. apply lookup_singleton_eq. }
    rewrite Hcell. cbn [bind next size free zero_metadata].
    destruct fuel; reflexivity.
Qed.

(** A request served well gets a block of exactly the size asked for. *)
Lemma served_exact sz bs P bs1 :
  served c sz bs P bs1 -> fit_ok c sz bs ->
  exists Q, bs1 = P ++ (sz, false) :: Q.
Proof.
  clear BUFF_SIZE_range HDR_range.
  intros Hserved Hok.
  destruct Hserved as [bs' _ | pre b post Hpre Hb Hsp | pre b post _ _ _].
  - exists []. reflexivity.
  - unfold fit_ok in Hok.
    rewrite (first_fit_size_some _ _ _ _ Hpre Hb) in Hok.
    rewrite Hsp in Hok. exists post. rewrite Hok. reflexivity.
  - eexists. reflexivity.
Qed.

(** X19. [my_calloc(n, size)] serves [n * size] modulo 2^64 as
    [my_malloc] does, on a request [my_malloc] serves well: the same
    pointer comes back, the block has exactly that many bytes (fewer than
    [n * size] when the product does not fit a [size_t]), and the zero
    fill stays inside it, so that the chain, [last] and the counter are
    those [my_malloc] leaves. *)
Theorem my_calloc_is_malloc_of_product s bs n sz fuel :
  models c s bs -> accounted c s bs ->
  0 < wrap (n * sz) <= INT_MAX ->
  fit_ok c (wrap (n * sz)) bs ->
  (length bs <= fuel)%nat ->
  exists s1 s' P Q,
    my_malloc c fuel s (wrap (n * sz))
    = Ok (s1, Some (heap_base + span c P + HDR c))
    /\ my_calloc c fuel s n sz
       = Returned (Ok (s', Some (heap_base + span c P + HDR c)))
    /\ chain c s1 (P ++ (wrap (n * sz), false) :: Q)
    /\ chain c s' (P ++ (wrap (n * sz), false) :: Q)
    /\ last s' = last s1 /\ freespace s' = freespace s1.
Proof.
  intros Hm Hacc Htotal Hok Hfuel.
  pose proof (wrap_range (n * sz)) as Hw.
  destruct (malloc_step s bs (wrap (n * sz)) fuel Hm Hacc)
    as (s1 & P & bs' & Hr & _ & Hc1 & _ & Hserved);
    [lia | exact Hok | exact Hfuel |].
  destruct (served_exact _ _ _ _ Hserved Hok) as (Q & Hbs').
  pose proof Hc1 as Hc2. rewrite Hbs' in Hc2.
  apply (memcpy_chain _ _ _ _ _ (wrap (n * sz))) in Hc2; [|lia].
  rewrite Hbs' in Hc1.
  eexists s1, _, P, Q. split; [exact Hr|]. split.
  - unfold my_calloc. rewrite Hr.
    replace (wrap (n * sz) =? 0) with false
      by (symmetry; apply Z.eqb_neq; lia).
    replace (wrap (n * sz) <=? INT_MAX) with true
      by (symmetry; apply Z.leb_le; lia).
    reflexivity.
  - split; [exact Hc1|]. split; [exact Hc2|]. split; reflexivity.
Qed.

(** X20. [my_calloc] returns NULL exactly when [n * size] is 0 modulo
    2^64, which includes products that are too large for a [size_t]; it
    then changes nothing. *)
Theorem my_calloc_null_iff s bs n sz fuel :
  models c s bs -> (length bs <= fuel)%nat ->
  (wrap (n * sz) = 0 -> my_calloc c fuel s n sz = Returned (Ok (s, None)))
  /\ (wrap (n * sz) <> 0 ->
      forall s', my_calloc c fuel s n sz <> Returned (Ok (s', None))).
Proof.
  clear BUFF_SIZE_range HDR_range.
  intros Hm Hfuel. split.
  - intros H0. unfold my_calloc. rewrite H0. reflexivity.
  - intros Hnz s'. pose proof (wrap_range (n * sz)) as Hw.
    destruct (my_malloc_pointer s bs (wrap (n * sz)) fuel Hm) as (s1 & p & Hr);
      [lia | exact Hfuel |].
    unfold my_calloc. rewrite Hr.
    replace (wrap (n * sz) =? 0) with false
      by (symmetry; apply Z.eqb_neq; exact Hnz).
    destruct (wrap (n * sz) <=? INT_MAX); discriminate.
Qed.

Lemma naf_allocate (l1 : list blk) x y l2 :
  no_adjacent_free (l1 ++ x :: l2) ->
  no_adjacent_free (l1 ++ (y, false) :: l2).
Proof.
  clear BUFF_SIZE_range HDR_range.
  intros H. apply naf_split_at in H as [H1 H2]. apply naf_split_at. split.
  - destruct (snoc_cases l1) as [-> | (l & t & ->)]; [exact I|].
    rewrite <- app_assoc in H1 |- *. cbn [app] in H1 |- *.
    apply naf_split_at in H1 as [H1 _]. apply naf_split_at.
    split; [exact H1|]. cbn [no_adjacent_free snd].
    split; [intros [_ ?]; discriminate | exact I].
  - apply (naf_app_r [x]) in H2. destruct l2 as [|r l2]; [exact I|].
    change (~ ((y, false).2 = true /\ r.2 = true)
            /\ no_adjacent_free (r :: l2)).
    split; [intros [? _]; discriminate | exact H2].
Qed.

(** [my_malloc] makes no two free neighbours. *)
Lemma served_naf sz bs P bs' :
  served c sz bs P bs' -> no_adjacent_free bs -> no_adjacent_free bs'.
Proof.
  clear BUFF_SIZE_range HDR_range.
  intros Hserved Hnaf.
  destruct Hserved as [bs0 _ | pre b post _ Hb _ | pre b post _ Hb _].
  - apply (naf_allocate bs0 (sz, false) sz []).
    destruct (snoc_cases bs0) as [-> | (l & t & ->)]; [exact I|].
    rewrite <- app_assoc. cbn [app]. apply naf_split_at.
    split; [exact Hnaf|]. cbn [no_adjacent_free snd].
    split; [intros [_ ?]; discriminate | exact I].
  - apply (naf_allocate pre b b.1 post). exact Hnaf.
  - unfold fits in Hb. apply andb_true_iff in Hb as [Hb2 _].
    destruct (naf_middle _ _ _ Hnaf Hb2) as (_ & _ & Hafter).
    pose proof (after_run_head post) as Hhead. rewrite Hafter in Hhead.
    apply naf_split_at in Hnaf as [Hhd Htl]. apply naf_split_at. split.
    + apply (naf_allocate pre b sz []). exact Hhd.
    + apply (naf_app_r [b]) in Htl.
      change (~ ((sz, false).2 = true /\ (b.1 - sz - HDR c, true).2 = true)
              /\ no_adjacent_free ((b.1 - sz - HDR c, true) :: post)).
      split; [intros [? _]; discriminate|].
      apply naf_cons_allocated; assumption.
Qed.

(** X21. [my_malloc] makes no two free neighbours: a chain without any
    has none either after a request served well.  (Only [my_realloc]
    leaves some, by X16.) *)
Theorem my_malloc_keeps_no_adjacent_free s bs sz fuel :
  models c s bs -> accounted c s bs ->
  0 < sz < SIZE_MOD ->
  fit_ok c sz bs ->
  no_adjacent_free bs ->
  (length bs <= fuel)%nat ->
  exists s' p bs',
    my_malloc c fuel s sz = Ok (s', Some p)
    /\ chain c s' bs'
    /\ no_adjacent_free bs'.
Proof.
  intros Hm Hacc Hsz Hok Hnaf Hfuel.
  destruct (malloc_step s bs sz fuel Hm Hacc Hsz Hok Hfuel)
    as (s' & P & bs' & Hr & _ & Hc' & _ & Hserved).
  exists s', (heap_base + span c P + HDR c), bs'.
  split; [exact Hr|]. split; [exact Hc'|].
  apply (served_naf _ _ _ _ Hserved Hnaf).
Qed.

(** X22. [my_realloc] to a larger size that the successor does not
    cover moves the block, on a request [my_malloc] serves well: the
    pointer returned is another one and is the payload of an allocated
    block that holds at least the size asked for; the old block is
    allocated no more, and every other allocated block is at its offset
    with its size. *)
Theorem realloc_grows_by_moving s pre have r post sz fuel :
  first s = false ->
  chain c s (pre ++ (have, false) :: r :: post) ->
  accounted c s (pre ++ (have, false) :: r :: post) ->
  have < sz < SIZE_MOD ->
  grows_here c sz have r = false ->
  fit_ok c sz (pre ++ (have, false) :: r :: post) ->
  (S (length (pre ++ (have, false) :: r :: post)) < fuel)%nat ->
  exists s' p bs' k,
    my_realloc c fuel s (Some (heap_base + span c pre + HDR c)) sz
    = Ok (s', Ret (Some p))
    /\ p <> heap_base + span c pre + HDR c
    /\ chain c s' bs'
    /\ sz <= k
    /\ alloc_sum bs'
       = alloc_sum (pre ++ (have, false) :: r :: post) + k - have
    /\ (forall o n,
          (o, n) ∈ allocs c heap_base bs'
          <-> ((o, n) ∈ allocs c heap_base
                          (pre ++ (have, false) :: r :: post)
               /\ o <> heap_base + span c pre)
              \/ (o, n) = (p - HDR c, k)).
Proof.
  intros Hfirst Hch Hacc Hsz Hgrow Hok Hfuel.
  pose proof (chain_sizes _ _ Hch) as Hall.
  pose proof Hall as Hall0.
  apply Forall_app in Hall as [Hpre Hall].
  inversion Hall as [|? ? Hh Hall']; subst. cbn [fst] in Hh.
  (* the test of the in-place growth fails *)
  unfold my_realloc.
  replace (sz =? 0) with false by (symmetry; apply Z.eqb_neq; lia).
  replace (heap_base + span c pre + HDR c - HDR c)
    with (heap_base + span c pre) by lia.
  rewrite (load_Some _ _ _ (chain_cell _ _ _ _ Hch)). fields.
  replace (have <? sz) with true by (symmetry; apply Z.ltb_lt; lia).
  cbn [link]. fields.
  pose proof (chain_cell_next _ _ _ _ _ Hch) as Hnext. cbn [fst] in Hnext.
  rewrite (load_Some _ _ _ Hnext). fields.
  change (r.2 && (wrap (wrap (sz - have) - HDR c) <=? r.1))
    with (grows_here c sz have r).
  rewrite Hgrow.
  (* my_malloc, the copy, my_free *)
  destruct (malloc_step s _ sz fuel (or_intror (conj Hfirst Hch)) Hacc)
    as (s1 & P0 & bs1 & Hr1 & Hf1 & Hc1 & _ & Hserved);
    [lia | exact Hok | lia |].
  destruct (served_keeps_block _ _ _ _ _ _ _ Hserved eq_refl)
    as (P1 & Q1 & Hbs1 & Hsp1).
  destruct (served_allocs _ _ _ _ Hserved)
    as (k & Q0 & Hbs0 & Hk & Hsum & Hnew).
  pose proof (served_length _ _ _ _ Hserved) as Hlen1.
  pose proof (served_fresh _ _ _ _ _ _ _ Hserved Hall0 eq_refl) as Hfresh.
  pose proof (chain_sizes _ _ Hc1) as Hall1.
  pose proof Hc1 as (_ & Hold & _). rewrite Hbs1 in Hold.
  apply seg_lookup in Hold. cbn [fst snd] in Hold. rewrite Hsp1 in Hold.
  pose proof Hc1 as Hc2. rewrite Hbs0 in Hc2.
  apply (memcpy_chain _ _ _ _ _ have) in Hc2; [|lia].
  rewrite <- Hbs0, Hbs1 in Hc2.
  set (s2 := with_buffer s1 _) in Hc2.
  destruct (my_free_valid s2 P1 (have, false) Q1 fuel Hc2)
    as (s3 & Hr3 & Hsh3 & Hl3 & _); [rewrite <- Hbs1; lia|].
  rewrite Hsp1 in Hr3.
  unfold move. rewrite Hr1. cbn [bind].
  rewrite (load_Some _ _ _ Hold). cbn [bind deref size].
  fold s2. rewrite Hr3. cbn [bind].
  eexists _, _, (free_blocks c P1 (have, false) Q1), k.
  split; [reflexivity|]. split; [lia|].
  split; [|split; [exact Hk|split]].
  - apply shape_chain; [exact Hsh3|]. apply Hl3.
    destruct Hc2 as (_ & _ & Hlast & _).
    cbn [with_freespace last]. rewrite Hlast. eexists. reflexivity.
  - rewrite alloc_sum_free_blocks. rewrite <- Hsum, Hbs1.
    rewrite alloc_sum_app. cbn [alloc_sum snd fst]. lia.
  - intros o n. rewrite allocs_free_blocks. cbn [fst].
    rewrite Hbs1 in Hall1.
    rewrite (allocs_without _ _ _ _ _ _ Hall1).
    rewrite <- Hbs1, Hnew, Hsp1.
    replace (heap_base + span c P0 + HDR c - HDR c)
      with (heap_base + span c P0) by lia.
    split.
    + intros [[Hin | Heq] Hne]; [left; split; assumption | right; exact Heq].
    + intros [[Hin Hne] | Heq]; [split; [left; exact Hin | exact Hne]|].
      split; [right; exact Heq|]. injection Heq as -> _. lia.
Qed.

(** ** Sequences without [my_realloc] *)

(** After [my_free] of a non-null pointer no two neighbours are free. *)
Lemma my_free_sweeps s bs p fuel :
  shape c s bs ->
  (length bs <= fuel)%nat ->
  exists s' report bs',
    my_free c fuel s (Some p) = Ok (s', report)
    /\ shape c s' bs'
    /\ no_adjacent_free bs'.
Proof.
  clear BUFF_SIZE_range HDR_range.
  intros Hsh Hf.
  assert (Hinvalid :
    my_free c fuel s (Some p)
    = bind (deframent_my_heap c fuel s) (fun s' => Ok (s', InvalidAddress))
    -> exists s' report bs',
         my_free c fuel s (Some p) = Ok (s', report)
         /\ shape c s' bs' /\ no_adjacent_free bs').
  { intros ->.
    destruct (deframent_shape s bs fuel Hsh Hf) as (s' & Hr & Hs' & _).
    rewrite Hr. exists s', InvalidAddress, (coalesce c bs).
    split; [reflexivity|]. split; [exact Hs' | apply coalesce_naf]. }
  destruct ((heap_base <=? p - HDR c) && le_last (p - HDR c) (last s)) eqn:E.
  2:{ apply Hinvalid. apply (my_free_invalid s bs p fuel Hsh Hf).
      left. exact E. }
  destruct (find_addr c heap_base (p - HDR c) bs None) as [v pv] eqn:Ev.
  destruct v.
  2:{ apply Hinvalid. apply (my_free_invalid s bs p fuel Hsh Hf).
      right. rewrite Ev. reflexivity. }
  destruct (find_addr_true _ _ _ _ _ Ev) as (pre & b & post & -> & Hp).
  apply andb_true_iff in E as [_ E].
  assert (Hch : chain c s (pre ++ b :: post)).
  { apply shape_chain; [exact Hsh|]. unfold le_last in E.
    destruct (last s); [eexists; reflexivity | discriminate]. }
  destruct (my_free_valid s pre b post fuel Hch Hf) as (s' & Hr & Hs' & _).
  replace (heap_base + span c pre + HDR c) with p in Hr by lia.
  exists s', (Freed b.1), (free_blocks c pre b post).
  split; [exact Hr|]. split; [exact Hs' | apply coalesce_naf].
Qed.

Lemma free_step_naf s bs p fuel :
  models c s bs -> accounted c s bs ->
  free_ok c p bs ->
  no_adjacent_free bs ->
  (length bs < fuel)%nat ->
  exists s' report bs',
    my_free c fuel s p = Ok (s', report)
    /\ models c s' bs' /\ accounted c s' bs' /\ no_adjacent_free bs'.
Proof.
  intros Hm Hacc Hok Hnaf Hfuel.
  destruct (free_step s bs p fuel Hm Hacc Hok Hfuel)
    as (s' & rep & bs' & Hr & Hm' & Ha').
  exists s', rep, bs'. split; [exact Hr|]. split; [exact Hm'|].
  split; [exact Ha'|].
  destruct p as [a|].
  - assert (Hsh : exists l, shape c s l /\ (length l <= fuel)%nat).
    { destruct Hm as [[-> ->] | [_ Hch]].
      - exists [(0, false)]. split; [exact shape_initial|].
        cbn [length] in *. lia.
      - exists bs. split; [apply chain_shape; exact Hch | lia]. }
    destruct Hsh as (l & Hsh & Hlen).
    destruct (my_free_sweeps s l a fuel Hsh Hlen)
      as (s2 & rep2 & l2 & Hr2 & Hsh2 & Hnaf2).
    rewrite Hr in Hr2. injection Hr2 as <- _.
    destruct Hm' as [[_ ->] | [_ Hch']]; [exact I|].
    destruct Hch' as (Hne' & Hs' & _). destruct Hsh2 as (Hne2 & Hs2 & _).
    rewrite (seg_unique _ _ _ _ Hs' Hs2 Hne' Hne2). exact Hnaf2.
  - cbn [my_free] in Hr. injection Hr as <- _.
    rewrite (models_unique _ _ _ Hm' Hm). exact Hnaf.
Qed.

Lemma serve_all_naf fuel rs :
  forall s bs,
    models c s bs -> accounted c s bs -> no_adjacent_free bs ->
    requests_ok c fuel rs s -> Forall plain rs ->
    exists s' bs',
      serve_all c fuel rs s = Ok s'
      /\ models c s' bs' /\ no_adjacent_free bs'.
Proof.
  induction rs as [|r rs IH]; intros s bs Hm Hacc Hnaf Hok Hplain.
  - exists s, bs. split; [reflexivity | split; assumption].
  - destruct Hok as [Hr Hrest]. destruct (Hr bs Hm) as [Hrok Hfuel].
    inversion Hplain as [|? ? Hp Hplain']; subst.
    assert (Hstep : exists s1 bs1,
              serve c fuel r s = Ok s1 /\ models c s1 bs1
              /\ accounted c s1 bs1 /\ no_adjacent_free bs1).
    { destruct r as [sz | p | p sz]; cbn [serve]; [| |contradiction].
      - destruct Hrok as [Hsz Hrok].
        destruct (Z.eq_dec sz 0) as [-> | Hnz].
        + exists s, bs. split; [reflexivity|].
          split; [exact Hm | split; [exact Hacc | exact Hnaf]].
        + destruct Hrok as [? | Hfit]; [contradiction|].
          destruct (malloc_step s bs sz fuel Hm Hacc) as
            (s1 & P & bs1 & Hr1 & Hf1 & Hc1 & Ha1 & Hserved);
            [lia | exact Hfit | lia |].
          rewrite Hr1. exists s1, bs1. split; [reflexivity|].
          split; [right; split; assumption|]. split; [exact Ha1|].
          apply (served_naf _ _ _ _ Hserved Hnaf).
      - destruct (free_step_naf s bs p fuel Hm Hacc Hrok Hnaf) as
          (s1 & rep & bs1 & Hr1 & Hm1 & Ha1 & Hn1); [lia|].
        rewrite Hr1. exists s1, bs1. split; [reflexivity|].
        split; [exact Hm1 | split; [exact Ha1 | exact Hn1]]. }
    destruct Hstep as (s1 & bs1 & Hs1 & Hm1 & Ha1 & Hn1).
    cbn [serve_all]. rewrite Hs1. cbn [bind].
    apply (IH s1 bs1 Hm1 Ha1 Hn1); [|exact Hplain'].
    apply Hrest. exact Hs1.
Qed.

(** X23. Without [my_realloc] the chain never has two free neighbours:
    starting from the initial buffer, after every prefix of a sequence of
    [my_malloc] and [my_free] calls that are each served well, no two
    adjacent blocks are both free. *)
Theorem malloc_free_keep_no_adjacent_free fuel rs1 rs2 :
  requests_ok c fuel (rs1 ++ rs2) (initial c) ->
  Forall plain rs1 ->
  exists s bs,
    serve_all c fuel rs1 (initial c) = Ok s
    /\ models c s bs
    /\ no_adjacent_free bs.
Proof.
  intros Hok Hplain. apply requests_ok_prefix in Hok.
  destruct models_initial as [Hm0 Ha0].
  apply (serve_all_naf fuel rs1 _ _ Hm0 Ha0 I Hok Hplain).
Qed.

End Accounting.

End Properties.

(** ** Concrete runs *)

Lemma one_block_reached :
  my_malloc sample 10 (initial sample) 10 = Ok (one_block, Some 24).
Proof. vm_compute. reflexivity. Qed.

Lemma shrunk_reached : serve_all sample 10 shrunk_requests (initial sample) = Ok shrunk.
Proof. vm_compute. reflexivity. Qed.

(** C2. [my_realloc(p, n)] on a block of exactly [n] bytes leaves the
    state as it was, but reaches the end of the function without a
    [return]: no pointer comes back. *)
Theorem realloc_same_size_no_return :
  my_realloc sample 10 one_block (Some 24) 10 = Ok (one_block, NoReturn).
Proof. vm_compute. reflexivity. Qed.

(** C3. [my_realloc(p, 20)] on the only block of the chain, of 10 bytes,
    reads [block->next->free] through a NULL [next]. *)
Theorem realloc_tail_grow_null_deref :
  buffer one_block !! 0 = Some (Metadata 10 false None)
  /\ my_realloc sample 10 one_block (Some 24) 20 = NullDeref.
Proof. split; vm_compute; reflexivity. Qed.

(** C10. [my_free(NULL)] returns at once and changes nothing, whatever the
    state; an invalid non-null pointer still gets the defragmentation
    sweep, which here fuses the two free neighbours. *)
Theorem free_null_is_noop :
  (forall c fuel s, my_free c fuel s None = Ok (s, Silent))
  /\ (exists s', my_free sample 10 shrunk (Some 40) = Ok (s', InvalidAddress)
                 /\ blocks shrunk = [(8, false); (8, true); (4, true)]
                 /\ blocks s' = [(8, false); (36, true)]).
Proof.
  split; [reflexivity|]. eexists. split; [vm_compute; reflexivity|].
  split; vm_compute; reflexivity.
Qed.

Lemma sample_HDR_pos : 0 < HDR sample.
Proof. reflexivity. Defined.

Lemma shrunk_chain : chain sample shrunk [(8, false); (8, true); (4, true)].
Proof.
  unfold chain. split; [discriminate|].
  split; [|split; [reflexivity | reflexivity]].
  cbn [seg]. repeat split; try reflexivity; discriminate.
Defined.

Lemma one_block_chain : chain sample one_block [(10, false)].
Proof.
  unfold chain. split; [discriminate|].
  split; [|split; [reflexivity | reflexivity]].
  cbn [seg]. repeat split; try reflexivity; discriminate.
Defined.

Lemma one_free_block_chain : chain sample one_free_block [(50, true)].
Proof.
  unfold chain. split; [discriminate|].
  split; [|split; [reflexivity | reflexivity]].
  cbn [seg]. repeat split; try reflexivity; discriminate.
Defined.

(** C1, refuted as stated: after a block is freed twice the counter is 86,
    and 86 free bytes + 0 allocated bytes + one header of 24 is not 100. *)
Lemma conservation_fails_double_free :
  serve_all sample 10 double_free_requests (initial sample) = Ok freed_twice
  /\ chain sample freed_twice [(10, true)]
  /\ free_space_in_my_heap freed_twice + alloc_sum [(10, true)]
     + HDR sample * Z.of_nat (length [(10, true)])
     <> BUFF_SIZE sample.
Proof.
  split; [vm_compute; reflexivity|]. split.
  - unfold chain. split; [discriminate|].
    split; [|split; [reflexivity | reflexivity]].
    cbn [seg]. repeat split; try reflexivity; discriminate.
  - vm_compute. discriminate.
Qed.

(** The same equation fails without any misuse, when the first fit is
    larger than the request and below the split threshold. *)
Lemma conservation_fails_loose_fit :
  serve_all sample 10 loose_fit_requests (initial sample) = Ok loose_fit
  /\ chain sample loose_fit [(10, false); (10, false)]
  /\ free_space_in_my_heap loose_fit + alloc_sum [(10, false); (10, false)]
     + HDR sample * Z.of_nat (length [(10, false); (10, false)])
     <> BUFF_SIZE sample.
Proof.
  split; [vm_compute; reflexivity|]. split.
  - unfold chain. split; [discriminate|].
    split; [|split; [reflexivity | reflexivity]].
    cbn [seg]. repeat split; try reflexivity; discriminate.
  - vm_compute. discriminate.
Qed.

(** A block that shrinks by less than the threshold is moved: [memcpy]
    copies the 10 bytes of its old size into the new block of 5 bytes at
    offset 58, and so writes over the first bytes of the header that
    follows it at offset 63. *)
Lemma realloc_shrink_move_overruns :
  exists s0 s1 h,
    serve_all sample 10 shrink_move_requests (initial sample) = Ok s0
    /\ my_realloc sample 10 s0 (Some 24) 5 = move sample 10 s0 0 5
    /\ my_malloc sample 10 s0 5 = Ok (s1, Some 58)
    /\ chain sample s1 [(10, false); (5, false); (10, false)]
    /\ buffer s1 !! 0 = Some h /\ size h = 10
    /\ ~ untouched sample 58 (size h)
          (heap_base + span sample [(10, false); (5, false)]).
Proof.
  eexists _, _, _. split; [vm_compute; reflexivity|].
  split; [vm_compute; reflexivity|].
  split; [vm_compute; reflexivity|].
  split.
  { unfold chain. split; [discriminate|].
    split; [|split; [reflexivity | reflexivity]].
    cbn [seg]. repeat split; try reflexivity; discriminate. }
  split; [vm_compute; reflexivity|]. split; [reflexivity|].
  vm_compute. intros [H | [H | H]]; apply H; reflexivity.
Qed.

(** C4, refuted as stated: before any allocation the counter is the whole
    capacity although no block is free, and after [my_malloc(10)] it is 66
    with no free block either. *)
Lemma freespace_is_not_free_payload :
  free_space_in_my_heap (initial sample) <> free_sum (blocks (initial sample))
  /\ blocks one_block = [(10, false)]
  /\ free_space_in_my_heap one_block <> free_sum (blocks one_block).
Proof. repeat split; vm_compute; discriminate. Qed.

(** C5, refuted as stated: the first allocation followed by its release
    leaves the counter one header short. *)
Lemma round_trip_loses_a_header :
  my_malloc sample 10 (initial sample) 10 = Ok (one_block, Some 24)
  /\ my_free sample 10 one_block (Some 24) = Ok (freed_once, Freed 10)
  /\ free_space_in_my_heap freed_once
     <> free_space_in_my_heap (initial sample).
Proof. repeat split; vm_compute; try reflexivity; discriminate. Qed.



(** C9, refuted as stated: offset 16, recovered from the pointer 40, lies
    between [heap_base] and [last] but is no header of the chain; the call
    reports it, and the sweep that follows fuses two blocks, moves [last]
    and raises the counter. *)
Lemma free_invalid_pointer_mutates :
  serve_all sample 10 shrunk_requests (initial sample) = Ok shrunk
  /\ chain sample shrunk [(8, false); (8, true); (4, true)]
  /\ (40 - HDR sample
      ∉ addrs sample heap_base [(8, false); (8, true); (4, true)])
  /\ my_free sample 10 shrunk (Some 40) = Ok (swept, InvalidAddress)
  /\ blocks shrunk = [(8, false); (8, true); (4, true)]
  /\ blocks swept = [(8, false); (36, true)]
  /\ last swept <> last shrunk
  /\ freespace swept <> freespace shrunk.
Proof.
  split; [vm_compute; reflexivity|].
  split; [exact shrunk_chain|].
  split.
  { cbn [addrs sample HDR heap_base fst].
    rewrite !elem_of_cons, elem_of_nil. unfold heap_base. lia. }
  split; [vm_compute; reflexivity|].
  split; [vm_compute; reflexivity|].
  split; [vm_compute; reflexivity|].
  split; vm_compute; discriminate.
Qed.


Lemma first_fit_witness :
  exists s', my_malloc sample 10 shrunk 3 = Ok (s', Some 56).
Proof.
  destruct (first_fit sample sample_HDR_pos shrunk
              [(8, false); (8, true); (4, true)]
              [(8, false)] (8, true) [(4, true)] 3 10) as [H _];
    try reflexivity; try exact shrunk_chain; try (cbn; lia).
  - intros x Hx. apply list_elem_of_singleton in Hx. subst x.
    cbn. intros [H _]. discriminate.
  - exact H.
Defined.

Lemma free_invalid_pointer_witness :
  exists s',
    my_free sample 10 one_block (Some 30) = Ok (s', InvalidAddress)
    /\ deframent_my_heap sample 10 one_block = Ok s'
    /\ (no_adjacent_free [(10, false)] -> s' = one_block).
Proof.
  apply (free_invalid_pointer sample sample_HDR_pos one_block [(10, false)]
           30 10).
  - apply chain_shape. exact one_block_chain.
  - cbn. lia.
  - right. left. intros l Hl. injection Hl as <-. reflexivity.
Defined.


Lemma sample_BUFF_SIZE_range : 0 <= BUFF_SIZE sample < SIZE_MOD.
Proof. split; [discriminate | reflexivity]. Defined.

Lemma sample_HDR_range : HDR sample < SIZE_MOD.
Proof. reflexivity. Defined.

Lemma free_ok_all_allocated c p bs :
  Forall (fun b : blk => b.2 = false) bs -> free_ok c p bs.
Proof.
  intros Hall. destruct p as [a|]; [|exact I].
  intros pre b post -> _. apply Forall_app in Hall as [_ Hall].
  inversion Hall; assumption.
Qed.

Lemma shrunk_requests_ok : requests_ok sample 10 shrunk_requests (initial sample).
Proof.
  apply (requests_ok_cons sample 10 _ _ _ [] one_of_40).
  { left. split; reflexivity. }
  { split; [split; [discriminate | reflexivity]|]. right.
    unfold fit_ok. cbn. discriminate. }
  { cbn. lia. }
  { vm_compute. reflexivity. }
  apply (requests_ok_cons sample 10 _ _ _ [(40, false)] two_allocated).
  { right. split; [reflexivity|]. unfold chain.
    split; [discriminate|]. split; [|split; reflexivity].
    cbn [seg]. repeat split; try reflexivity; discriminate. }
  { split; [split; [discriminate | reflexivity]|]. right.
    unfold fit_ok. cbn. discriminate. }
  { cbn. lia. }
  { vm_compute. reflexivity. }
  apply (requests_ok_cons sample 10 _ _ _ [(40, false); (4, false)]
           second_freed).
  { right. split; [reflexivity|]. unfold chain.
    split; [discriminate|]. split; [|split; reflexivity].
    cbn [seg]. repeat split; try reflexivity; discriminate. }
  { apply free_ok_all_allocated. repeat constructor. }
  { cbn. lia. }
  { vm_compute. reflexivity. }
  apply (requests_ok_cons sample 10 _ _ _ [(40, false); (4, true)] shrunk).
  { right. split; [reflexivity|]. unfold chain.
    split; [discriminate|]. split; [|split; reflexivity].
    cbn [seg]. repeat split; try reflexivity; discriminate. }
  { split; [split; [discriminate | reflexivity]|].
    exists [], 40, [(4, true)]. split; [reflexivity|].
    split; [reflexivity|]. cbn. split; [reflexivity | discriminate]. }
  { cbn. lia. }
  { vm_compute. reflexivity. }
  exact I.
Qed.

Lemma conservation_witness :
  exists s bs,
    serve_all sample 10 shrunk_requests (initial sample) = Ok s
    /\ models sample s bs
    /\ free_space_in_my_heap s + alloc_sum bs
       + HDR sample * Z.of_nat (length bs)
       = BUFF_SIZE sample.
Proof.
  apply (conservation sample sample_HDR_pos sample_BUFF_SIZE_range
           sample_HDR_range 10 shrunk_requests []).
  rewrite app_nil_r. exact shrunk_requests_ok.
Defined.

Lemma freespace_counts_free_and_unused_witness :
  exists s bs,
    serve_all sample 10 [Malloc 40; Malloc 4; Free (Some 88)]
      (initial sample) = Ok s
    /\ models sample s bs
    /\ free_space_in_my_heap s = free_sum bs + (BUFF_SIZE sample - span sample bs)
    /\ span sample bs <= BUFF_SIZE sample.
Proof.
  apply (freespace_counts_free_and_unused sample sample_HDR_pos
           sample_BUFF_SIZE_range sample_HDR_range 10
           [Malloc 40; Malloc 4; Free (Some 88)] [Realloc (Some 24) 8]).
  exact shrunk_requests_ok.
Defined.

Lemma freed_once_chain : chain sample freed_once [(10, true)].
Proof.
  unfold chain. split; [discriminate|].
  split; [|split; [reflexivity | reflexivity]].
  cbn [seg]. repeat split; try reflexivity; discriminate.
Defined.

Lemma round_trip_witness :
  exists s1 p s2 report,
    my_malloc sample 10 freed_once 10 = Ok (s1, Some p)
    /\ my_free sample 10 s1 (Some p) = Ok (s2, report)
    /\ free_space_in_my_heap s2
       = free_space_in_my_heap freed_once
         - round_trip_cost sample 10 [(10, true)].
Proof.
  apply (round_trip sample sample_HDR_pos sample_BUFF_SIZE_range
           freed_once [(10, true)] 10 10).
  - right. split; [reflexivity | exact freed_once_chain].
  - split; [reflexivity | cbn; lia].
  - exact I.
  - split; reflexivity.
  - unfold fit_ok. cbn. reflexivity.
  - cbn. lia.
Defined.

(** ** The further properties, on the sample configuration *)

Lemma sandwich_reached :
  serve_all sample 10 sandwich_requests (initial sample) = Ok sandwich.
Proof. vm_compute. reflexivity. Qed.

Lemma two_of_4_reached :
  serve_all sample 10 [Malloc 4; Malloc 4] (initial sample) = Ok two_of_4.
Proof. vm_compute. reflexivity. Qed.

Lemma sandwich_chain :
  chain sample sandwich [(8, true); (8, false); (4, true)].
Proof.
  unfold chain. split; [discriminate|].
  split; [|split; [reflexivity | reflexivity]].
  cbn [seg]. repeat split; try reflexivity; discriminate.
Defined.

Lemma two_of_4_chain : chain sample two_of_4 [(4, false); (4, false)].
Proof.
  unfold chain. split; [discriminate|].
  split; [|split; [reflexivity | reflexivity]].
  cbn [seg]. repeat split; try reflexivity; discriminate.
Defined.

Lemma two_allocated_chain :
  chain sample two_allocated [(40, false); (4, false)].
Proof.
  unfold chain. split; [discriminate|].
  split; [|split; [reflexivity | reflexivity]].
  cbn [seg]. repeat split; try reflexivity; discriminate.
Defined.

Lemma second_freed_chain :
  chain sample second_freed [(40, false); (4, true)].
Proof.
  unfold chain. split; [discriminate|].
  split; [|split; [reflexivity | reflexivity]].
  cbn [seg]. repeat split; try reflexivity; discriminate.
Defined.

Lemma search_freespace_null_iff_witness :
  exists r,
    search_freespace 10 shrunk 9 = Ok r
    /\ (r = None
        <-> Forall (fun b : blk => b.2 = false \/ b.1 < 9)
              [(8, false); (8, true); (4, true)]).
Proof.
  apply (search_freespace_null_iff sample shrunk
           [(8, false); (8, true); (4, true)] 9 10).
  - apply chain_shape. exact shrunk_chain.
  - cbn. lia.
Defined.

Lemma verifyBlockAddress_accepts_headers_witness :
  exists valid prev,
    verifyBlockAddress 10 shrunk 32 None = Ok (valid, prev)
    /\ (valid = true
        <-> 32 ∈ addrs sample heap_base [(8, false); (8, true); (4, true)])
    /\ (forall pre b post,
          [(8, false); (8, true); (4, true)] = pre ++ b :: post ->
          32 = heap_base + span sample pre ->
          prev = match pre with
                 | [] => None
                 | _ :: _ => Some (last_addr sample heap_base pre)
                 end).
Proof.
  apply (verifyBlockAddress_accepts_headers sample sample_HDR_pos shrunk
           [(8, false); (8, true); (4, true)] 32 10).
  - apply chain_shape. exact shrunk_chain.
  - cbn. lia.
Defined.

Lemma fuse_absorbs_free_successors_witness :
  exists s',
    fuse sample 10 shrunk 32 = Ok s'
    /\ shape sample s' [(8, false); (36, true)]
    /\ freespace s' = 44
    /\ last s' = Some 32.
Proof.
  destruct (fuse_absorbs_free_successors sample sample_HDR_pos shrunk
              [(8, false)] (8, true) [(4, true)] 10)
    as (s' & Hr & Hsh & Hfs & Hl & _).
  - apply chain_shape. exact shrunk_chain.
  - cbn. lia.
  - exists s'. split; [exact Hr|]. split; [exact Hsh|].
    split; [exact Hfs|]. apply Hl. reflexivity.
Defined.

Lemma deframent_merges_free_runs_witness :
  exists s' bs',
    deframent_my_heap sample 10 shrunk = Ok s'
    /\ shape sample s' bs'
    /\ no_adjacent_free bs'
    /\ span sample bs' = span sample [(8, false); (8, true); (4, true)]
    /\ alloc_sum bs' = alloc_sum [(8, false); (8, true); (4, true)]
    /\ (length bs' <= length [(8, false); (8, true); (4, true)])%nat
    /\ freespace s'
       = add_hdr sample
           (length [(8, false); (8, true); (4, true)] - length bs')
           (freespace shrunk)
    /\ (no_adjacent_free [(8, false); (8, true); (4, true)] -> s' = shrunk).
Proof.
  apply (deframent_merges_free_runs sample sample_HDR_pos shrunk
           [(8, false); (8, true); (4, true)] 10).
  - apply chain_shape. exact shrunk_chain.
  - cbn. lia.
Defined.

Lemma deframent_idempotent_witness :
  exists s',
    deframent_my_heap sample 10 shrunk = Ok s'
    /\ deframent_my_heap sample 10 s' = Ok s'.
Proof.
  apply (deframent_idempotent sample sample_HDR_pos shrunk
           [(8, false); (8, true); (4, true)] 10).
  - apply chain_shape. exact shrunk_chain.
  - cbn. lia.
Defined.

Lemma split_then_fuse_witness :
  exists s1 s2,
    split sample one_free_block 0 10 = Ok s1
    /\ fuse sample 10 s1 0 = Ok s2
    /\ chain sample s2 [(50, true)]
    /\ freespace s2 = wrap (freespace one_free_block + HDR sample).
Proof.
  apply (split_then_fuse sample sample_HDR_pos one_free_block
           [] (50, true) [] 10 10).
  - exact one_free_block_chain.
  - lia.
  - cbn. lia.
  - reflexivity.
  - lia.
Defined.

Lemma my_malloc_never_null_witness :
  my_malloc sample 10 one_block 0 = Ok (one_block, None)
  /\ (0 < 1000 ->
      exists s' p, my_malloc sample 10 one_block 1000 = Ok (s', Some p)).
Proof.
  apply (my_malloc_never_null sample sample_HDR_pos one_block [(10, false)]
           1000 10).
  - right. split; [reflexivity | exact one_block_chain].
  - cbn. lia.
Defined.

Lemma my_malloc_appends_unchecked_witness :
  exists s',
    my_malloc sample 10 one_block 100 = Ok (s', Some 58)
    /\ chain sample s' [(10, false); (100, false)]
    /\ freespace s' = SIZE_MOD - 58.
Proof.
  destruct (my_malloc_appends_unchecked sample sample_HDR_pos one_block
              [(10, false)] 100 10)
    as (s' & Hr & Hc & _ & Hfs).
  - reflexivity.
  - exact one_block_chain.
  - split; [lia | reflexivity].
  - repeat constructor.
  - reflexivity.
  - cbn. lia.
  - exists s'. split; [exact Hr|]. split; [exact Hc|].
    apply Hfs. cbn. lia.
Defined.

Lemma my_malloc_keeps_allocated_blocks_witness :
  exists s' P k Q,
    my_malloc sample 10 one_block 20
    = Ok (s', Some (heap_base + span sample P + HDR sample))
    /\ chain sample s' (P ++ (k, false) :: Q)
    /\ 20 <= k
    /\ (forall P0 have Q0,
          [(10, false)] = P0 ++ (have, false) :: Q0 ->
          span sample P0 <> span sample P
          /\ exists P1 Q1,
               P ++ (k, false) :: Q = P1 ++ (have, false) :: Q1
               /\ span sample P1 = span sample P0).
Proof.
  apply (my_malloc_keeps_allocated_blocks sample sample_HDR_pos
           sample_BUFF_SIZE_range one_block [(10, false)] 20 10).
  - right. split; [reflexivity | exact one_block_chain].
  - split; [reflexivity | cbn; lia].
  - split; [lia | reflexivity].
  - unfold fit_ok. cbn. discriminate.
  - cbn. lia.
Defined.

Lemma free_then_malloc_reuses_block_witness :
  exists s1 s2,
    my_free sample 10 two_allocated (Some 24) = Ok (s1, Freed 40)
    /\ my_malloc sample 10 s1 40 = Ok (s2, Some 24).
Proof.
  apply (free_then_malloc_reuses_block sample sample_HDR_pos two_allocated
           [] 40 [(4, false)] 40 10).
  - reflexivity.
  - exact two_allocated_chain.
  - cbn. split; [intros [? _]; discriminate | exact I].
  - reflexivity.
  - constructor.
  - lia.
  - cbn. lia.
Defined.

Lemma my_free_twice_counts_twice_witness :
  exists s',
    my_free sample 10 freed_once (Some 24) = Ok (s', Freed 10)
    /\ chain sample s' [(10, true)]
    /\ freespace s' = wrap (freespace freed_once + 10).
Proof.
  apply (my_free_twice_counts_twice sample sample_HDR_pos freed_once
           [] 10 [] 10).
  - exact freed_once_chain.
  - exact I.
  - cbn. lia.
Defined.

Lemma my_free_merges_both_neighbours_witness :
  exists s',
    my_free sample 10 sandwich (Some 56) = Ok (s', Freed 8)
    /\ chain sample s' [(68, true)]
    /\ freespace s'
       = wrap (wrap (wrap (freespace sandwich + 8) + HDR sample)
               + HDR sample).
Proof.
  apply (my_free_merges_both_neighbours sample sample_HDR_pos sandwich
           [] 8 8 4 [] 10).
  - exact sandwich_chain.
  - cbn. split; [intros [_ ?]; discriminate|].
    split; [intros [? _]; discriminate | exact I].
  - cbn. lia.
Defined.

Lemma my_free_before_first_malloc_witness :
  my_free sample 1 (initial sample) (Some 24)
  = Ok (initial sample, InvalidAddress).
Proof. apply (my_free_before_first_malloc sample 24 1). lia. Defined.

Lemma my_free_keeps_other_blocks_witness :
  exists s' bs',
    my_free sample 10 two_allocated (Some 24) = Ok (s', Freed 40)
    /\ chain sample s' bs'
    /\ span sample bs' = span sample [(40, false); (4, false)]
    /\ alloc_sum bs' = alloc_sum [(40, false); (4, false)] - 40
    /\ allocs sample heap_base [(40, false); (4, false)] = [(0, 40); (64, 4)]
    /\ allocs sample heap_base bs' = [(64, 4)].
Proof.
  apply (my_free_keeps_other_blocks sample sample_HDR_pos two_allocated
           [] 40 [(4, false)] 10).
  - exact two_allocated_chain.
  - cbn. lia.
Defined.


Lemma realloc_shrinks_in_place_witness :
  exists s',
    my_realloc sample 10 two_allocated (Some 24) 8 = Ok (s', Ret (Some 24))
    /\ chain sample s' [(8, false); (8, true); (4, false)]
    /\ freespace s' = wrap (freespace two_allocated + 8).
Proof.
  destruct (realloc_shrinks_in_place sample sample_HDR_pos two_allocated
              [] 40 [(4, false)] 8 10)
    as (s' & Hr & Hc & Hfs & _).
  - exact two_allocated_chain.
  - lia.
  - reflexivity.
  - cbn. lia.
  - exists s'. split; [exact Hr|]. split; [exact Hc | exact Hfs].
Defined.

Lemma realloc_grows_in_place_witness :
  exists s',
    my_realloc sample 10 second_freed (Some 24) 66 = Ok (s', Ret (Some 24))
    /\ chain sample s' [(68, false)]
    /\ freespace s' = wrap (freespace second_freed - 4).
Proof.
  destruct (realloc_grows_in_place sample sample_HDR_pos second_freed
              [] 40 (4, true) [] 66 10)
    as (s' & Hr & Hcase).
  - exact second_freed_chain.
  - reflexivity.
  - cbn. lia.
  - intros H. vm_compute in H. discriminate.
  - exists s'. split; [exact Hr|]. exact Hcase.
Defined.

Lemma print_memory_contents_shows_chain_witness :
  print_memory_contents 10 shrunk
  = Ok ([(8, false); (8, true); (4, true)], free_space_in_my_heap shrunk)
  /\ print_memory_contents 11 (initial sample)
     = Ok ([(0, false)], BUFF_SIZE sample).
Proof.
  apply (print_memory_contents_shows_chain sample shrunk
           [(8, false); (8, true); (4, true)] 10).
  - apply chain_shape. exact shrunk_chain.
  - cbn. lia.
Defined.

Lemma my_calloc_is_malloc_of_product_witness :
  exists s1 s' P Q,
    my_malloc sample 10 one_block (wrap (9223372036854775810 * 2))
    = Ok (s1, Some (heap_base + span sample P + HDR sample))
    /\ my_calloc sample 10 one_block 9223372036854775810 2
       = Returned (Ok (s', Some (heap_base + span sample P + HDR sample)))
    /\ chain sample s1 (P ++ (4, false) :: Q)
    /\ chain sample s' (P ++ (4, false) :: Q)
    /\ last s' = last s1 /\ freespace s' = freespace s1.
Proof.
  apply (my_calloc_is_malloc_of_product sample sample_HDR_pos
           sample_BUFF_SIZE_range one_block [(10, false)]
           9223372036854775810 2 10).
  - right. split; [reflexivity | exact one_block_chain].
  - split; [reflexivity | cbn; lia].
  - split; [reflexivity | discriminate].
  - unfold fit_ok. cbn. discriminate.
  - cbn. lia.
Defined.

Lemma my_calloc_null_iff_witness :
  (wrap (4294967296 * 4294967296) = 0 ->
   my_calloc sample 10 one_block 4294967296 4294967296
   = Returned (Ok (one_block, None)))
  /\ (wrap (4294967296 * 4294967296) <> 0 ->
      forall s',
        my_calloc sample 10 one_block 4294967296 4294967296
        <> Returned (Ok (s', None))).
Proof.
  apply (my_calloc_null_iff sample sample_HDR_pos one_block [(10, false)]
           4294967296 4294967296 10).
  - right. split; [reflexivity | exact one_block_chain].
  - cbn. lia.
Defined.

Lemma my_malloc_keeps_no_adjacent_free_witness :
  exists s' p bs',
    my_malloc sample 10 one_block 20 = Ok (s', Some p)
    /\ chain sample s' bs'
    /\ no_adjacent_free bs'.
Proof.
  apply (my_malloc_keeps_no_adjacent_free sample sample_HDR_pos
           sample_BUFF_SIZE_range one_block [(10, false)] 20 10).
  - right. split; [reflexivity | exact one_block_chain].
  - split; [reflexivity | cbn; lia].
  - split; [lia | reflexivity].
  - unfold fit_ok. cbn. discriminate.
  - exact I.
  - cbn. lia.
Defined.

Lemma realloc_grows_by_moving_witness :
  exists s' p bs' k,
    my_realloc sample 10 two_of_4 (Some 24) 8 = Ok (s', Ret (Some p))
    /\ p <> 24
    /\ chain sample s' bs'
    /\ 8 <= k
    /\ alloc_sum bs' = alloc_sum [(4, false); (4, false)] + k - 4
    /\ (forall o n,
          (o, n) ∈ allocs sample heap_base bs'
          <-> ((o, n) ∈ allocs sample heap_base [(4, false); (4, false)]
               /\ o <> heap_base + span sample [])
              \/ (o, n) = (p - HDR sample, k)).
Proof.
  apply (realloc_grows_by_moving sample sample_HDR_pos
           sample_BUFF_SIZE_range two_of_4 [] 4 (4, false) [] 8 10).
  - reflexivity.
  - exact two_of_4_chain.
  - split; [reflexivity | cbn; lia].
  - split; [lia | reflexivity].
  - reflexivity.
  - unfold fit_ok. cbn. discriminate.
  - cbn. lia.
Defined.

Lemma malloc_free_keep_no_adjacent_free_witness :
  exists s bs,
    serve_all sample 10 [Malloc 40; Malloc 4; Free (Some 88)]
      (initial sample) = Ok s
    /\ models sample s bs
    /\ no_adjacent_free bs.
Proof.
  apply (malloc_free_keep_no_adjacent_free sample sample_HDR_pos
           sample_BUFF_SIZE_range sample_HDR_range 10
           [Malloc 40; Malloc 4; Free (Some 88)] [Realloc (Some 24) 8]).
  - exact shrunk_requests_ok.
  - repeat constructor.
Defined.
